(** * Front-end assessment widgets: blog list, navigation bar, drag and drop

    A shallow embedding of the three DOM controllers of the repository
    ([BlogList], [Navigation], [DragDrop]) and the properties their
    specification states about them.

    JavaScript values are modelled as follows.
    - Strings are [string] (ASCII code units); numbers that the code only
      adds, subtracts and compares are [Z], and a number that may be [NaN]
      is [option Z] with [None] for [NaN].
    - Arrays live in a store of arrays addressed by references, because
      [Array.prototype.sort] reorders the array it is called on and
      [items], [filteredItems] and the cache hold references.
    - Class lists are finite sets of class names, attributes finite maps.
    - What the browser decides (date parsing, collation, the network, the
      clock) is a parameter of the model. *)

From Stdlib Require Import ZArith QArith String Ascii List Permutation Sorted Lia.
From stdpp Require Import base option list gmap strings pretty.

#[local] Set Warnings "-clear-no-such-hyp".

Local Open Scope string_scope.
Local Open Scope Z_scope.

(** ** JavaScript primitives used by the controllers *)

Module JS.

(** Truthiness of a string: every string but the empty one. *)
Definition truthy (s : string) : bool :=
  match s with EmptyString => false | String _ _ => true end.

(** [String.prototype.toLowerCase] on ASCII code units: strings are
    ASCII in this model, and on them the function maps [A]-[Z] to
    [a]-[z] and nothing else. *)
Definition lower_ascii (c : ascii) : ascii :=
  let n := nat_of_ascii c in
  if ((65 <=? n) && (n <=? 90))%nat then ascii_of_nat (n + 32) else c.

Fixpoint toLowerCase (s : string) : string :=
  match s with
  | EmptyString => EmptyString
  | String c r => String (lower_ascii c) (toLowerCase r)
  end.

(** [String.prototype.includes]: [sub] occurs in [s] as a substring. *)
Fixpoint includes (s sub : string) : bool :=
  if String.prefix sub s then true
  else match s with
       | EmptyString => false
       | String _ r => includes r sub
       end.

(** [Array.prototype.includes] on an array of strings (strict equality). *)
Definition array_includes (l : list string) (v : string) : bool :=
  existsb (String.eqb v) l.

(** Numbers: [None] is [NaN]. *)
Definition number := option Z.

Definition num_sub (a b : number) : number :=
  match a, b with
  | Some x, Some y => Some (x - y)
  | _, _ => None
  end.

(** [parseInt(s)] without a radix: leading white space, an optional sign,
    an optional [0x] prefix, then the longest run of digits; [NaN] when
    that run is empty.  The result is the integer the digits denote.
    The code's Number is that integer as long as its magnitude is at
    most 2^53; beyond that the code rounds, and what is stated about the
    order of numbers is stated for numbers within that bound. *)
Definition is_space (c : ascii) : bool :=
  let n := nat_of_ascii c in
  ((n =? 32) || ((9 <=? n) && (n <=? 13)))%nat.

Fixpoint trim_start (s : string) : string :=
  match s with
  | EmptyString => EmptyString
  | String c r => if is_space c then trim_start r else s
  end.

Definition digit_value (c : ascii) : option Z :=
  let n := Z.of_nat (nat_of_ascii c) in
  if (48 <=? n) && (n <=? 57) then Some (n - 48)
  else if (97 <=? n) && (n <=? 122) then Some (n - 87)
  else if (65 <=? n) && (n <=? 90) then Some (n - 55)
  else None.

Fixpoint digits (radix : Z) (acc : number) (s : string) : number :=
  match s with
  | EmptyString => acc
  | String c r =>
      match digit_value c with
      | Some d =>
          if d <? radix then digits radix (Some (default 0 acc * radix + d)) r
          else acc
      | None => acc
      end
  end.

Definition parseInt (s : string) : number :=
  let s := trim_start s in
  let '(sign, s) :=
    match s with
    | String "-" r => (-1, r)
    | String "+" r => (1, r)
    | _ => (1, s)
    end in
  let '(radix, s) :=
    match s with
    | String "0" (String "x" r) => (16, r)
    | String "0" (String "X" r) => (16, r)
    | _ => (10, s)
    end in
  Z.mul sign <$> digits radix None s.

(** [Array.prototype.slice(0, end)]: a negative [end] counts from the end
    of the array. *)
Definition slice0 {A} (l : list A) (e : Z) : list A :=
  let len := Z.of_nat (length l) in
  let final := if e <? 0 then Z.max (len + e) 0 else Z.min e len in
  take (Z.to_nat final) l.

(** [Array.prototype.sort(cmp)].  The comparator returns a number; a
    negative result puts its first argument first, a positive one its
    second, and zero or [NaN] leaves the two in their order.  ECMAScript
    requires the sort to be stable, which fixes the result whenever the
    comparator is a consistent ordering; the model is the stable
    insertion sort.  With a comparator that is not consistent, as one
    that answers [NaN] for some pairs and a sign for others, ECMAScript
    leaves the order to the engine, and the model is one of the orders
    it allows: what is stated about the order of a sorted array is
    stated for keys that are all numbers. *)
Section Sort.
Context {A : Type} (cmp : A -> A -> number).

Definition after (x y : A) : bool :=
  match cmp x y with Some v => 0 <? v | None => false end.

Fixpoint insert_sorted (x : A) (l : list A) : list A :=
  match l with
  | [] => [x]
  | y :: r => if after x y then y :: insert_sorted x r else x :: l
  end.

Fixpoint sort (l : list A) : list A :=
  match l with
  | [] => []
  | x :: r => insert_sorted x (sort r)
  end.
End Sort.

(** Decimal rendering of a status code, as template literals do. *)
Definition show_Z (z : Z) : string := pretty z.

End JS.

(** ** The blog list controller *)

Module BlogList.

(** *** Data model *)

(** A blog entry as the remote endpoint delivers it: the fields the code
    reads are strings, and [tags], which the code tests before use, may
    be missing. *)
Record BlogEntry := mkEntry {
  title : string;
  author : string;
  published_date : string;
  reading_time : string;
  content : string;
  category : string;
  tags : option (list string);
  image : string
}.

(** What the browser decides about dates and collation. *)
Record Host := mkHost {
  (** [new Date(s)] as a number; [NaN] for an invalid date *)
  date_value : string -> JS.number;
  (** [new Date(s).toLocaleDateString()] *)
  toLocaleDateString : string -> string;
  (** [a.localeCompare(b)] *)
  localeCompare : string -> string -> Z
}.

(** The markup [render] writes into the list container: one article per
    entry, or the notice that nothing was found. *)
Record Article := mkArticle {
  a_image : string;
  a_title : string;
  a_author : string;
  a_date : string;
  a_reading_time : string;
  a_excerpt : string;
  a_tags : list string
}.

Inductive Content :=
  | Articles (arts : list Article)
  | NoResults.

Record ErrorBox := mkErrorBox {
  eb_classList : gset string;
  eb_textContent : string
}.

(** References to arrays. *)
Abbreviation loc := positive.

Record CacheEntry := mkCacheEntry {
  data : loc;
  timestamp : Z
}.

(** The fields of a [BlogList] object.  [loadingIndicator] and
    [errorContainer] are [None] when [querySelector] found no element;
    the code tests both before use.  It writes to [listContainer] without
    a test, so the list container is always there.  [wired] records that
    [setupEventListeners] has run. *)
Record BlogList := mkBlogList {
  listContainer : Content;
  loadingIndicator : option (gset string);
  errorContainer : option ErrorBox;
  wired : bool;
  apiUrl : string;
  items : loc;
  filteredItems : loc;
  page : Z;
  perPage : Z;
  cache : gmap string CacheEntry;
  cacheExpiry : Z;
  currentSort : string;
  currentFilter : string;
  currentSearch : string
}.

(** *** The browser around the controller *)

Inductive Body :=
  | InvalidJSON (msg : string)
  | JSONArray (entries : list BlogEntry)
  | JSONOther.

Inductive Reply :=
  | Rejected (msg : string)
  | Response (ok : bool) (status : Z) (body : Body).

(** One request: how long it took and how it ended. *)
Record Exchange := mkExchange {
  latency : Z;
  outcome : Reply
}.

Inductive Effect :=
  | Fetch (url : string)
  | Timeout (ms : Z).

Definition is_fetch (e : Effect) : bool :=
  match e with Fetch _ => true | Timeout _ => false end.

Definition is_timeout (e : Effect) : bool := negb (is_fetch e).

(** The state a method runs in: the array store, the clock read by
    [Date.now()], the network (the exchange that answers the n-th
    request), the effects performed so far (oldest first), and the
    controller object. *)
Record State := mkState {
  heap : gmap loc (list BlogEntry);
  clock : Z;
  network : nat -> Exchange;
  log : list Effect;
  this : BlogList
}.

Definition requests (σ : State) : nat := length (List.filter is_fetch (log σ)).
Definition delays (σ : State) : list Effect := List.filter is_timeout (log σ).

(** Field updates. *)
Definition set_heap (h : gmap loc (list BlogEntry)) (σ : State) : State :=
  mkState h (clock σ) (network σ) (log σ) (this σ).
Definition set_clock (t : Z) (σ : State) : State :=
  mkState (heap σ) t (network σ) (log σ) (this σ).
Definition set_log (l : list Effect) (σ : State) : State :=
  mkState (heap σ) (clock σ) (network σ) l (this σ).
Definition set_this (b : BlogList) (σ : State) : State :=
  mkState (heap σ) (clock σ) (network σ) (log σ) b.

Definition set_listContainer (c : Content) (σ : State) : State :=
  let b := this σ in
  set_this (mkBlogList c (loadingIndicator b) (errorContainer b) (wired b)
    (apiUrl b) (items b) (filteredItems b) (page b) (perPage b) (cache b)
    (cacheExpiry b) (currentSort b) (currentFilter b) (currentSearch b)) σ.
Definition set_loadingIndicator (c : option (gset string)) (σ : State) : State :=
  let b := this σ in
  set_this (mkBlogList (listContainer b) c (errorContainer b) (wired b)
    (apiUrl b) (items b) (filteredItems b) (page b) (perPage b) (cache b)
    (cacheExpiry b) (currentSort b) (currentFilter b) (currentSearch b)) σ.
Definition set_errorContainer (c : option ErrorBox) (σ : State) : State :=
  let b := this σ in
  set_this (mkBlogList (listContainer b) (loadingIndicator b) c (wired b)
    (apiUrl b) (items b) (filteredItems b) (page b) (perPage b) (cache b)
    (cacheExpiry b) (currentSort b) (currentFilter b) (currentSearch b)) σ.
Definition set_wired (w : bool) (σ : State) : State :=
  let b := this σ in
  set_this (mkBlogList (listContainer b) (loadingIndicator b) (errorContainer b) w
    (apiUrl b) (items b) (filteredItems b) (page b) (perPage b) (cache b)
    (cacheExpiry b) (currentSort b) (currentFilter b) (currentSearch b)) σ.
Definition set_items (l : loc) (σ : State) : State :=
  let b := this σ in
  set_this (mkBlogList (listContainer b) (loadingIndicator b) (errorContainer b) (wired b)
    (apiUrl b) l (filteredItems b) (page b) (perPage b) (cache b)
    (cacheExpiry b) (currentSort b) (currentFilter b) (currentSearch b)) σ.
Definition set_filteredItems (l : loc) (σ : State) : State :=
  let b := this σ in
  set_this (mkBlogList (listContainer b) (loadingIndicator b) (errorContainer b) (wired b)
    (apiUrl b) (items b) l (page b) (perPage b) (cache b)
    (cacheExpiry b) (currentSort b) (currentFilter b) (currentSearch b)) σ.
Definition set_page (p : Z) (σ : State) : State :=
  let b := this σ in
  set_this (mkBlogList (listContainer b) (loadingIndicator b) (errorContainer b) (wired b)
    (apiUrl b) (items b) (filteredItems b) p (perPage b) (cache b)
    (cacheExpiry b) (currentSort b) (currentFilter b) (currentSearch b)) σ.
Definition set_cache (c : gmap string CacheEntry) (σ : State) : State :=
  let b := this σ in
  set_this (mkBlogList (listContainer b) (loadingIndicator b) (errorContainer b) (wired b)
    (apiUrl b) (items b) (filteredItems b) (page b) (perPage b) c
    (cacheExpiry b) (currentSort b) (currentFilter b) (currentSearch b)) σ.
Definition set_currentSort (s : string) (σ : State) : State :=
  let b := this σ in
  set_this (mkBlogList (listContainer b) (loadingIndicator b) (errorContainer b) (wired b)
    (apiUrl b) (items b) (filteredItems b) (page b) (perPage b) (cache b)
    (cacheExpiry b) s (currentFilter b) (currentSearch b)) σ.
Definition set_currentFilter (s : string) (σ : State) : State :=
  let b := this σ in
  set_this (mkBlogList (listContainer b) (loadingIndicator b) (errorContainer b) (wired b)
    (apiUrl b) (items b) (filteredItems b) (page b) (perPage b) (cache b)
    (cacheExpiry b) (currentSort b) s (currentSearch b)) σ.
Definition set_currentSearch (s : string) (σ : State) : State :=
  let b := this σ in
  set_this (mkBlogList (listContainer b) (loadingIndicator b) (errorContainer b) (wired b)
    (apiUrl b) (items b) (filteredItems b) (page b) (perPage b) (cache b)
    (cacheExpiry b) (currentSort b) (currentFilter b) s) σ.

(** Reading an array, allocating a new one ([filter], [[...a]] and a
    parsed response body all build a new array), and overwriting one in
    place. *)
Definition read (l : loc) (σ : State) : list BlogEntry := heap σ !!! l.

Definition alloc (a : list BlogEntry) (σ : State) : loc * State :=
  let l := fresh (dom (heap σ)) in
  (l, set_heap (<[l := a]> (heap σ)) σ).

Definition write (l : loc) (a : list BlogEntry) (σ : State) : State :=
  set_heap (<[l := a]> (heap σ)) σ.

(** [this.filteredItems = a] for a newly built array [a]. *)
Definition assign_filteredItems (a : list BlogEntry) (σ : State) : State :=
  let '(l, σ) := alloc a σ in set_filteredItems l σ.

(** *** Criteria *)

(** The filter predicate: the entry's category is [val], or [val] is one
    of its tags. *)
Definition matches (val : string) (item : BlogEntry) : bool :=
  String.eqb (category item) val
  || match tags item with
     | Some t => JS.array_includes t val
     | None => false
     end.

(** The search predicate: the lower-cased title contains [q]. *)
Definition title_has (q : string) (item : BlogEntry) : bool :=
  JS.includes (JS.toLowerCase (title item)) q.

(** An [Error] object, and how a method call completes. *)
Record Error := mkError { message : string }.

Inductive Completion :=
  | Returned
  | Thrown (err : Error).

(** [Date.now()], [await fetch(url)] and
    [await new Promise(resolve => setTimeout(resolve, ms))]. *)
Definition Date_now (σ : State) : Z := clock σ.

Definition fetch (url : string) (σ : State) : Exchange * State :=
  let x := network σ (requests σ) in
  (x, set_clock (clock σ + latency x) (set_log (log σ ++ [Fetch url]) σ)).

Definition sleep (ms : Z) (σ : State) : State :=
  set_clock (clock σ + ms) (set_log (log σ ++ [Timeout ms]) σ).

(** Time passing between two method calls. *)
Definition tick (d : Z) (σ : State) : State := set_clock (clock σ + d) σ.

Section Methods.
Variable host : Host.

(** The comparator of [onSortChange]. *)
Definition compare (by_ : string) (a b : BlogEntry) : JS.number :=
  if String.eqb by_ "date" then
    JS.num_sub (date_value host (published_date b))
               (date_value host (published_date a))
  else if String.eqb by_ "reading_time" then
    JS.num_sub (JS.parseInt (reading_time b)) (JS.parseInt (reading_time a))
  else if String.eqb by_ "category" then
    Some (localeCompare host (category a) (category b))
  else Some 0.

(** *** Rendering *)

Definition article (item : BlogEntry) : Article :=
  {| a_image := image item;
     a_title := title item;
     a_author := author item;
     a_date := toLocaleDateString host (published_date item);
     a_reading_time := reading_time item;
     a_excerpt := content item;
     a_tags := default [] (tags item) |}.

Definition render (σ : State) : State :=
  let end_ := page (this σ) * perPage (this σ) in
  let slice := JS.slice0 (read (filteredItems (this σ)) σ) end_ in
  let σ := set_listContainer (Articles (map article slice)) σ in
  if (length slice =? 0)%nat then set_listContainer NoResults σ else σ.

(** *** The three handlers.  The argument is [e.target.value]. *)

Definition onSortChange (by_ : string) (σ : State) : State :=
  let σ := set_currentSort by_ σ in
  let σ :=
    if JS.truthy by_ then
      let l := filteredItems (this σ) in
      write l (JS.sort (compare by_) (read l σ)) σ
    else σ in
  let σ := set_page 1 σ in
  render σ.

Definition onFilterChange (val : string) (σ : State) : State :=
  let σ := set_currentFilter val σ in
  let σ :=
    if JS.truthy val then
      assign_filteredItems (List.filter (matches val) (read (items (this σ)) σ)) σ
    else
      assign_filteredItems (read (items (this σ)) σ) σ in
  let σ :=
    if JS.truthy (currentSearch (this σ)) then
      assign_filteredItems
        (List.filter (title_has (currentSearch (this σ)))
           (read (filteredItems (this σ)) σ)) σ
    else σ in
  let σ :=
    if JS.truthy (currentSort (this σ)) then onSortChange (currentSort (this σ)) σ
    else σ in
  let σ := set_page 1 σ in
  render σ.

Definition onSearchInput (value : string) (σ : State) : State :=
  let q := JS.toLowerCase value in
  let σ := set_currentSearch q σ in
  let σ :=
    if JS.truthy q then
      let σ :=
        assign_filteredItems (List.filter (title_has q) (read (items (this σ)) σ)) σ in
      let σ :=
        if JS.truthy (currentFilter (this σ)) then
          assign_filteredItems
            (List.filter (matches (currentFilter (this σ)))
               (read (filteredItems (this σ)) σ)) σ
        else σ in
      if JS.truthy (currentSort (this σ)) then onSortChange (currentSort (this σ)) σ
      else σ
    else
      let σ := assign_filteredItems (read (items (this σ)) σ) σ in
      if JS.truthy (currentFilter (this σ)) then
        onFilterChange (currentFilter (this σ)) σ
      else σ in
  let σ := set_page 1 σ in
  render σ.

(** *** Fetching *)

(** The body of the inner [try]: one request, the checks on the response,
    and on success the cache entry and the two arrays. *)
Definition attempt (σ : State) : (Error + unit) * State :=
  let '(x, σ) := fetch (apiUrl (this σ)) σ in
  match outcome x with
  | Rejected msg => (inl (mkError msg), σ)
  | Response ok status body =>
      if negb ok then
        (inl (mkError ("HTTP error! status: " +:+ JS.show_Z status)), σ)
      else
        match body with
        | InvalidJSON msg => (inl (mkError msg), σ)
        | JSONOther => (inl (mkError "Unexpected API response"), σ)
        | JSONArray entries =>
            let '(d, σ) := alloc entries σ in
            let σ :=
              set_cache
                (<[apiUrl (this σ) := mkCacheEntry d (Date_now σ)]> (cache (this σ)))
                σ in
            let σ := set_items d σ in
            let σ := assign_filteredItems (read d σ) σ in
            (inr tt, σ)
        end
  end.

(** [while (retries > 0)]: the loop ends by [return] inside the body, or
    falls through to [throw lastError]. *)
Fixpoint retry_loop (retries : nat) (lastError : option Error) (σ : State)
  : (option Error + unit) * State :=
  match retries with
  | O => (inl lastError, σ)
  | S r =>
      match attempt σ with
      | (inr tt, σ) => (inr tt, σ)
      | (inl error, σ) =>
          let σ :=
            if (0 <? r)%nat then sleep (1000 * (3 - Z.of_nat r)) σ else σ in
          retry_loop r (Some error) σ
      end
  end.

(** The cache entry for the URL when there is one and it is younger than
    [cacheExpiry]. *)
Definition cached (σ : State) : option CacheEntry :=
  match cache (this σ) !! apiUrl (this σ) with
  | Some c =>
      if Date_now σ - timestamp c <? cacheExpiry (this σ) then Some c else None
  | None => None
  end.

(** The outer [catch] wraps what was thrown; [lastError] is always set
    when the loop falls through, and reading [message] off [undefined]
    would itself be a [TypeError]. *)
Definition wrap (thrown : option Error) : Error :=
  match thrown with
  | Some error => mkError ("Failed to fetch blogs: " +:+ message error)
  | None => mkError "TypeError"
  end.

Definition fetchData (σ : State) : Completion * State :=
  match cached σ with
  | Some cachedData =>
      let σ := set_items (data cachedData) σ in
      let σ := assign_filteredItems (read (data cachedData) σ) σ in
      (Returned, σ)
  | None =>
      match retry_loop 3 None σ with
      | (inr tt, σ) => (Returned, σ)
      | (inl thrown, σ) => (Thrown (wrap thrown), σ)
      end
  end.

(** *** Initialisation *)

Definition showLoading (σ : State) : State :=
  set_loadingIndicator
    ((λ c : gset string, c ∖ {["hidden"]}) <$> loadingIndicator (this σ)) σ.

Definition hideLoading (σ : State) : State :=
  set_loadingIndicator
    ((λ c : gset string, {["hidden"]} ∪ c) <$> loadingIndicator (this σ)) σ.

Definition showError (err : Error) (σ : State) : State :=
  match errorContainer (this σ) with
  | None => σ
  | Some box =>
      set_errorContainer
        (Some (mkErrorBox (eb_classList box ∖ {["hidden"]})
                          ("Error: " +:+ message err))) σ
  end.

Definition setupEventListeners (σ : State) : State := set_wired true σ.

Definition init (σ : State) : State :=
  let σ := showLoading σ in
  let '(r, σ) := fetchData σ in
  let σ :=
    match r with
    | Returned => render (setupEventListeners σ)
    | Thrown err => showError err σ
    end in
  hideLoading σ.

(** *** User actions *)

Inductive Action :=
  | FilterChange (value : string)
  | SearchInput (value : string)
  | SortChange (value : string).

Definition handle (a : Action) (σ : State) : State :=
  match a with
  | FilterChange v => onFilterChange v σ
  | SearchInput v => onSearchInput v σ
  | SortChange v => onSortChange v σ
  end.

Definition run (acts : list Action) (σ : State) : State :=
  fold_left (λ σ a, handle a σ) acts σ.

(** *** The composition the specification describes: filter, then search,
    then sort, each applied only when its criterion is set. *)

Definition apply_filter (val : string) (l : list BlogEntry) : list BlogEntry :=
  if JS.truthy val then List.filter (matches val) l else l.

Definition apply_search (q : string) (l : list BlogEntry) : list BlogEntry :=
  if JS.truthy q then List.filter (title_has q) l else l.

Definition apply_sort (by_ : string) (l : list BlogEntry) : list BlogEntry :=
  if JS.truthy by_ then JS.sort (compare by_) l else l.

Definition pipeline (val q by_ : string) (l : list BlogEntry) : list BlogEntry :=
  apply_sort by_ (apply_search q (apply_filter val l)).

End Methods.

(** *** Construction *)

(** What [querySelector] finds in the container handed to the
    constructor. *)
Record Container := mkContainer {
  c_listContainer : Content;
  c_loadingIndicator : option (gset string);
  c_errorContainer : option ErrorBox
}.

Definition new (c : Container) (h : gmap loc (list BlogEntry)) (t : Z)
    (net : nat -> Exchange) : State :=
  let i := fresh (dom h) in
  let h := <[i := []]> h in
  let f := fresh (dom h) in
  let h := <[f := []]> h in
  mkState h t net []
    (mkBlogList (c_listContainer c) (c_loadingIndicator c) (c_errorContainer c)
       false "https://frontend-blog-lyart.vercel.app/blogsData.json"
       i f 1 10 ∅ (5 * 60 * 1000) "" "" "").

(** *** Vocabulary of the properties *)

(** The contents of the two arrays of the controller. *)
Definition view (σ : State) : list BlogEntry := read (filteredItems (this σ)) σ.
Definition all_items (σ : State) : list BlogEntry := read (items (this σ)) σ.

(** The entries the list container shows. *)
Definition displayed (c : Content) : list Article :=
  match c with
  | Articles arts => arts
  | NoResults => []
  end.

(** The controller's two arrays are different arrays of the store, and
    no cached array is the one [filteredItems] refers to. *)
Record wf (σ : State) : Prop := mkWf {
  wf_items : items (this σ) ∈ dom (heap σ);
  wf_filteredItems : filteredItems (this σ) ∈ dom (heap σ);
  wf_distinct : items (this σ) ≠ filteredItems (this σ);
  wf_cache : ∀ url c, cache (this σ) !! url = Some c ->
               data c ∈ dom (heap σ) ∧ data c ≠ filteredItems (this σ)
}.

(** What a handler leaves alone. *)
Record frame (σ σ' : State) : Prop := mkFrame {
  fr_wf : wf σ';
  fr_items : items (this σ') = items (this σ);
  fr_all_items : all_items σ' = all_items σ;
  fr_perPage : perPage (this σ') = perPage (this σ);
  fr_cache : cache (this σ') = cache (this σ);
  fr_cached : ∀ url c, cache (this σ) !! url = Some c ->
                read (data c) σ' = read (data c) σ;
  fr_log : log σ' = log σ;
  fr_clock : clock σ' = clock σ;
  fr_network : network σ' = network σ;
  fr_cacheExpiry : cacheExpiry (this σ') = cacheExpiry (this σ);
  fr_apiUrl : apiUrl (this σ') = apiUrl (this σ)
}.

(** [sees σ0 σ v f q s]: [σ] follows [σ0] within the frame, holds [v] in
    [filteredItems] and the criteria [f], [q], [s]. *)
Definition sees (σ0 σ : State) (v : list BlogEntry) (f q s : string) : Prop :=
  frame σ0 σ ∧ view σ = v ∧
  currentFilter (this σ) = f ∧ currentSearch (this σ) = q ∧
  currentSort (this σ) = s.

(** [filteredItems] holds the entries that pass the current filter and
    search, in some order. *)
Definition coherent (σ : State) : Prop :=
  Permutation (view σ)
    (apply_search (currentSearch (this σ))
       (apply_filter (currentFilter (this σ)) (all_items σ))).

(** What the search handler leaves in [filteredItems]: the composition
    of the three criteria when the query or the filter is set, and the
    items as they are when neither is. *)
Definition searched (host : Host) (f q s : string) (l : list BlogEntry)
  : list BlogEntry :=
  if JS.truthy q || JS.truthy f then pipeline host f q s l else l.





(** A reply that makes an attempt fail, and the message of the error the
    attempt then throws. *)
Definition failed (r : Reply) : bool :=
  match r with
  | Response true _ (JSONArray _) => false
  | _ => true
  end.

Definition error_text (r : Reply) : string :=
  match r with
  | Rejected msg => msg
  | Response false status _ => "HTTP error! status: " +:+ JS.show_Z status
  | Response true _ (InvalidJSON msg) => msg
  | Response true _ JSONOther => "Unexpected API response"
  | Response true _ (JSONArray _) => ""
  end.

(** The state after the request of an attempt was answered. *)
Definition answered (σ : State) : State := (fetch (apiUrl (this σ)) σ).2.

(** The state after a successful attempt stored [entries]. *)
Definition stored (entries : list BlogEntry) (σ : State) : State :=
  let σ := answered σ in
  let d := fresh (dom (heap σ)) in
  let σ := set_heap (<[d := entries]> (heap σ)) σ in
  let σ :=
    set_cache (<[apiUrl (this σ) := mkCacheEntry d (clock σ)]> (cache (this σ))) σ in
  assign_filteredItems entries (set_items d σ).

(** The states in which the second and the third attempt start: after
    the failed request before them and the wait that follows it. *)
Definition second_try (σ : State) : State := sleep 1000 (answered σ).
Definition third_try (σ : State) : State := sleep 2000 (answered (second_try σ)).

(** What fetching never touches: the page's boxes, the pagination cursor,
    the criteria and the configuration. *)
Definition settings (σ : State) :=
  (loadingIndicator (this σ), errorContainer (this σ), wired (this σ),
   listContainer (this σ),
   (page (this σ), perPage (this σ)),
   (currentSort (this σ), currentFilter (this σ), currentSearch (this σ)),
   (cacheExpiry (this σ), apiUrl (this σ)), network σ).

(** The states the controller goes through: constructed, then any
    interleaving of its methods and of time passing. *)
Inductive reachable (host : Host) : State -> Prop :=
  | reach_new c h t net : reachable host (new c h t net)
  | reach_init σ : reachable host σ -> reachable host (init host σ)
  | reach_fetchData σ : reachable host σ -> reachable host (fetchData σ).2
  | reach_render σ : reachable host σ -> reachable host (render host σ)
  | reach_handle a σ : reachable host σ -> reachable host (handle host a σ)
  | reach_tick d σ : reachable host σ -> reachable host (tick d σ).

End BlogList.

(** ** The navigation bar *)

Module Navigation.

(** The parts of the page the menu handlers read and write: the viewport
    width and scroll offset, the class lists of the link list and of the
    header, and the attributes of the toggle button. *)
Record State := mkState {
  innerWidth : Z;
  scrollY : Z;
  navList_classList : gset string;
  navToggle_attributes : gmap string string;
  header_classList : gset string
}.

(** [classList.toggle]. *)
Definition toggle (c : string) (s : gset string) : gset string :=
  if decide (c ∈ s) then s ∖ {[c]} else {[c]} ∪ s.

(** [setAttribute] with a boolean argument stores its string form. *)
Definition show_bool (b : bool) : string := if b then "true" else "false".

Definition toggleNav (σ : State) : State :=
  let isExpanded :=
    bool_decide (navToggle_attributes σ !! "aria-expanded" = Some "true") in
  mkState (innerWidth σ) (scrollY σ)
    (toggle "nav-list--visible" (navList_classList σ))
    (<["aria-expanded" := show_bool (negb isExpanded)]> (navToggle_attributes σ))
    (header_classList σ).

Definition closeNav (σ : State) : State :=
  mkState (innerWidth σ) (scrollY σ)
    (navList_classList σ ∖ {["nav-list--visible"]})
    (<["aria-expanded" := "false"]> (navToggle_attributes σ))
    (header_classList σ).

Definition handleResize (σ : State) : State :=
  if 768 <=? innerWidth σ then
    mkState (innerWidth σ) (scrollY σ)
      (navList_classList σ ∖ {["nav-list--visible"]})
      (<["aria-expanded" := "false"]> (navToggle_attributes σ))
      (header_classList σ)
  else σ.

Definition handleScroll (σ : State) : State :=
  mkState (innerWidth σ) (scrollY σ) (navList_classList σ)
    (navToggle_attributes σ)
    (if 0 <? scrollY σ then {["sticky"]} ∪ header_classList σ
     else header_classList σ ∖ {["sticky"]}).

(** The browser resizes the viewport to [w] and dispatches [resize]. *)
Definition resize (w : Z) (σ : State) : State :=
  handleResize
    (mkState w (scrollY σ) (navList_classList σ) (navToggle_attributes σ)
       (header_classList σ)).

End Navigation.

(** ** Drag and drop *)

Module DragDrop.

(** *** The document *)

Record Style := mkStyle {
  position : string;
  left : string;
  top : string
}.

(** An element: its identity, class list, inline style and children. *)
#[local] Set Warnings "-register-all".

Inductive Element :=
  | Node (eid : nat) (classList : gset string) (style : Style)
         (children : list Element).

Definition eid (e : Element) : nat :=
  match e with Node i _ _ _ => i end.
Definition classList (e : Element) : gset string :=
  match e with Node _ c _ _ => c end.
Definition style (e : Element) : Style :=
  match e with Node _ _ s _ => s end.
Definition children (e : Element) : list Element :=
  match e with Node _ _ _ ch => ch end.

Definition has_class (c : string) (e : Element) : bool :=
  bool_decide (c ∈ classList e).

(** The element and everything below it, in document order. *)
Fixpoint subtree (e : Element) : list Element :=
  match e with
  | Node _ _ _ ch => e :: flat_map subtree ch
  end.

Definition descendants (e : Element) : list Element :=
  flat_map subtree (children e).

(** [e.querySelectorAll('.c')]. *)
Definition querySelectorAll (c : string) (e : Element) : list Element :=
  List.filter (has_class c) (descendants e).

(** Apply [f] to the element named [x]. *)
Fixpoint update (x : nat) (f : Element -> Element) (e : Element) : Element :=
  match e with
  | Node i c s ch =>
      let e' := Node i c s (map (update x f) ch) in
      if (i =? x)%nat then f e' else e'
  end.

(** Take the element named [x] out of its parent. *)
Fixpoint prune (x : nat) (e : Element) : Element :=
  match e with
  | Node i c s ch =>
      Node i c s
        ((fix go (l : list Element) : list Element :=
            match l with
            | [] => []
            | k :: r => if (eid k =? x)%nat then go r else prune x k :: go r
            end) ch)
  end.

(** Append [new] as the last child of the element named [z]. *)
Fixpoint append (z : nat) (new : Element) (e : Element) : Element :=
  match e with
  | Node i c s ch =>
      let ch' := map (append z new) ch in
      Node i c s (if (i =? z)%nat then ch' ++ [new] else ch')
  end.

(** The first list that is not empty. *)
Fixpoint first_nonempty {A} (ls : list (list A)) : list A :=
  match ls with
  | [] => []
  | [] :: r => first_nonempty r
  | p :: _ => p
  end.

(** The path from [e] down to the element named [x], empty when [x] is
    not in [e]. *)
Fixpoint path (x : nat) (e : Element) : list Element :=
  match e with
  | Node i _ _ ch =>
      if (i =? x)%nat then [e]
      else match first_nonempty (map (path x) ch) with
           | [] => []
           | p => e :: p
           end
  end.

(** A copy with new identities. *)
Fixpoint relabel (off : nat) (e : Element) : Element :=
  match e with
  | Node i c s ch => Node (i + off) c s (map (relabel off) ch)
  end.

(** The page: the document body and the elements that were removed from
    it but are still referenced. *)
Record Page := mkPage {
  body : Element;
  detached : list Element
}.

Definition roots (p : Page) : list Element := body p :: detached p.

Definition nodes (p : Page) : list Element := flat_map subtree (roots p).

Definition lookup (x : nat) (p : Page) : option Element :=
  List.find (λ e, (eid e =? x)%nat) (nodes p).

Definition update_page (x : nat) (f : Element -> Element) (p : Page) : Page :=
  mkPage (update x f (body p)) (map (update x f) (detached p)).

(** [x.classList.add(c)], [x.classList.remove(c)]. *)
Definition add_class (c : string) (x : nat) (p : Page) : Page :=
  update_page x
    (λ e, Node (eid e) ({[c]} ∪ classList e) (style e) (children e)) p.

Definition remove_class (c : string) (x : nat) (p : Page) : Page :=
  update_page x
    (λ e, Node (eid e) (classList e ∖ {[c]}) (style e) (children e)) p.

Definition set_style (s : Style) (x : nat) (p : Page) : Page :=
  update_page x (λ e, Node (eid e) (classList e) s (children e)) p.

(** [x.remove()]: an element with a parent leaves it and stays reachable
    through the references to it. *)
Definition remove (x : nat) (p : Page) : Page :=
  match List.find (λ e, (eid e =? x)%nat) (flat_map descendants (roots p)) with
  | Some e => mkPage (prune x (body p)) (map (prune x) (detached p) ++ [e])
  | None => p
  end.

(** [z.appendChild(new)] for an element [new] that has no parent. *)
Definition appendChild (z : nat) (new : Element) (p : Page) : Page :=
  mkPage (append z new (body p)) (map (append z new) (detached p)).

(** [x.cloneNode(true)]. *)
Definition cloneNode (e : Element) (p : Page) : Element :=
  relabel (S (max_list (map eid (nodes p)))) e.

(** [t.closest('.c')]: the nearest of [t] and its ancestors with class
    [c]. *)
Definition closest (c : string) (t : nat) (p : Page) : option Element :=
  last (List.filter (has_class c) (first_nonempty (map (path t) (roots p)))).

(** [document.querySelectorAll('.drop-zone').forEach(zone =>
    zone.classList.remove('drag-over'))]. *)
Definition clear_drag_over (p : Page) : Page :=
  fold_left (λ p z, remove_class "drag-over" (eid z) p)
    (List.filter (has_class "drop-zone") (subtree (body p))) p.

(** *** The controller *)

Record DragDrop := mkDragDrop {
  draggedItem : option nat;
  touchTimeout : option nat;
  initialX : Z;
  initialY : Z
}.

(** The page, the controller, and the timers that are still to fire. *)
Record State := mkState {
  page : Page;
  this : DragDrop;
  timers : list nat
}.

Definition set_page (p : Page) (σ : State) : State :=
  mkState p (this σ) (timers σ).
Definition set_draggedItem (d : option nat) (σ : State) : State :=
  mkState (page σ)
    (mkDragDrop d (touchTimeout (this σ)) (initialX (this σ)) (initialY (this σ)))
    (timers σ).

Definition handleDragStart (target : nat) (σ : State) : State :=
  let σ := set_draggedItem (Some target) σ in
  set_page (add_class "dragging" target (page σ)) σ.

Definition handleDragEnd (target : nat) (σ : State) : State :=
  let σ := set_page (remove_class "dragging" target (page σ)) σ in
  let σ := set_draggedItem None σ in
  set_page (clear_drag_over (page σ)) σ.

Definition targets_drop_zone (target : nat) (σ : State) : bool :=
  match lookup target (page σ) with
  | Some e => has_class "drop-zone" e
  | None => false
  end.

Definition handleDragEnter (target : nat) (σ : State) : State :=
  if targets_drop_zone target σ
  then set_page (add_class "drag-over" target (page σ)) σ
  else σ.

(** [handleDragOver] only sets the drop effect on the event. *)
Definition handleDragOver (target : nat) (σ : State) : State := σ.

Definition handleDragLeave (target : nat) (σ : State) : State :=
  if targets_drop_zone target σ
  then set_page (remove_class "drag-over" target (page σ)) σ
  else σ.

Definition handleDrop (target : nat) (σ : State) : State :=
  match closest "drop-zone" target (page σ), draggedItem (this σ) with
  | Some dropZone, Some dragged =>
      match lookup dragged (page σ) with
      | Some item =>
          let clonedItem := cloneNode item (page σ) in
          let σ := set_page (appendChild (eid dropZone) clonedItem (page σ)) σ in
          let σ := set_page (remove dragged (page σ)) σ in
          set_page (remove_class "drag-over" (eid dropZone) (page σ)) σ
      | None => σ
      end
  | _, _ => σ
  end.

(** A touch: the element it started on or the element under the point
    ([document.elementFromPoint]), and its coordinates. *)
Definition handleTouchStart (target : nat) (clientX clientY : Z) (σ : State)
  : State :=
  let timer := S (max_list (timers σ ++ option_list (touchTimeout (this σ)))) in
  mkState (page σ)
    (mkDragDrop (eid <$> closest "draggable-item" target (page σ))
       (Some timer) clientX clientY)
    (timer :: timers σ).

(** The callback armed by [handleTouchStart], 200ms later. *)
Definition touchTimer (timer : nat) (σ : State) : State :=
  if bool_decide (timer ∈ timers σ) then
    let σ := mkState (page σ) (this σ)
               (List.filter (λ t, negb (t =? timer)%nat) (timers σ)) in
    match draggedItem (this σ) with
    | Some dragged => set_page (add_class "dragging" dragged (page σ)) σ
    | None => σ
    end
  else σ.

Definition clearTimeout (timer : option nat) (σ : State) : State :=
  match timer with
  | Some t =>
      mkState (page σ) (this σ)
        (List.filter (λ t', negb (t' =? t)%nat) (timers σ))
  | None => σ
  end.

Definition px (z : Z) : string := JS.show_Z z +:+ "px".

(** [e.style.position = ''; e.style.left = ''; e.style.top = '']. *)
Definition clear_position (e : Element) : Element :=
  Node (eid e) (classList e) (mkStyle "" "" "") (children e).

Definition under_drop_zone (under : option nat) (σ : State) : option nat :=
  match under with
  | Some u => if targets_drop_zone u σ then Some u else None
  | None => None
  end.

Definition handleTouchMove (clientX clientY : Z) (under : option nat)
    (σ : State) : State :=
  match draggedItem (this σ) with
  | None => σ
  | Some dragged =>
      let σ :=
        set_page
          (set_style (mkStyle "fixed" (px (clientX - 50)) (px (clientY - 25)))
             dragged (page σ)) σ in
      match under_drop_zone under σ with
      | Some dropZone => set_page (add_class "drag-over" dropZone (page σ)) σ
      | None => σ
      end
  end.

Definition handleTouchEnd (clientX clientY : Z) (under : option nat)
    (σ : State) : State :=
  match draggedItem (this σ) with
  | None => σ
  | Some dragged =>
      let σ := clearTimeout (touchTimeout (this σ)) σ in
      let σ :=
        match under_drop_zone under σ, lookup dragged (page σ) with
        | Some dropZone, Some item =>
            let clonedItem := clear_position (cloneNode item (page σ)) in
            let existingItems :=
              match lookup dropZone (page σ) with
              | Some z => querySelectorAll "draggable-item" z
              | None => []
              end in
            let σ :=
              fold_left (λ σ item, set_page (remove (eid item) (page σ)) σ)
                existingItems σ in
            let σ := set_page (appendChild dropZone clonedItem (page σ)) σ in
            set_page (remove dragged (page σ)) σ
        | _, _ =>
            set_page (set_style (mkStyle "" "" "") dragged (page σ)) σ
        end in
      let σ := set_page (remove_class "dragging" dragged (page σ)) σ in
      let σ := set_draggedItem None σ in
      set_page (clear_drag_over (page σ)) σ
  end.

(** *** Vocabulary of the properties *)

(** The identities in an element, in document order. *)
Definition ids (e : Element) : list nat := map eid (subtree e).

(** An element without the elements below it that [S] names. *)
Fixpoint prune_set (S : nat -> bool) (e : Element) : Element :=
  match e with
  | Node i c s ch =>
      Node i c s
        ((fix go (l : list Element) : list Element :=
            match l with
            | [] => []
            | k :: r => if S (eid k) then go r else prune_set S k :: go r
            end) ch)
  end.

(** [settled z L x p]: on the page [p] the element named [z] holds the
    draggable items named [L], and no element of the body is named
    [x]. *)
Definition settled (z : nat) (L : list nat) (x : nat) (p : Page) : Prop :=
  ∃ zn,
    List.find (λ n, (eid n =? z)%nat) (subtree (body p)) = Some zn ∧
    map eid (List.filter (has_class "draggable-item") (descendants zn)) = L ∧
    ¬ In x (ids (body p)).

(** The draggable items a zone holds. *)
Definition items_in (zone : nat) (σ : State) : list Element :=
  match lookup zone (page σ) with
  | Some z => querySelectorAll "draggable-item" z
  | None => []
  end.

End DragDrop.

(** ** More of the blog list *)

(** *** Sort keys *)

Module BlogListTerms.
Import BlogList.

(** The number the comparator of [onSortChange] reads off an entry for
    the keys [date] and [reading_time]. *)
Definition sort_key (host : Host) (by_ : string) (e : BlogEntry) : JS.number :=
  if String.eqb by_ "date" then date_value host (published_date e)
  else JS.parseInt (reading_time e).

(** [b] does not belong before [a]: both keys are numbers and the key of
    [a] is at least the key of [b]. *)
Definition not_below (key : BlogEntry -> JS.number) (a b : BlogEntry) : Prop :=
  ∃ x y, key a = Some x ∧ key b = Some y ∧ y <= x.

Definition same_key (key : BlogEntry -> JS.number) (k : JS.number)
    (e : BlogEntry) : bool :=
  bool_decide (key e = k).

(** A number, and one on which the code's arithmetic is exact: an
    integer of magnitude at most 2^53.  The time value of every valid
    date is one. *)
Definition safe (k : JS.number) : Prop :=
  ∃ z, k = Some z ∧ - 2 ^ 53 <= z <= 2 ^ 53.

End BlogListTerms.

(** *** The search field and its debounced listener *)

Module SearchField.
Import BlogList.

(** The search field with the listener [setupEventListeners] registers on
    it: the controller, the text in the field ([e.target.value], read
    when the timer fires), and the variable [t] of the listener's
    closure, which is the time the pending timer fires at, or [None]
    when no timer is pending. *)
Record Field := mkField {
  controller : State;
  value : string;
  t : option Z
}.

Section Listener.
Variable host : Host.

(** An [input] event: the user has changed the text to [v], and the
    listener replaces the pending timer by one 250ms from now. *)
Definition input (v : string) (w : Field) : Field :=
  mkField (controller w) v (Some (Date_now (controller w) + 250)).

(** [d] milliseconds pass without an event.  A timer that is due in that
    time fires when it is due and calls [onSearchInput]. *)
Definition elapse (d : Z) (w : Field) : Field :=
  match t w with
  | Some due =>
      if due <=? Date_now (controller w) + d then
        let σ := tick (due - Date_now (controller w)) (controller w) in
        let σ := onSearchInput host (value w) σ in
        let σ := tick (Date_now (controller w) + d - due) σ in
        mkField σ (value w) None
      else mkField (tick d (controller w)) (value w) (Some due)
  | None => mkField (tick d (controller w)) (value w) None
  end.

(** Key strokes, each after a pause. *)
Definition typing (keys : list (Z * string)) (w : Field) : Field :=
  fold_left (λ w k, input k.2 (elapse k.1 w)) keys w.

End Listener.

(** The time a sequence of key strokes takes and the text it leaves. *)
Definition duration (keys : list (Z * string)) : Z :=
  fold_right Z.add 0 (map fst keys).

Definition typed (v : string) (keys : list (Z * string)) : string :=
  default v (last (map snd keys)).

End SearchField.

(** ** The navigation bar in its page *)

(** [Navigation] with what it keeps next to the menu: the links, the
    sections, the focus, the listeners and timers it sets up, and what it
    does to the history and to the scroll position.  The elements the
    constructor looks up are taken to exist, and every link to have an
    [href] and to accept the focus.  [preventDefault], which concerns the
    event only, is left out. *)

Module NavigationPage.

(** [s.slice(1)]. *)
Definition slice1 (s : string) : string :=
  match s with EmptyString => EmptyString | String _ r => r end.

(** A navigation link: its [href] attribute, its class list and its other
    attributes. *)
Record Link := mkLink {
  href : string;
  classList : gset string;
  attributes : gmap string string
}.

(** Event targets and the functions registered on them: the four bound
    methods, and the arrow function [init] creates for the link at
    position [i]. *)
Inductive Target := NavToggle | Window | Document | NavLink (i : nat).

Inductive Callback :=
  | ToggleNav
  | HandleResize
  | HandleScroll
  | HandleKeydown
  | LinkClick (i : nat).

Record Listener := mkListener {
  target : Target;
  type : string;
  callback : Callback
}.

#[global] Instance Target_eq_dec : EqDecision Target.
Proof. solve_decision. Defined.
#[global] Instance Callback_eq_dec : EqDecision Callback.
Proof. solve_decision. Defined.
#[global] Instance Listener_eq_dec : EqDecision Listener.
Proof. solve_decision. Defined.

(** What the handlers do to the page besides changing classes and
    attributes, and the callbacks they hand to [setTimeout]. *)
Inductive Effect :=
  | ScrollIntoView (id : string)
  | PushState (url : string).

Inductive Timer :=
  | FocusFirstLink
  | ScrollTo (id : string).

(** An entry the intersection observer reports: the section is given by
    its position in [sections]. *)
Record Entry := mkEntry {
  isIntersecting : bool;
  intersectionRatio : Q;
  entry_target : nat
}.

Record Page := mkPage {
  bar : Navigation.State;
  navLinks : list Link;
  (** the [id] of each [section] element *)
  sections : list string;
  (** the ids [document.getElementById] finds *)
  element_ids : gset string;
  (** [window.location.hash] *)
  hash : string;
  (** the position in [navLinks] of [document.activeElement], [None] when
      the focus is on another element *)
  activeElement : option nat;
  effects : list Effect;
  timers : list Timer;
  listeners : list Listener;
  (** the sections the observer watches *)
  observed : list nat
}.

Definition set_bar (b : Navigation.State) (p : Page) : Page :=
  mkPage b (navLinks p) (sections p) (element_ids p) (hash p) (activeElement p)
    (effects p) (timers p) (listeners p) (observed p).
Definition set_navLinks (l : list Link) (p : Page) : Page :=
  mkPage (bar p) l (sections p) (element_ids p) (hash p) (activeElement p)
    (effects p) (timers p) (listeners p) (observed p).
Definition set_activeElement (a : option nat) (p : Page) : Page :=
  mkPage (bar p) (navLinks p) (sections p) (element_ids p) (hash p) a
    (effects p) (timers p) (listeners p) (observed p).
Definition set_effects (e : list Effect) (p : Page) : Page :=
  mkPage (bar p) (navLinks p) (sections p) (element_ids p) (hash p)
    (activeElement p) e (timers p) (listeners p) (observed p).
Definition set_timers (t : list Timer) (p : Page) : Page :=
  mkPage (bar p) (navLinks p) (sections p) (element_ids p) (hash p)
    (activeElement p) (effects p) t (listeners p) (observed p).
Definition set_listeners (l : list Listener) (p : Page) : Page :=
  mkPage (bar p) (navLinks p) (sections p) (element_ids p) (hash p)
    (activeElement p) (effects p) (timers p) l (observed p).
Definition set_observed (o : list nat) (p : Page) : Page :=
  mkPage (bar p) (navLinks p) (sections p) (element_ids p) (hash p)
    (activeElement p) (effects p) (timers p) (listeners p) o.

(** [document.getElementById]: no element has the empty id. *)
Definition getElementById (id : string) (p : Page) : bool :=
  JS.truthy id && bool_decide (id ∈ element_ids p).

(** [setTimeout(f, 100)], [addEventListener], [removeEventListener],
    [observer.observe]. *)
Definition setTimeout (t : Timer) (p : Page) : Page :=
  set_timers (timers p ++ [t]) p.

Definition addEventListener (l : Listener) (p : Page) : Page :=
  if bool_decide (l ∈ listeners p) then p
  else set_listeners (listeners p ++ [l]) p.

Definition removeEventListener (l : Listener) (p : Page) : Page :=
  set_listeners (List.filter (λ l', negb (bool_decide (l' = l))) (listeners p)) p.

Definition observe (i : nat) (p : Page) : Page :=
  if bool_decide (i ∈ observed p) then p else set_observed (observed p ++ [i]) p.

(** *** Methods *)

Definition highlightNavLink (sectionId : string) (p : Page) : Page :=
  set_navLinks
    (map (λ link,
            let linkHref := slice1 (href link) in
            if String.eqb linkHref sectionId then
              mkLink (href link) ({["active"]} ∪ classList link)
                (<["aria-current" := "true"]> (attributes link))
            else
              mkLink (href link) (classList link ∖ {["active"]})
                (delete "aria-current" (attributes link)))
       (navLinks p)) p.

Definition toggleNav (p : Page) : Page :=
  let isExpanded :=
    bool_decide
      (Navigation.navToggle_attributes (bar p) !! "aria-expanded" = Some "true") in
  let p := set_bar (Navigation.toggleNav (bar p)) p in
  if negb isExpanded then setTimeout FocusFirstLink p else p.

Definition closeNav (p : Page) : Page := set_bar (Navigation.closeNav (bar p)) p.

Definition handleResize (p : Page) : Page :=
  set_bar (Navigation.handleResize (bar p)) p.

Definition handleScroll (p : Page) : Page :=
  set_bar (Navigation.handleScroll (bar p)) p.

(** [links[idx].focus()]; [None] is the [TypeError] of calling [focus] on
    [undefined]. *)
Definition js_rem (a b : Z) : JS.number :=
  if b =? 0 then None else Some (Z.rem a b).

Definition focus (idx : JS.number) (p : Page) : option Page :=
  match idx with
  | Some i =>
      if (0 <=? i) && (i <? Z.of_nat (length (navLinks p)))
      then Some (set_activeElement (Some (Z.to_nat i)) p)
      else None
  | None => None
  end.

(** [links.indexOf(document.activeElement)]. *)
Definition indexOf_activeElement (p : Page) : Z :=
  match activeElement p with
  | Some i => Z.of_nat i
  | None => -1
  end.

Definition handleKeydown (key : string) (p : Page) : option Page :=
  let p := if String.eqb key "Escape" then closeNav p else p in
  if bool_decide ("nav-list--visible" ∈ Navigation.navList_classList (bar p)) then
    let links_length := Z.of_nat (length (navLinks p)) in
    let currentIdx := indexOf_activeElement p in
    p ← (if String.eqb key "ArrowDown" || String.eqb key "ArrowRight" then
           let nextIdx := js_rem (currentIdx + 1) links_length in
           focus nextIdx p
         else Some p);
    if String.eqb key "ArrowUp" || String.eqb key "ArrowLeft" then
      let prevIdx := js_rem (currentIdx - 1 + links_length) links_length in
      focus prevIdx p
    else Some p
  else Some p.

(** The click listener of the link at position [i]. *)
Definition onLinkClick (i : nat) (p : Page) : Page :=
  match navLinks p !! i with
  | Some link =>
      let targetId := slice1 (href link) in
      if getElementById targetId p then
        let p := if Navigation.innerWidth (bar p) <? 768 then closeNav p else p in
        let p := set_effects (effects p ++ [ScrollIntoView targetId]) p in
        let p := set_effects (effects p ++ [PushState ("#" +:+ targetId)]) p in
        highlightNavLink targetId p
      else p
  | None => p
  end.

(** The callback of the intersection observer. *)
Definition observerCallback (entries : list Entry) (p : Page) : Page :=
  fold_left
    (λ p entry,
       if isIntersecting entry && Qle_bool (1 # 2) (intersectionRatio entry)
       then highlightNavLink (default "" (sections p !! entry_target entry)) p
       else p)
    entries p.

Definition init (p : Page) : Page :=
  let p := fold_left (λ p i, observe i p) (seq 0 (length (sections p))) p in
  let p := addEventListener (mkListener NavToggle "click" ToggleNav) p in
  let p := addEventListener (mkListener Window "resize" HandleResize) p in
  let p := addEventListener (mkListener Window "scroll" HandleScroll) p in
  let p := addEventListener (mkListener Document "keydown" HandleKeydown) p in
  let p :=
    fold_left
      (λ p i,
         set_listeners
           (listeners p ++ [mkListener (NavLink i) "click" (LinkClick i)]) p)
      (seq 0 (length (navLinks p))) p in
  let p :=
    if JS.truthy (hash p) then
      let targetId := slice1 (hash p) in
      if getElementById targetId p then setTimeout (ScrollTo targetId) p else p
    else p in
  handleResize p.

Definition destroy (p : Page) : Page :=
  let p := set_observed [] p in
  let p := removeEventListener (mkListener NavToggle "click" ToggleNav) p in
  let p := removeEventListener (mkListener Window "resize" HandleResize) p in
  let p := removeEventListener (mkListener Window "scroll" HandleScroll) p in
  removeEventListener (mkListener Document "keydown" HandleKeydown) p.

(** [new Navigation()] on a page no script has touched. *)
Definition new (bar : Navigation.State) (navLinks : list Link)
    (sections : list string) (element_ids : gset string) (hash : string)
    (activeElement : option nat) : Page :=
  init (mkPage bar navLinks sections element_ids hash activeElement [] [] [] []).

(** *** The browser *)

Inductive Event :=
  | Click (t : Target)
  | Resize (innerWidth : Z)
  | Scroll (scrollY : Z)
  | Keydown (key : string).

Definition event_target (ev : Event) : Target :=
  match ev with
  | Click t => t
  | Resize _ | Scroll _ => Window
  | Keydown _ => Document
  end.

Definition event_type (ev : Event) : string :=
  match ev with
  | Click _ => "click"
  | Resize _ => "resize"
  | Scroll _ => "scroll"
  | Keydown _ => "keydown"
  end.

Definition call (c : Callback) (ev : Event) (p : Page) : option Page :=
  match c with
  | ToggleNav => Some (toggleNav p)
  | HandleResize => Some (handleResize p)
  | HandleScroll => Some (handleScroll p)
  | HandleKeydown =>
      match ev with
      | Keydown key => handleKeydown key p
      | _ => Some p
      end
  | LinkClick i => Some (onLinkClick i p)
  end.

Definition listens (ev : Event) (l : Listener) : bool :=
  bool_decide (target l = event_target ev) && String.eqb (type l) (event_type ev).

(** The browser changes the viewport, then runs the listeners of the
    event in the order of their registration; a listener that throws is
    reported and the next one runs. *)
Definition dispatch (ev : Event) (p : Page) : Page :=
  let p :=
    match ev with
    | Resize w =>
        set_bar
          (Navigation.mkState w (Navigation.scrollY (bar p))
             (Navigation.navList_classList (bar p))
             (Navigation.navToggle_attributes (bar p))
             (Navigation.header_classList (bar p))) p
    | Scroll y =>
        set_bar
          (Navigation.mkState (Navigation.innerWidth (bar p)) y
             (Navigation.navList_classList (bar p))
             (Navigation.navToggle_attributes (bar p))
             (Navigation.header_classList (bar p))) p
    | _ => p
    end in
  fold_left (λ p l, default p (call (callback l) ev p))
    (List.filter (listens ev) (listeners p)) p.


(** The observer reports on the sections it watches. *)
Definition report (entries : list Entry) (p : Page) : Page :=
  observerCallback
    (List.filter (λ e, bool_decide (entry_target e ∈ observed p)) entries) p.

(** *** Vocabulary of the properties *)

Definition menu_open (σ : Navigation.State) : Prop :=
  "nav-list--visible" ∈ Navigation.navList_classList σ.


Definition active (l : Link) : Prop := "active" ∈ classList l.

Definition qualifies (e : Entry) : bool :=
  isIntersecting e && Qle_bool (1 # 2) (intersectionRatio e).

(** The keys that move the focus forwards and backwards. *)
Definition down (key : string) : Prop := key = "ArrowDown" ∨ key = "ArrowRight".
Definition up (key : string) : Prop := key = "ArrowUp" ∨ key = "ArrowLeft".

(** The listeners [init] registers: the four bound methods, and one
    arrow function for each link. *)
Definition bound_listeners : list Listener :=
  [mkListener NavToggle "click" ToggleNav;
   mkListener Window "resize" HandleResize;
   mkListener Window "scroll" HandleScroll;
   mkListener Document "keydown" HandleKeydown].

Definition link_listener (i : nat) : Listener :=
  mkListener (NavLink i) "click" (LinkClick i).

End NavigationPage.

(** ** More of drag and drop *)

Module DragDropTerms.
Import DragDrop.

(** The identities of the draggable items the element named [zone]
    holds. *)
Definition holds (zone : nat) (p : Page) : list nat :=
  map eid
    (match lookup zone p with
     | Some z => querySelectorAll "draggable-item" z
     | None => []
     end).

(** Two pages with the same elements in the same places. *)
Definition same_layout (p p' : Page) : Prop :=
  ids (body p') = ids (body p) ∧ ∀ zone, holds zone p' = holds zone p.

(** An element once the class [c] is removed from the elements named in
    [ys]. *)
Definition strip (c : string) (ys : list nat) (e : Element) : Element :=
  fold_left
    (λ e y,
       update y
         (λ n, Node (eid n) (classList n ∖ {[c]}) (style n) (children n)) e)
    ys e.

End DragDropTerms.

(** ** Concrete hosts, pages and data used in the examples *)

Module Samples.

(** *** A host for the blog list *)

(** Days from 1970-01-01 to a date of the proleptic Gregorian calendar. *)
Definition days_from_civil (y m d : Z) : Z :=
  let y := if m <=? 2 then y - 1 else y in
  let era := y / 400 in
  let yoe := y - era * 400 in
  let mp := (m + 9) mod 12 in
  let doy := (153 * mp + 2) / 5 + d - 1 in
  let doe := yoe * 365 + yoe / 4 - yoe / 100 + doy in
  era * 146097 + doe - 719468.

Definition is_leap (y : Z) : bool :=
  ((y mod 4 =? 0) && negb (y mod 100 =? 0)) || (y mod 400 =? 0).

Definition days_in_month (y m : Z) : Z :=
  if m =? 2 then (if is_leap y then 29 else 28)
  else if (m =? 4) || (m =? 6) || (m =? 9) || (m =? 11) then 30
  else 31.

Definition decimal (c : ascii) : option Z :=
  let n := Z.of_nat (nat_of_ascii c) in
  if (48 <=? n) && (n <=? 57) then Some (n - 48) else None.

Fixpoint decimals (acc : Z) (s : list ascii) : option Z :=
  match s with
  | [] => Some acc
  | c :: r => d ← decimal c; decimals (acc * 10 + d) r
  end.

(** The date-only ISO form [YYYY-MM-DD], which every engine reads as
    midnight UTC; any other string is an invalid date for this host. *)
Definition iso_date_value (s : string) : JS.number :=
  match list_ascii_of_string s with
  | [y1; y2; y3; y4; "-"%char; m1; m2; "-"%char; d1; d2] =>
      y ← decimals 0 [y1; y2; y3; y4];
      m ← decimals 0 [m1; m2];
      d ← decimals 0 [d1; d2];
      if (1 <=? m) && (m <=? 12) && (1 <=? d) && (d <=? days_in_month y m)
      then Some (days_from_civil y m d * 86400000)
      else None
  | _ => None
  end.

(** Collation by code units. *)
Definition code_unit_compare (a b : string) : Z :=
  match String.compare a b with
  | Lt => -1
  | Eq => 0
  | Gt => 1
  end.

Definition iso_host : BlogList.Host :=
  BlogList.mkHost iso_date_value (λ s, s) code_unit_compare.

(** *** Blog entries *)

Definition post_a : BlogList.BlogEntry :=
  BlogList.mkEntry "A" "Ann" "2024-03-01" "5" "First" "x" None "a.png".
Definition post_b : BlogList.BlogEntry :=
  BlogList.mkEntry "B" "Bob" "2024-01-15" "10" "Second" "y" (Some ["x"; "news"]) "b.png".
Definition post_c : BlogList.BlogEntry :=
  BlogList.mkEntry "C" "Cy" "2024-02-10" "10 min read" "Third" "x" (Some []) "c.png".

(** *** Networks *)

Definition latency_ms : Z := 120.

(** The replies of the first requests, in order; later requests are
    rejected. *)
Definition answers (l : list BlogList.Reply) (n : nat) : BlogList.Exchange :=
  BlogList.mkExchange latency_ms (nth n l (BlogList.Rejected "Failed to fetch")).

Definition delivers (entries : list BlogList.BlogEntry) : BlogList.Reply :=
  BlogList.Response true 200 (BlogList.JSONArray entries).

Definition server_error : BlogList.Reply :=
  BlogList.Response false 503 (BlogList.InvalidJSON "Unexpected token").

Definition wrong_shape : BlogList.Reply :=
  BlogList.Response true 200 BlogList.JSONOther.

(** *** Containers and controllers *)

Definition full_container : BlogList.Container :=
  BlogList.mkContainer (BlogList.Articles [])
    (Some {["loading-indicator"]})
    (Some (BlogList.mkErrorBox {["error-container"; "hidden"]} "")).

Definition bare_container : BlogList.Container :=
  BlogList.mkContainer (BlogList.Articles []) None None.

(** A controller constructed at time [0] over an empty store. *)
Definition fresh_list (c : BlogList.Container) (l : list BlogList.Reply)
  : BlogList.State :=
  BlogList.new c ∅ 0 (answers l).

(** A controller after [init] fetched [entries] at the first attempt. *)
Definition loaded (entries : list BlogList.BlogEntry) : BlogList.State :=
  BlogList.init iso_host (fresh_list full_container [delivers entries]).

(** *** A navigation bar with the mobile menu open at 700px *)

Definition narrow_closed : Navigation.State :=
  Navigation.mkState 700 0 {["nav-list"]} {["aria-expanded" := "false"]} ∅.

Definition narrow_open : Navigation.State := Navigation.toggleNav narrow_closed.

(** *** A page with two draggable items and a drop zone *)

Definition plain : DragDrop.Style := DragDrop.mkStyle "" "" "".

Definition item_x : DragDrop.Element :=
  DragDrop.Node 2 {["draggable-item"]} plain [].
Definition item_y : DragDrop.Element :=
  DragDrop.Node 3 {["draggable-item"]} plain [].

(** The zone already holds [item_y]; [item_x] waits in the source list. *)
Definition occupied_page : DragDrop.Page :=
  DragDrop.mkPage
    (DragDrop.Node 0 ∅ plain
       [DragDrop.Node 1 {["source-list"]} plain [item_x];
        DragDrop.Node 4 {["drop-zone"]} plain [item_y]]) [].

Definition idle (p : DragDrop.Page) : DragDrop.State :=
  DragDrop.mkState p (DragDrop.mkDragDrop None None 0 0) [].

(** *** A search field over a loaded controller *)

Definition search_field : SearchField.Field :=
  SearchField.mkField (loaded [post_a; post_b; post_c]) "" None.

(** *** A page with a navigation bar of three links, seen at 700px *)

Definition nav_links : list NavigationPage.Link :=
  [NavigationPage.mkLink "#home" {["nav-link"]} ∅;
   NavigationPage.mkLink "#about" {["nav-link"]} ∅;
   NavigationPage.mkLink "#contact" {["nav-link"]} ∅].

Definition nav_page : NavigationPage.Page :=
  NavigationPage.new narrow_closed nav_links ["home"; "about"; "contact"]
    {["home"; "about"; "contact"]} "" None.

(** The menu opened with the toggle, and then the focus on the last
    link. *)
Definition nav_opened : NavigationPage.Page := NavigationPage.toggleNav nav_page.

Definition nav_on_last : NavigationPage.Page :=
  NavigationPage.set_activeElement (Some 2%nat) nav_opened.

(** *** An item picked up by a long press *)

Definition picked_up : DragDrop.State :=
  DragDrop.touchTimer 1 (DragDrop.handleTouchStart 2 10 10 (idle occupied_page)).

End Samples.

(** * Properties *)

(** ** JavaScript primitives on examples *)

Example parseInt_minutes : JS.parseInt "12 min read" = Some 12.
Proof. reflexivity. Qed.
Example parseInt_nan : JS.parseInt "about 5" = None.
Proof. reflexivity. Qed.
Example parseInt_hex : JS.parseInt "  -0x1F" = Some (-31).
Proof. reflexivity. Qed.
Example slice0_neg : JS.slice0 [1; 2; 3] (-1) = [1; 2].
Proof. reflexivity. Qed.
Example show_404 : JS.show_Z 404 = "404".
Proof. reflexivity. Qed.

(** ** Blog list *)

Module BlogListSpec.
Import BlogList.

(** Sorting and filtering *)

Lemma insert_sorted_perm {A} (cmp : A -> A -> JS.number) x l :
  Permutation (JS.insert_sorted cmp x l) (x :: l).
Proof.
  induction l as [|y r IH]; simpl; [reflexivity|].
  destruct (JS.after cmp x y); [|reflexivity].
  rewrite IH. apply perm_swap.
Qed.

Lemma sort_perm {A} (cmp : A -> A -> JS.number) l :
  Permutation (JS.sort cmp l) l.
Proof.
  induction l as [|x r IH]; simpl; [reflexivity|].
  rewrite insert_sorted_perm. by constructor.
Qed.

(** With a comparator that never puts each of two entries after the
    other, the sort leaves no entry directly before one it belongs
    after. *)
Lemma insert_sorted_Sorted {A} (cmp : A -> A -> JS.number) x l :
  (∀ a b, JS.after cmp a b = true -> JS.after cmp b a = false) ->
  Sorted (λ a b, JS.after cmp a b = false) l ->
  Sorted (λ a b, JS.after cmp a b = false) (JS.insert_sorted cmp x l).
Proof.
  intros Hasym. induction 1 as [|y r Hs IH Hhd]; simpl.
  - by repeat constructor.
  - destruct (JS.after cmp x y) eqn:E.
    + constructor; [exact IH|].
      destruct r as [|z r]; simpl.
      * constructor. by apply Hasym.
      * destruct (JS.after cmp x z); constructor; [by inversion Hhd|by apply Hasym].
    + by repeat constructor.
Qed.

Lemma sort_Sorted {A} (cmp : A -> A -> JS.number) l :
  (∀ a b, JS.after cmp a b = true -> JS.after cmp b a = false) ->
  Sorted (λ a b, JS.after cmp a b = false) (JS.sort cmp l).
Proof.
  intros Hasym. induction l as [|x r IH]; simpl; [constructor|].
  by apply insert_sorted_Sorted.
Qed.

Lemma filter_comm {A} (p q : A -> bool) l :
  List.filter p (List.filter q l) = List.filter q (List.filter p l).
Proof.
  induction l as [|x r IH]; simpl; [done|].
  destruct (q x) eqn:Hq, (p x) eqn:Hp; simpl; rewrite ?Hq, ?Hp, ?IH; done.
Qed.

Lemma render_eq host σ :
  render host σ =
  set_listContainer
    (let slice := JS.slice0 (view σ) (page (this σ) * perPage (this σ)) in
     match slice with [] => NoResults | _ => Articles (map (article host) slice) end) σ.
Proof.
  unfold render, view. cbn.
  destruct (JS.slice0 _ _); reflexivity.
Qed.



Lemma read_fresh σ l a :
  l ∈ dom (heap σ) ->
  (<[fresh (dom (heap σ)) := a]> (heap σ) : gmap loc _) !!! l = heap σ !!! l.
Proof.
  intros Hl. apply lookup_total_insert_ne.
  intros <-. by apply (is_fresh (dom (heap σ))).
Qed.

Lemma view_assign a σ : view (assign_filteredItems a σ) = a.
Proof. unfold view, read. cbn. apply lookup_total_insert_eq. Qed.

Lemma all_items_assign a σ :
  wf σ -> all_items (assign_filteredItems a σ) = all_items σ.
Proof. intros [? ? ? ?]. unfold all_items, read. cbn. by apply read_fresh. Qed.

Lemma wf_assign a σ : wf σ -> wf (assign_filteredItems a σ).
Proof.
  intros [Hi Hf Hd Hc]. split; cbn.
  - rewrite dom_insert_L. set_solver.
  - rewrite dom_insert_L. set_solver.
  - intros E. rewrite E in Hi. by apply is_fresh in Hi.
  - intros url c Hc'. destruct (Hc _ _ Hc') as [H1 H2]. split.
    + rewrite dom_insert_L. set_solver.
    + intros E. rewrite E in H1. by apply is_fresh in H1.
Qed.


Lemma cached_assign a σ url c :
  wf σ -> cache (this σ) !! url = Some c ->
  read (data c) (assign_filteredItems a σ) = read (data c) σ.
Proof.
  intros Hwf Hc. destruct (wf_cache _ Hwf _ _ Hc) as [Hd _].
  unfold read. cbn. by apply read_fresh.
Qed.

Lemma assign_frame a σ : wf σ -> frame σ (assign_filteredItems a σ).
Proof.
  intros Hwf. split; try done.
  - by apply wf_assign.
  - by apply all_items_assign.
  - intros url c Hc. by eapply cached_assign.
Qed.

Lemma wf_same σ σ' :
  heap σ' = heap σ -> items (this σ') = items (this σ) ->
  filteredItems (this σ') = filteredItems (this σ) ->
  cache (this σ') = cache (this σ) ->
  wf σ -> wf σ'.
Proof.
  intros Hh Hi Hf Hc [? ? ? ?]. split; rewrite ?Hh, ?Hi, ?Hf, ?Hc; done.
Qed.

Lemma wf_write a σ : wf σ -> wf (write (filteredItems (this σ)) a σ).
Proof.
  intros [Hi Hf Hd Hc]. split; cbn; rewrite ?dom_insert_L; set_solver.
Qed.

Lemma all_items_write a σ :
  wf σ -> all_items (write (filteredItems (this σ)) a σ) = all_items σ.
Proof.
  intros [? ? ? ?]. unfold all_items, read. cbn.
  by apply lookup_total_insert_ne.
Qed.


Lemma frame_refl σ : wf σ -> frame σ σ.
Proof. by split. Qed.

Lemma frame_trans σ1 σ2 σ3 : frame σ1 σ2 -> frame σ2 σ3 -> frame σ1 σ3.
Proof.
  intros [? ? ? ? Hc1 Hd1 ? ? ? ? ?] [? ? ? ? Hc2 Hd2 ? ? ? ? ?].
  split; try congruence.
  intros url c Hc. rewrite (Hd2 url c), (Hd1 url c); [done..|].
  by rewrite Hc1.
Qed.

Section WithHost.
Variable host : Host.

Lemma onSortChange_frame by_ σ : wf σ -> frame σ (onSortChange host by_ σ).
Proof.
  intros Hwf. unfold onSortChange. rewrite render_eq.
  destruct (JS.truthy by_); cbn.
  - pose proof (wf_write (JS.sort (compare host by_) (view σ)) σ Hwf) as Hw.
    pose proof (all_items_write (JS.sort (compare host by_) (view σ)) σ Hwf) as Ha.
    split; try done.
    + eapply wf_same; [..|exact Hw]; done.
    + intros url c Hc. destruct (wf_cache _ Hwf _ _ Hc) as [_ Hd].
      unfold read. cbn. by apply lookup_total_insert_ne.
  - split; try done. eapply wf_same; [..|exact Hwf]; done.
Qed.

Lemma onSortChange_view by_ σ :
  view (onSortChange host by_ σ) = apply_sort host by_ (view σ).
Proof.
  unfold onSortChange, apply_sort. rewrite render_eq.
  destruct (JS.truthy by_); cbn; [|done].
  unfold view, read. cbn. apply lookup_total_insert_eq.
Qed.

(** For the two numeric keys the comparator never puts each of two
    entries after the other, so the handler leaves [filteredItems] in
    descending order of the key. *)
Lemma compare_numeric_asym by_ :
  by_ = "date" ∨ by_ = "reading_time" ->
  ∀ a b, JS.after (compare host by_) a b = true ->
         JS.after (compare host by_) b a = false.
Proof.
  intros [-> | ->] a b; unfold JS.after, compare; cbn.
  - destruct (date_value host (published_date a)),
      (date_value host (published_date b)); cbn; try done.
    intros H%Z.ltb_lt. apply Z.ltb_ge. lia.
  - destruct (JS.parseInt (reading_time a)), (JS.parseInt (reading_time b));
      cbn; try done.
    intros H%Z.ltb_lt. apply Z.ltb_ge. lia.
Qed.

Lemma onSortChange_sorted by_ σ :
  by_ = "date" ∨ by_ = "reading_time" ->
  Sorted (λ a b, JS.after (compare host by_) a b = false)
    (view (onSortChange host by_ σ)).
Proof.
  intros Hby. rewrite onSortChange_view. unfold apply_sort.
  assert (JS.truthy by_ = true) as -> by (by destruct Hby as [-> | ->]).
  by apply sort_Sorted, compare_numeric_asym.
Qed.

Lemma onSortChange_fields by_ σ :
  let σ' := onSortChange host by_ σ in
  currentSort (this σ') = by_ ∧
  currentFilter (this σ') = currentFilter (this σ) ∧
  currentSearch (this σ') = currentSearch (this σ) ∧
  page (this σ') = 1.
Proof.
  unfold onSortChange. rewrite render_eq. destruct (JS.truthy by_); done.
Qed.



Lemma sees_init σ :
  wf σ ->
  sees σ σ (view σ) (currentFilter (this σ)) (currentSearch (this σ))
    (currentSort (this σ)).
Proof. intros. split; [by apply frame_refl | by repeat split]. Qed.

Lemma frame_same σ0 σ σ' :
  heap σ' = heap σ -> log σ' = log σ -> clock σ' = clock σ ->
  network σ' = network σ ->
  items (this σ') = items (this σ) ->
  filteredItems (this σ') = filteredItems (this σ) ->
  cache (this σ') = cache (this σ) ->
  perPage (this σ') = perPage (this σ) ->
  cacheExpiry (this σ') = cacheExpiry (this σ) ->
  apiUrl (this σ') = apiUrl (this σ) ->
  frame σ0 σ -> frame σ0 σ'.
Proof.
  intros Hh Hl Hk Hn Hi Hf Hc Hp He Hu [? ? ? ? ? Hd ? ? ? ? ?].
  split; try congruence.
  - by eapply wf_same.
  - unfold all_items, read in *. congruence.
  - intros url c Hc'. rewrite <- (Hd _ _ Hc'). unfold read. congruence.
Qed.

Lemma sees_set_currentFilter f' σ0 σ v f q s :
  sees σ0 σ v f q s -> sees σ0 (set_currentFilter f' σ) v f' q s.
Proof.
  intros (Hfr & ? & ? & ? & ?). split; [|by repeat split].
  eapply frame_same; [..|exact Hfr]; done.
Qed.

Lemma sees_set_currentSearch q' σ0 σ v f q s :
  sees σ0 σ v f q s -> sees σ0 (set_currentSearch q' σ) v f q' s.
Proof.
  intros (Hfr & ? & ? & ? & ?). split; [|by repeat split].
  eapply frame_same; [..|exact Hfr]; done.
Qed.

Lemma sees_set_page p σ0 σ v f q s :
  sees σ0 σ v f q s -> sees σ0 (set_page p σ) v f q s.
Proof.
  intros (Hfr & ? & ? & ? & ?). split; [|by repeat split].
  eapply frame_same; [..|exact Hfr]; done.
Qed.

Lemma sees_render σ0 σ v f q s :
  sees σ0 σ v f q s -> sees σ0 (render host σ) v f q s.
Proof.
  intros (Hfr & ? & ? & ? & ?). rewrite render_eq. split; [|by repeat split].
  eapply frame_same; [..|exact Hfr]; done.
Qed.

Lemma sees_assign a σ0 σ v f q s :
  sees σ0 σ v f q s -> sees σ0 (assign_filteredItems a σ) a f q s.
Proof.
  intros (Hfr & ? & ? & ? & ?). split; [|split; [apply view_assign|done]].
  eapply frame_trans; [exact Hfr|]. apply assign_frame, Hfr.
Qed.

Lemma sees_onSortChange by_ σ0 σ v f q s :
  sees σ0 σ v f q s ->
  sees σ0 (onSortChange host by_ σ) (apply_sort host by_ v) f q by_.
Proof.
  intros (Hfr & <- & <- & <- & _).
  pose proof (onSortChange_fields by_ σ) as (? & ? & ? & _).
  split; [|split; [apply onSortChange_view|done]].
  eapply frame_trans; [exact Hfr|]. apply onSortChange_frame, Hfr.
Qed.

Lemma sees_all_items σ0 σ v f q s :
  sees σ0 σ v f q s -> all_items σ = all_items σ0.
Proof. intros (Hfr & _). apply Hfr. Qed.

Lemma sees_view σ0 σ v f q s : sees σ0 σ v f q s -> view σ = v.
Proof. by intros (_ & ? & _). Qed.

Lemma sees_filter σ0 σ v f q s :
  sees σ0 σ v f q s -> currentFilter (this σ) = f.
Proof. by intros (_ & _ & ? & _). Qed.

Lemma sees_search σ0 σ v f q s :
  sees σ0 σ v f q s -> currentSearch (this σ) = q.
Proof. by intros (_ & _ & _ & ? & _). Qed.

Lemma sees_sort σ0 σ v f q s :
  sees σ0 σ v f q s -> currentSort (this σ) = s.
Proof. by intros (_ & _ & _ & _ & ?). Qed.

(** Name the state bound by the outermost [let] of a method body. *)
Ltac bind_state σ' :=
  lazymatch goal with
  | |- sees ?s0 (let x := ?e in @?b x) ?v ?f ?q ?s =>
      set (σ' := e); change (sees s0 (b σ') v f q s); cbv beta
  end.

Lemma onFilterChange_sees val σ :
  wf σ ->
  sees σ (onFilterChange host val σ)
    (pipeline host val (currentSearch (this σ)) (currentSort (this σ))
       (all_items σ))
    val (currentSearch (this σ)) (currentSort (this σ)).
Proof.
  intros Hwf. cbv beta delta [onFilterChange pipeline].
  bind_state σ1.
  assert (H1 : sees σ σ1 (view σ) val (currentSearch (this σ))
                 (currentSort (this σ)))
    by (subst σ1; eapply sees_set_currentFilter, sees_init, Hwf).
  clearbody σ1.
  bind_state σ2.
  assert (H2 : sees σ σ2 (apply_filter val (all_items σ)) val
                 (currentSearch (this σ)) (currentSort (this σ))).
  { subst σ2. unfold apply_filter.
    change (read (items (this σ1)) σ1) with (all_items σ1).
    rewrite (sees_all_items _ _ _ _ _ _ H1).
    destruct (JS.truthy val); eapply sees_assign, H1. }
  clearbody σ2. clear σ1 H1.
  bind_state σ3.
  assert (H3 : sees σ σ3
                 (apply_search (currentSearch (this σ))
                    (apply_filter val (all_items σ)))
                 val (currentSearch (this σ)) (currentSort (this σ))).
  { subst σ3. unfold apply_search.
    change (read (filteredItems (this σ2)) σ2) with (view σ2).
    rewrite (sees_search _ _ _ _ _ _ H2), (sees_view _ _ _ _ _ _ H2).
    destruct (JS.truthy (currentSearch (this σ)));
      [eapply sees_assign|]; exact H2. }
  clearbody σ3. clear σ2 H2.
  bind_state σ4.
  assert (H4 : sees σ σ4
                 (apply_sort host (currentSort (this σ))
                    (apply_search (currentSearch (this σ))
                       (apply_filter val (all_items σ))))
                 val (currentSearch (this σ)) (currentSort (this σ))).
  { subst σ4. rewrite (sees_sort _ _ _ _ _ _ H3).
    pose proof (sees_onSortChange (currentSort (this σ)) _ _ _ _ _ _ H3) as H.
    unfold apply_sort in *.
    destruct (JS.truthy (currentSort (this σ))); [exact H | exact H3]. }
  clearbody σ4. clear σ3 H3.
  bind_state σ5.
  apply sees_render. subst σ5. by apply sees_set_page.
Qed.


Lemma sees_onFilterChange val σ0 σ v f q s :
  sees σ0 σ v f q s ->
  sees σ0 (onFilterChange host val σ) (pipeline host val q s (all_items σ0))
    val q s.
Proof.
  intros H. pose proof H as (Hfr & _ & _ & <- & <-).
  rewrite <- (sees_all_items _ _ _ _ _ _ H).
  destruct (onFilterChange_sees val σ (fr_wf _ _ Hfr)) as (Hfr' & ?).
  split; [|done]. by eapply frame_trans.
Qed.


Lemma searched_query f q s l :
  JS.truthy q = true ->
  searched host f q s l =
  apply_sort host s (apply_filter f (List.filter (title_has q) l)).
Proof.
  intros Hq. unfold searched, pipeline, apply_search, apply_filter.
  rewrite Hq. simpl. destruct (JS.truthy f); [|done].
  by rewrite filter_comm.
Qed.

Lemma searched_no_query f q s l :
  JS.truthy q = false ->
  searched host f q s l = if JS.truthy f then pipeline host f q s l else l.
Proof. intros Hq. unfold searched. by rewrite Hq. Qed.

Lemma onSearchInput_sees value σ :
  wf σ ->
  sees σ (onSearchInput host value σ)
    (searched host (currentFilter (this σ)) (JS.toLowerCase value)
       (currentSort (this σ)) (all_items σ))
    (currentFilter (this σ)) (JS.toLowerCase value) (currentSort (this σ)).
Proof.
  intros Hwf. cbv beta delta [onSearchInput].
  lazymatch goal with
  | |- sees ?s0 (let x := ?e in @?b x) ?v ?f ?q ?s =>
      change (sees s0 (b e) v f q s); cbv beta
  end.
  generalize (JS.toLowerCase value). intros q.
  bind_state σ1.
  assert (H1 : sees σ σ1 (view σ) (currentFilter (this σ)) q
                 (currentSort (this σ)))
    by (subst σ1; eapply sees_set_currentSearch, sees_init, Hwf).
  clearbody σ1.
  bind_state σ2.
  assert (H2 : sees σ σ2
                 (searched host (currentFilter (this σ)) q (currentSort (this σ))
                    (all_items σ))
                 (currentFilter (this σ)) q (currentSort (this σ))).
  { subst σ2. destruct (JS.truthy q) eqn:Hq.
    - rewrite (searched_query _ _ _ _ Hq). cbv iota.
      bind_state σa.
      assert (H2 : sees σ σa (List.filter (title_has q) (all_items σ))
                     (currentFilter (this σ)) q (currentSort (this σ))).
      { subst σa. change (read (items (this σ1)) σ1) with (all_items σ1).
        rewrite (sees_all_items _ _ _ _ _ _ H1). eapply sees_assign, H1. }
      clearbody σa. clear σ1 H1.
      bind_state σb.
      assert (H3 : sees σ σb
                     (apply_filter (currentFilter (this σ))
                        (List.filter (title_has q) (all_items σ)))
                     (currentFilter (this σ)) q (currentSort (this σ))).
      { subst σb. unfold apply_filter.
        change (read (filteredItems (this σa)) σa) with (view σa).
        rewrite (sees_filter _ _ _ _ _ _ H2), (sees_view _ _ _ _ _ _ H2).
        destruct (JS.truthy (currentFilter (this σ)));
          [eapply sees_assign|]; exact H2. }
      clearbody σb. clear σa H2.
      rewrite (sees_sort _ _ _ _ _ _ H3).
      pose proof (sees_onSortChange (currentSort (this σ)) _ _ _ _ _ _ H3) as H.
      unfold apply_sort in *.
      destruct (JS.truthy (currentSort (this σ))); [exact H | exact H3].
    - rewrite (searched_no_query _ _ _ _ Hq). cbv iota.
      bind_state σa.
      assert (H2 : sees σ σa (all_items σ)
                     (currentFilter (this σ)) q (currentSort (this σ))).
      { subst σa. change (read (items (this σ1)) σ1) with (all_items σ1).
        rewrite (sees_all_items _ _ _ _ _ _ H1). eapply sees_assign, H1. }
      clearbody σa. clear σ1 H1.
      rewrite (sees_filter _ _ _ _ _ _ H2).
      destruct (JS.truthy (currentFilter (this σ))); [|exact H2].
      eapply sees_onFilterChange, H2. }
  clearbody σ2. clear σ1 H1.
  bind_state σ3.
  apply sees_render. subst σ3. by apply sees_set_page.
Qed.


(** *** Sequences of actions *)

Lemma run_snoc acts a σ :
  run host (acts ++ [a]) σ = handle host a (run host acts σ).
Proof. unfold run. by rewrite fold_left_app. Qed.




Lemma apply_sort_perm s l : Permutation (apply_sort host s l) l.
Proof. unfold apply_sort. destruct (JS.truthy s); [apply sort_perm|done]. Qed.




End WithHost.

(** *** Fetching *)


Lemma attempt_failed σ :
  failed (outcome (network σ (requests σ))) = true ->
  attempt σ =
  (inl (mkError (error_text (outcome (network σ (requests σ))))), answered σ).
Proof.
  unfold attempt, answered, fetch. cbn.
  destruct (outcome _) as [msg|[] status [msg|entries|]]; cbn; done.
Qed.

Lemma attempt_succeeded σ status entries :
  outcome (network σ (requests σ)) = Response true status (JSONArray entries) ->
  attempt σ = (inr tt, stored entries σ).
Proof.
  unfold attempt, stored, answered, fetch. cbn. intros ->. cbn.
  unfold read. cbn. by rewrite lookup_total_insert_eq.
Qed.

Lemma requests_answered σ : requests (answered σ) = S (requests σ).
Proof.
  unfold requests, answered. cbn. rewrite List.filter_app, length_app. cbn. lia.
Qed.

Lemma requests_sleep ms σ : requests (sleep ms σ) = requests σ.
Proof.
  unfold requests, sleep. cbn. rewrite List.filter_app, length_app. cbn. lia.
Qed.

Lemma requests_stored entries σ : requests (stored entries σ) = S (requests σ).
Proof. unfold stored. cbn. apply requests_answered. Qed.

Lemma all_items_stored entries σ : all_items (stored entries σ) = entries.
Proof.
  unfold all_items, stored, read. cbn.
  rewrite lookup_total_insert_ne; [apply lookup_total_insert_eq|].
  intros E.
  pose proof (is_fresh (dom (<[fresh (dom (heap σ)) := entries]> (heap σ)))) as Hf.
  rewrite E in Hf. apply Hf. rewrite dom_insert_L. set_solver.
Qed.

Lemma view_stored entries σ : view (stored entries σ) = entries.
Proof. unfold stored. cbv zeta. apply view_assign. Qed.


Lemma reply_cases (r : Reply) :
  failed r = true ∨ ∃ status entries, r = Response true status (JSONArray entries).
Proof. destruct r as [msg|[] status [msg|entries|]]; cbn; eauto. Qed.


Lemma requests_second_try σ : requests (second_try σ) = S (requests σ).
Proof. unfold second_try. by rewrite requests_sleep, requests_answered. Qed.

Lemma requests_third_try σ : requests (third_try σ) = S (S (requests σ)).
Proof.
  unfold third_try.
  by rewrite requests_sleep, requests_answered, requests_second_try.
Qed.

Lemma retry_loop_two_failures σ :
  failed (outcome (network σ (requests σ))) = true ->
  failed (outcome (network σ (S (requests σ)))) = true ->
  retry_loop 3 None σ =
  retry_loop 1
    (Some (mkError (error_text (outcome (network σ (S (requests σ)))))))
    (third_try σ).
Proof.
  intros H1 H2.
  change (retry_loop 3 None σ) with
    (match attempt σ with
     | (inr tt, σ) => (inr tt, σ)
     | (inl error, σ) => retry_loop 2 (Some error) (sleep 1000 σ)
     end).
  rewrite (attempt_failed σ H1).
  change (retry_loop 2 ?e ?s) with
    (match attempt s with
     | (inr tt, σ) => (inr tt, σ)
     | (inl error, σ) => retry_loop 1 (Some error) (sleep 2000 σ)
     end).
  fold (second_try σ).
  rewrite (attempt_failed (second_try σ)).
  - by rewrite requests_second_try.
  - by rewrite requests_second_try.
Qed.


Lemma retry_loop_last_succeeds e σ status entries :
  outcome (network σ (requests σ)) = Response true status (JSONArray entries) ->
  retry_loop 1 e σ = (inr tt, stored entries σ).
Proof. intros H. cbn [retry_loop]. by rewrite (attempt_succeeded _ _ _ H). Qed.

Lemma retry_loop_last_fails e σ :
  failed (outcome (network σ (requests σ))) = true ->
  retry_loop 1 e σ =
  (inl (Some (mkError (error_text (outcome (network σ (requests σ)))))),
   answered σ).
Proof. intros H. cbn [retry_loop]. by rewrite (attempt_failed _ H). Qed.

Lemma fetchData_third_attempt σ status entries :
  cached σ = None ->
  failed (outcome (network σ (requests σ))) = true ->
  failed (outcome (network σ (S (requests σ)))) = true ->
  outcome (network σ (S (S (requests σ)))) =
    Response true status (JSONArray entries) ->
  fetchData σ = (Returned, stored entries (third_try σ)).
Proof.
  intros Hc H1 H2 H3. unfold fetchData. rewrite Hc.
  rewrite (retry_loop_two_failures σ H1 H2).
  erewrite retry_loop_last_succeeds; [done|].
  rewrite requests_third_try. exact H3.
Qed.

Lemma fetchData_exhausted σ :
  cached σ = None ->
  failed (outcome (network σ (requests σ))) = true ->
  failed (outcome (network σ (S (requests σ)))) = true ->
  failed (outcome (network σ (S (S (requests σ))))) = true ->
  fetchData σ =
  (Thrown (mkError ("Failed to fetch blogs: " +:+
                    error_text (outcome (network σ (S (S (requests σ))))))),
   answered (third_try σ)).
Proof.
  intros Hc H1 H2 H3. unfold fetchData. rewrite Hc.
  rewrite (retry_loop_two_failures σ H1 H2).
  rewrite retry_loop_last_fails; rewrite requests_third_try; done.
Qed.

Lemma log_third_try σ :
  log (third_try σ) =
  (log σ ++ [Fetch (apiUrl (this σ)); Timeout 1000;
             Fetch (apiUrl (this σ)); Timeout 2000])%list.
Proof. cbn. by rewrite <- !app_assoc. Qed.

Lemma log_stored entries σ :
  log (stored entries σ) = (log σ ++ [Fetch (apiUrl (this σ))])%list.
Proof. done. Qed.

(** No call of [fetchData] issues more than three requests. *)
Lemma retry_loop_requests n e σ :
  (requests (retry_loop n e σ).2 <= requests σ + n)%nat.
Proof.
  revert e σ. induction n as [|n IH]; intros e σ; cbn [retry_loop].
  - cbn. lia.
  - destruct (reply_cases (outcome (network σ (requests σ))))
      as [Hf|(status & entries & Hs)].
    + rewrite (attempt_failed _ Hf).
      etransitivity; [apply IH|].
      destruct (0 <? n)%nat; rewrite ?requests_sleep, requests_answered; lia.
    + rewrite (attempt_succeeded _ _ _ Hs). cbn [snd].
      rewrite requests_stored. lia.
Qed.

Lemma fetchData_requests σ :
  (requests (fetchData σ).2 <= requests σ + 3)%nat.
Proof.
  unfold fetchData. destruct (cached σ).
  - cbn. unfold requests. cbn. lia.
  - pose proof (retry_loop_requests 3 None σ) as H.
    destruct (retry_loop 3 None σ) as [[?|[]] ?]; exact H.
Qed.


(** *** Well-formedness along the controller's life *)

Lemma wf_new c h t net : wf (new c h t net).
Proof.
  split; cbn.
  - rewrite !dom_insert_L. set_solver.
  - rewrite !dom_insert_L. set_solver.
  - intros E.
    pose proof (is_fresh (dom (<[fresh (dom h) := []]> h))) as Hf.
    rewrite <- E in Hf. apply Hf. rewrite dom_insert_L. set_solver.
  - intros url c0 Hc. by rewrite lookup_empty in Hc.
Qed.

Lemma wf_answered σ : wf σ -> wf (answered σ).
Proof. apply wf_same; done. Qed.

Lemma wf_sleep ms σ : wf σ -> wf (sleep ms σ).
Proof. apply wf_same; done. Qed.

Lemma wf_tick d σ : wf σ -> wf (tick d σ).
Proof. apply wf_same; done. Qed.

Lemma wf_stored entries σ : wf σ -> wf (stored entries σ).
Proof.
  intros [Hi Hf Hd Hc]. unfold stored. cbv zeta. apply wf_assign.
  split; cbn.
  - rewrite dom_insert_L. set_solver.
  - rewrite dom_insert_L. set_solver.
  - intros E. rewrite <- E in Hf. by apply is_fresh in Hf.
  - intros url c. rewrite lookup_insert. case_decide.
    + intros [= <-]. cbn. split.
      * rewrite dom_insert_L. set_solver.
      * intros E. rewrite <- E in Hf. by apply is_fresh in Hf.
    + intros Hc'. destruct (Hc _ _ Hc') as [H1 H2]. split; [|done].
      rewrite dom_insert_L. set_solver.
Qed.

Lemma wf_retry_loop n e σ : wf σ -> wf (retry_loop n e σ).2.
Proof.
  revert e σ. induction n as [|n IH]; intros e σ Hwf; cbn [retry_loop]; [done|].
  destruct (reply_cases (outcome (network σ (requests σ))))
    as [Hf|(status & entries & Hs)].
  - rewrite (attempt_failed _ Hf). apply IH.
    destruct (0 <? n)%nat; [apply wf_sleep|]; by apply wf_answered.
  - rewrite (attempt_succeeded _ _ _ Hs). by apply wf_stored.
Qed.

Lemma cached_Some σ c :
  cached σ = Some c ->
  cache (this σ) !! apiUrl (this σ) = Some c ∧
  clock σ - timestamp c < cacheExpiry (this σ).
Proof.
  unfold cached, Date_now. destruct (cache (this σ) !! apiUrl (this σ)) as [c'|]; [|done].
  destruct (Z.ltb_spec (clock σ - timestamp c') (cacheExpiry (this σ))); [|done].
  by intros [= <-].
Qed.

Lemma wf_fetchData σ : wf σ -> wf (fetchData σ).2.
Proof.
  intros Hwf. unfold fetchData. destruct (cached σ) as [c|] eqn:Hc.
  - apply cached_Some in Hc as [Hc _]. cbn [snd]. apply wf_assign.
    destruct (wf_cache _ Hwf _ _ Hc) as [H1 H2]. destruct Hwf as [Hi Hf Hd Hcc].
    split; cbn; try done.
  - pose proof (wf_retry_loop 3 None σ Hwf) as H.
    destruct (retry_loop 3 None σ) as [[?|[]] ?]; exact H.
Qed.

Section Life.
Variable host : Host.

Lemma wf_render σ : wf σ -> wf (render host σ).
Proof. rewrite render_eq. apply wf_same; done. Qed.

Lemma wf_showError err σ : wf σ -> wf (showError err σ).
Proof.
  unfold showError. destruct (errorContainer (this σ)); [|done].
  apply wf_same; done.
Qed.

Lemma wf_init σ : wf σ -> wf (init host σ).
Proof.
  intros Hwf. unfold init.
  assert (H0 : wf (showLoading σ)) by (revert Hwf; apply wf_same; done).
  pose proof (wf_fetchData _ H0) as H1.
  destruct (fetchData (showLoading σ)) as [[|err] σ1]; cbn [snd] in H1.
  - eapply wf_same; [..|apply wf_render; eapply wf_same; [..|exact H1]]; done.
  - eapply wf_same; [..|apply wf_showError; exact H1]; done.
Qed.

Lemma wf_handle a σ : wf σ -> wf (handle host a σ).
Proof.
  intros Hwf. destruct a as [v|v|v]; cbn [handle].
  - by destruct (onFilterChange_sees host v σ Hwf) as [[] _].
  - by destruct (onSearchInput_sees host v σ Hwf) as [[] _].
  - by destruct (onSortChange_frame host v σ Hwf).
Qed.

Lemma reachable_wf σ : reachable host σ -> wf σ.
Proof.
  induction 1; auto using wf_new, wf_init, wf_fetchData, wf_render, wf_handle,
    wf_tick.
Qed.

End Life.



Lemma settings_retry_loop n e σ : settings (retry_loop n e σ).2 = settings σ.
Proof.
  revert e σ. induction n as [|n IH]; intros e σ; cbn [retry_loop]; [done|].
  destruct (reply_cases (outcome (network σ (requests σ))))
    as [Hf|(status & entries & Hs)].
  - rewrite (attempt_failed _ Hf). rewrite IH. by destruct (0 <? n)%nat.
  - by rewrite (attempt_succeeded _ _ _ Hs).
Qed.

Lemma settings_fetchData σ : settings (fetchData σ).2 = settings σ.
Proof.
  unfold fetchData. destruct (cached σ); [done|].
  pose proof (settings_retry_loop 3 None σ) as H.
  destruct (retry_loop 3 None σ) as [[?|[]] ?]; exact H.
Qed.

(** The cache after a successful attempt, and what a returning retry
    loop went through. *)
Lemma cache_stored entries σ :
  cache (this (stored entries σ)) !! apiUrl (this σ) =
  Some (mkCacheEntry (items (this (stored entries σ)))
          (clock (stored entries σ))).
Proof. cbn. apply lookup_insert_eq. Qed.

Lemma items_stored_new entries σ :
  items (this (stored entries σ)) ∉ dom (heap σ).
Proof. cbn. apply is_fresh. Qed.

Lemma log_retry_loop n e σ :
  ∃ rest, log (retry_loop n e σ).2 = (log σ ++ rest)%list.
Proof.
  revert e σ. induction n as [|n IH]; intros e σ; cbn [retry_loop].
  - exists []. cbn. by rewrite app_nil_r.
  - destruct (reply_cases (outcome (network σ (requests σ))))
      as [Hf|(status & entries & Hs)].
    + rewrite (attempt_failed _ Hf).
      destruct (IH (Some (mkError (error_text (outcome (network σ (requests σ))))))
                  (if (0 <? n)%nat
                   then sleep (1000 * (3 - Z.of_nat n)) (answered σ)
                   else answered σ)) as [rest Hr].
      rewrite Hr. destruct (0 <? n)%nat; cbn; rewrite <- !app_assoc; eauto.
    + rewrite (attempt_succeeded _ _ _ Hs). cbn. eauto.
Qed.

Lemma log_retry_loop_first n e σ :
  ∃ rest,
    log (retry_loop (S n) e σ).2 =
    (log σ ++ Fetch (apiUrl (this σ)) :: rest)%list.
Proof.
  cbn [retry_loop].
  destruct (reply_cases (outcome (network σ (requests σ))))
    as [Hf|(status & entries & Hs)].
  - rewrite (attempt_failed _ Hf).
    destruct (log_retry_loop n
                (Some (mkError (error_text (outcome (network σ (requests σ))))))
                (if (0 <? n)%nat
                 then sleep (1000 * (3 - Z.of_nat n)) (answered σ)
                 else answered σ)) as [rest Hr].
    rewrite Hr. destruct (0 <? n)%nat; cbn; rewrite <- !app_assoc; cbn; eauto.
  - rewrite (attempt_succeeded _ _ _ Hs). cbn. eauto.
Qed.

Lemma retry_loop_returned n e σ σ' :
  retry_loop n e σ = (inr tt, σ') ->
  ∃ k status,
    (k < n)%nat ∧
    outcome (network σ (requests σ + k)) =
      Response true status (JSONArray (all_items σ')) ∧
    cache (this σ') !! apiUrl (this σ) =
      Some (mkCacheEntry (items (this σ')) (clock σ')) ∧
    (items (this σ') ∉ dom (heap σ)) ∧
    view σ' = all_items σ'.
Proof.
  revert e σ. induction n as [|n IH]; intros e σ; cbn [retry_loop]; [done|].
  destruct (reply_cases (outcome (network σ (requests σ))))
    as [Hf|(status & entries & Hs)].
  - rewrite (attempt_failed _ Hf). intros H.
    apply IH in H as (k & status & Hk & Ho & Hc & Hd & Hv).
    exists (S k), status. split; [lia|].
    assert (Hreq : requests (if (0 <? n)%nat
                             then sleep (1000 * (3 - Z.of_nat n)) (answered σ)
                             else answered σ) = S (requests σ)).
    { destruct (0 <? n)%nat; rewrite ?requests_sleep; apply requests_answered. }
    rewrite Hreq in Ho.
    replace (requests σ + S k)%nat with (S (requests σ) + k)%nat by lia.
    destruct (0 <? n)%nat; cbn in *; done.
  - rewrite (attempt_succeeded _ _ _ Hs). intros [= <-].
    exists 0%nat, status. split; [lia|].
    rewrite Nat.add_0_r, all_items_stored, view_stored.
    split; [done|]. split; [apply cache_stored|].
    split; [apply items_stored_new|done].
Qed.

(** A retry loop that falls through has stored nothing. *)
Lemma retry_loop_thrown n e σ thrown σ' :
  retry_loop n e σ = (inl thrown, σ') ->
  this σ' = this σ ∧ heap σ' = heap σ.
Proof.
  revert e σ. induction n as [|n IH]; intros e σ; cbn [retry_loop].
  - by intros [= _ <-].
  - destruct (reply_cases (outcome (network σ (requests σ))))
      as [Hf|(status & entries & Hs)].
    + rewrite (attempt_failed _ Hf). intros H. apply IH in H as [H1 H2].
      rewrite H1, H2. by destruct (0 <? n)%nat.
    + by rewrite (attempt_succeeded _ _ _ Hs).
Qed.

Section Specification.
Variable host : Host.

Lemma page_render σ : page (this (render host σ)) = page (this σ).
Proof. by rewrite render_eq. Qed.

Lemma page_handle (a : Action) (σ : State) :
  page (this (handle host a σ)) = 1.
Proof.
  destruct a as [v|v|v]; cbn [handle].
  - unfold onFilterChange. by rewrite page_render.
  - unfold onSearchInput. by rewrite page_render.
  - unfold onSortChange. by rewrite page_render.
Qed.

(** C3. After the filter-change, the search-change or the sort-change
    handler has run, from any state, the pagination cursor [page] is 1. *)
Theorem page_reset_by_every_handler (a : Action) (σ : State) :
  page (this (handle host a σ)) = 1.
Proof.
  destruct a as [v|v|v]; cbn [handle].
  - unfold onFilterChange. rewrite page_render. reflexivity.
  - unfold onSearchInput. rewrite page_render. reflexivity.
  - unfold onSortChange. rewrite page_render. reflexivity.
Qed.


Lemma slice0_take {A} (l : list A) (e : Z) :
  0 <= e ->
  JS.slice0 l e = take (Z.to_nat (Z.min e (Z.of_nat (length l)))) l.
Proof.
  intros He. unfold JS.slice0.
  destruct (Z.ltb_spec e 0); [lia|done].
Qed.

(** C4. In a state whose window [page * perPage] is not negative,
    [render] displays exactly the first [min (page * perPage) (length
    filteredItems)] entries of [filteredItems], never more than [page *
    perPage], and shows the no-results notice when that slice is empty. *)
Theorem render_shows_window (σ : State) :
  0 <= page (this σ) * perPage (this σ) ->
  let n :=
    Z.to_nat (Z.min (page (this σ) * perPage (this σ))
                    (Z.of_nat (length (view σ)))) in
  let shown := listContainer (this (render host σ)) in
  displayed shown = map (article host) (take n (view σ)) ∧
  Z.of_nat (length (displayed shown)) <= page (this σ) * perPage (this σ) ∧
  (take n (view σ) = [] -> shown = NoResults) ∧
  (take n (view σ) ≠ [] -> shown = Articles (map (article host) (take n (view σ)))) ∧
  view (render host σ) = view σ.
Proof.
  intros Hw n shown. subst shown. rewrite render_eq. cbn.
  rewrite (slice0_take _ _ Hw). fold n.
  assert (Hn : Z.of_nat (length (take n (view σ))) <= page (this σ) * perPage (this σ)).
  { rewrite length_take. subst n. lia. }
  destruct (take n (view σ)) as [|x r] eqn:E; cbn in *.
  - split; [done|]. split; [done|]. split; [done|]. split; [|done].
    by intros [].
  - split; [done|]. split; [by rewrite length_map|].
    split; [done|]. split; done.
Qed.

(** C10. In a well-formed state the sort-change handler only reorders
    [filteredItems]: the entries it holds are the same, counted with
    multiplicity, and the [items] array, [currentFilter] and
    [currentSearch] are as before. *)
Theorem sort_change_only_reorders (by_ : string) (σ : State) :
  wf σ ->
  let σ' := onSortChange host by_ σ in
  Permutation (view σ') (view σ) ∧
  items (this σ') = items (this σ) ∧
  all_items σ' = all_items σ ∧
  currentFilter (this σ') = currentFilter (this σ) ∧
  currentSearch (this σ') = currentSearch (this σ).
Proof.
  intros Hwf σ'. subst σ'.
  destruct (onSortChange_frame host by_ σ Hwf) as [_ Hi Ha _ _ _ _ _ _ _ _].
  destruct (onSortChange_fields host by_ σ) as (_ & Hf & Hq & _).
  rewrite onSortChange_view. split; [apply apply_sort_perm|done].
Qed.



Lemma searched_pipeline f q s l :
  JS.truthy q || JS.truthy f = true ->
  searched host f q s l = pipeline host f q s l.
Proof. unfold searched. by intros ->. Qed.




(** C5. [fetchData] never issues more than three requests.  When the URL
    has no usable cache entry, the first two attempts fail and the third
    delivers an array, it returns with that array in [items] and in
    [filteredItems], after exactly two waits, of 1000ms and then 2000ms,
    between the three requests. *)
Theorem fetch_retries_with_backoff :
  (∀ σ, (requests (fetchData σ).2 <= requests σ + 3)%nat) ∧
  (∀ σ status entries,
     cached σ = None ->
     failed (outcome (network σ (requests σ))) = true ->
     failed (outcome (network σ (S (requests σ)))) = true ->
     outcome (network σ (S (S (requests σ)))) =
       Response true status (JSONArray entries) ->
     let url := apiUrl (this σ) in
     let σ' := (fetchData σ).2 in
     (fetchData σ).1 = Returned ∧
     all_items σ' = entries ∧ view σ' = entries ∧
     log σ' = (log σ ++ [Fetch url; Timeout 1000; Fetch url; Timeout 2000;
                         Fetch url])%list ∧
     delays σ' = (delays σ ++ [Timeout 1000; Timeout 2000])%list).
Proof.
  split; [apply fetchData_requests|].
  intros σ status entries Hc H1 H2 H3 url σ'. subst url σ'.
  rewrite (fetchData_third_attempt σ status entries Hc H1 H2 H3). cbn [fst snd].
  rewrite all_items_stored, view_stored.
  assert (Hlog : log (stored entries (third_try σ)) =
                 (log σ ++ [Fetch (apiUrl (this σ)); Timeout 1000;
                            Fetch (apiUrl (this σ)); Timeout 2000;
                            Fetch (apiUrl (this σ))])%list).
  { rewrite log_stored, log_third_try. by rewrite <- app_assoc. }
  repeat split; [done|].
  unfold delays. rewrite Hlog. by rewrite List.filter_app.
Qed.

(** C6, as the code has it.  With a cache entry for the URL stamped [t]:
    a [fetchData] call at a time less than [cacheExpiry] after [t]
    returns the cached array and issues no request; a call at
    [cacheExpiry] or more after [t] issues a request.  When that call
    returns, one of its at most three requests delivered the array now in
    [items], and the cache entry holds that new array stamped with the
    time of storing; when it throws, the cache, the old entry in it and
    the arrays are as they were. *)
Theorem cache_window (σ : State) (c : CacheEntry) :
  wf σ ->
  cache (this σ) !! apiUrl (this σ) = Some c ->
  let r := (fetchData σ).1 in
  let σ' := (fetchData σ).2 in
  (clock σ - timestamp c < cacheExpiry (this σ) ->
   r = Returned ∧ log σ' = log σ ∧ cache (this σ') = cache (this σ) ∧
   items (this σ') = data c ∧
   all_items σ' = read (data c) σ ∧ view σ' = read (data c) σ) ∧
  (cacheExpiry (this σ) <= clock σ - timestamp c ->
   (∃ rest, log σ' = (log σ ++ Fetch (apiUrl (this σ)) :: rest)%list) ∧
   (r = Returned ->
    ∃ k status,
      (k < 3)%nat ∧
      outcome (network σ (requests σ + k)) =
        Response true status (JSONArray (all_items σ')) ∧
      cache (this σ') !! apiUrl (this σ) =
        Some (mkCacheEntry (items (this σ')) (clock σ')) ∧
      (items (this σ') ∉ dom (heap σ)) ∧
      view σ' = all_items σ') ∧
   (∀ err, r = Thrown err ->
      cache (this σ') !! apiUrl (this σ) = Some c ∧
      this σ' = this σ ∧ heap σ' = heap σ)).
Proof.
  intros Hwf Hc r σ'. subst r σ'. unfold fetchData, cached, Date_now.
  rewrite Hc. split.
  - intros Hlt. destruct (Z.ltb_spec (clock σ - timestamp c) (cacheExpiry (this σ)));
      [|lia].
    cbn [fst snd]. rewrite view_assign.
    split; [done|]. split; [done|]. split; [done|]. split; [done|].
    split; [|done].
    destruct (wf_cache _ Hwf _ _ Hc) as [Hd _].
    unfold all_items, read. cbn. by apply read_fresh.
  - intros Hge. destruct (Z.ltb_spec (clock σ - timestamp c) (cacheExpiry (this σ)));
      [lia|].
    destruct (log_retry_loop_first 2 None σ) as [rest Hrest].
    destruct (retry_loop 3 None σ) as [[thrown|[]] σ'] eqn:E; cbn [fst snd] in *.
    + split; [eauto|]. split; [done|]. intros err _.
      destruct (retry_loop_thrown _ _ _ _ _ E) as [Ht Hh].
      rewrite Ht. by split.
    + split; [eauto|]. split; [|done]. intros _. by eapply retry_loop_returned.
Qed.

(** C7, as the code has it.  However [fetchData] ends, [init] leaves the
    loading indicator, when the container has one, with the class
    [hidden].  When no usable cache entry exists and all three attempts
    fail, whatever the kind of failure, [init] writes into the error
    container, when the container has one, the text of the last
    attempt's error behind the prefix [Error: Failed to fetch blogs: ]
    and reveals it; without an error container it shows no message. *)
Theorem init_reports_failure (σ : State) :
  (∀ c, loadingIndicator (this σ) = Some c ->
        ∃ c', loadingIndicator (this (init host σ)) = Some c' ∧ "hidden" ∈ c') ∧
  (cached σ = None ->
   failed (outcome (network σ (requests σ))) = true ->
   failed (outcome (network σ (S (requests σ)))) = true ->
   failed (outcome (network σ (S (S (requests σ))))) = true ->
   (∀ box, errorContainer (this σ) = Some box ->
      errorContainer (this (init host σ)) =
      Some (mkErrorBox (eb_classList box ∖ {["hidden"]})
              ("Error: Failed to fetch blogs: " +:+
               error_text (outcome (network σ (S (S (requests σ)))))))) ∧
   (errorContainer (this σ) = None ->
      errorContainer (this (init host σ)) = None)).
Proof.
  split.
  - intros c Hc. unfold init.
    pose proof (settings_fetchData (showLoading σ)) as Hs.
    destruct (fetchData (showLoading σ)) as [[|err] σ1]; cbn [snd] in Hs.
    + injection Hs as Hl _ _ _ _ _ _ _ _ _ _ _.
      rewrite render_eq. cbn. rewrite Hl. cbn. rewrite Hc. cbn.
      eexists. split; [done|]. set_solver.
    + injection Hs as Hl He _ _ _ _ _ _ _ _ _ _.
      unfold showError. destruct (errorContainer (this σ1)); cbn;
        rewrite Hl; cbn; rewrite Hc; cbn; eexists; (split; [done|]); set_solver.
  - intros Hc H1 H2 H3. unfold init.
    rewrite (fetchData_exhausted (showLoading σ) Hc H1 H2 H3).
    split.
    + intros box Hb. unfold showError. cbn. by rewrite Hb.
    + intros Hb. unfold showError. cbn. by rewrite Hb.
Qed.

End Specification.

(** *** The states the controller reaches *)

(** The pagination window and the cache expiry of every state the
    controller reaches are the ones set by the constructor. *)
Lemma reachable_constants host σ :
  reachable host σ ->
  page (this σ) = 1 ∧ perPage (this σ) = 10 ∧
  cacheExpiry (this σ) = 5 * 60 * 1000.
Proof.
  induction 1 as [c h t net|σ _ (IH1 & IH2 & IH3)|σ _ (IH1 & IH2 & IH3)
                 |σ _ (IH1 & IH2 & IH3)|a σ Hr (IH1 & IH2 & IH3)
                 |d σ _ (IH1 & IH2 & IH3)].
  - done.
  - unfold init.
    pose proof (settings_fetchData (showLoading σ)) as Hs.
    destruct (fetchData (showLoading σ)) as [[|err] σ1]; cbn [snd] in Hs;
      injection Hs as _ _ _ _ Hp Hpp _ _ _ He _ _.
    + rewrite render_eq. cbn. by rewrite Hp, Hpp, He.
    + unfold showError. destruct (errorContainer (this σ1)); cbn;
        by rewrite Hp, Hpp, He.
  - pose proof (settings_fetchData σ) as Hs.
    injection Hs as _ _ _ _ Hp Hpp _ _ _ He _ _. by rewrite Hp, Hpp, He.
  - by rewrite render_eq.
  - split; [apply page_handle|].
    pose proof (reachable_wf host σ Hr) as Hwf.
    assert (Hfr : frame σ (handle host a σ)).
    { destruct a as [v|v|v]; cbn [handle].
      - apply (onFilterChange_sees host v σ Hwf).
      - apply (onSearchInput_sees host v σ Hwf).
      - apply (onSortChange_frame host v σ Hwf). }
    by rewrite (fr_perPage _ _ Hfr), (fr_cacheExpiry _ _ Hfr).
  - done.
Qed.

(** So in every state the controller reaches, [render] shows the first
    ten entries of [filteredItems], or all of them when there are
    fewer. *)
Lemma reachable_render_window host σ :
  reachable host σ ->
  displayed (listContainer (this (render host σ))) =
  map (article host) (take (Nat.min 10 (length (view σ))) (view σ)).
Proof.
  intros (Hp & Hpp & _)%reachable_constants.
  rewrite render_eq. cbn. rewrite Hp, Hpp, slice0_take by lia.
  replace (Z.to_nat (Z.min (1 * 10) (Z.of_nat (length (view σ)))))
    with (Nat.min 10 (length (view σ))) by lia.
  by destruct (take _ _).
Qed.

(** A controller whose first request delivers [entries] comes out of
    [init] well formed, with [entries] in both arrays and no criterion
    set. *)
Lemma init_delivers host c h t net status entries :
  outcome (net 0%nat) = Response true status (JSONArray entries) ->
  let σ := init host (new c h t net) in
  wf σ ∧ coherent σ ∧ all_items σ = entries ∧ view σ = entries ∧
  currentFilter (this σ) = "" ∧ currentSearch (this σ) = "" ∧
  currentSort (this σ) = "".
Proof.
  intros Hnet σ.
  assert (Hwf : wf σ) by apply wf_init, wf_new.
  set (σ0 := showLoading (new c h t net)).
  assert (Hc0 : cached σ0 = None).
  { unfold cached.
    change (cache (this σ0)) with (∅ : gmap string CacheEntry).
    by rewrite lookup_empty. }
  assert (Hn0 : outcome (network σ0 (requests σ0)) =
                Response true status (JSONArray entries)) by exact Hnet.
  assert (Hf : fetchData σ0 = (Returned, stored entries σ0)).
  { unfold fetchData. rewrite Hc0. cbn [retry_loop].
    by rewrite (attempt_succeeded _ _ _ Hn0). }
  assert (E : σ = hideLoading (render host (setupEventListeners (stored entries σ0)))).
  { subst σ. unfold init. fold σ0. by rewrite Hf. }
  assert (Hcr : currentFilter (this σ0) = "" ∧ currentSearch (this σ0) = "" ∧
                currentSort (this σ0) = "") by done.
  clearbody σ0.
  assert (Ha : all_items σ = entries).
  { rewrite E, render_eq. apply all_items_stored. }
  assert (Hv : view σ = entries).
  { rewrite E, render_eq. apply view_stored. }
  assert (Hcr' : currentFilter (this σ) = "" ∧ currentSearch (this σ) = "" ∧
                 currentSort (this σ) = "") by (by rewrite E, render_eq).
  split; [done|]. split; [|done].
  destruct Hcr' as (Hcf & Hcq & _).
  unfold coherent. by rewrite Hv, Ha, Hcf, Hcq.
Qed.

(** X5. After a [fetchData] call that found no usable cache entry and
    returned, at whichever of its attempts the array was delivered,
    whatever the user does with the three handlers and as long as less
    than [cacheExpiry] has passed, another [fetchData] returns, issues no
    request and puts the same entries back into [items]: sorting
    [filteredItems] in place never reaches the cached array. *)
Lemma second_fetch_uses_cache host σ acts d :
  wf σ ->
  cached σ = None ->
  (fetchData σ).1 = Returned ->
  d < cacheExpiry (this σ) ->
  let σ1 := (fetchData σ).2 in
  let σ2 := tick d (run host acts σ1) in
  (∃ k status,
     (k < 3)%nat ∧
     outcome (network σ (requests σ + k)) =
       Response true status (JSONArray (all_items σ1))) ∧
  (fetchData σ2).1 = Returned ∧
  log (fetchData σ2).2 = log σ1 ∧
  requests (fetchData σ2).2 = requests σ1 ∧
  all_items (fetchData σ2).2 = all_items σ1.
Proof.
  intros Hwf Hc Hret Hd σ1 σ2.
  assert (Hwf1 : wf σ1) by (by apply wf_fetchData).
  assert (Hset : settings σ1 = settings σ) by apply settings_fetchData.
  injection Hset as _ _ _ _ _ _ _ _ _ He Hu _.
  assert (Hloop : retry_loop 3 None σ = (inr tt, σ1)).
  { subst σ1. revert Hret. unfold fetchData. rewrite Hc.
    by destruct (retry_loop 3 None σ) as [[?|[]] ?]. }
  destruct (retry_loop_returned _ _ _ _ Hloop)
    as (k & status & Hk & Hout & Hc1 & _ & _).
  rewrite <- Hu in Hc1.
  set (c := mkCacheEntry (items (this σ1)) (clock σ1)) in *.
  assert (Hfr : frame σ1 (run host acts σ1)).
  { clear -Hwf1. induction acts as [|a acts IH] using rev_ind.
    - by apply frame_refl.
    - rewrite run_snoc. eapply frame_trans; [exact IH|].
      pose proof (fr_wf _ _ IH) as Hwf.
      destruct a as [v|v|v]; cbn [handle].
      + apply (onFilterChange_sees host v _ Hwf).
      + apply (onSearchInput_sees host v _ Hwf).
      + apply (onSortChange_frame host v _ Hwf). }
  assert (Hwf2 : wf σ2) by apply wf_tick, Hfr.
  assert (Hc2 : cache (this σ2) !! apiUrl (this σ2) = Some c).
  { subst σ2. cbn [tick set_clock this].
    by rewrite (fr_cache _ _ Hfr), (fr_apiUrl _ _ Hfr). }
  assert (Hcached : cached σ2 = Some c).
  { unfold cached, Date_now. rewrite Hc2.
    assert (Hlt : clock σ2 - timestamp c < cacheExpiry (this σ2)).
    { subst σ2 c. cbn [tick set_clock this clock timestamp].
      rewrite (fr_clock _ _ Hfr), (fr_cacheExpiry _ _ Hfr), He. lia. }
    by destruct (Z.ltb_spec (clock σ2 - timestamp c) (cacheExpiry (this σ2)));
      [|lia]. }
  assert (Hl2 : log σ2 = log σ1).
  { change (log σ2) with (log (run host acts σ1)). apply Hfr. }
  split; [by exists k, status|].
  unfold fetchData at 1 2 3 4. rewrite Hcached. cbn [fst snd].
  split; [done|]. split; [exact Hl2|].
  split; [unfold requests; cbn [log]; by rewrite <- Hl2|].
  rewrite all_items_assign.
  - change (all_items (set_items (data c) σ2))
      with (read (data c) (run host acts σ1)).
    rewrite (fr_cached _ _ Hfr _ _ Hc1). done.
  - destruct (wf_cache _ Hwf2 _ _ Hc2) as [H1 H2].
    destruct Hwf2 as [Hi Hfi Hdi Hci]. split; cbn; done.
Qed.

(** *** The specification on concrete controllers *)

Import Samples.

Lemma wf_loaded entries : wf (loaded entries).
Proof. apply (reachable_wf iso_host). apply reach_init, reach_new. Qed.






(** The search handler with an empty query and no filter copies [items]
    and does not reapply the sort. *)
Example clearing_search_drops_sort :
  let σ :=
    run iso_host [SortChange "reading_time"; SearchInput "b"; SearchInput ""]
      (loaded [post_a; post_b; post_c]) in
  currentSort (this σ) = "reading_time" ∧
  view σ = [post_a; post_b; post_c] ∧
  pipeline iso_host "" "" "reading_time" (all_items σ) = [post_b; post_c; post_a].
Proof. vm_compute. done. Qed.

Lemma render_shows_window_witness :
  let σ := onFilterChange iso_host "y" (loaded [post_a; post_b; post_c]) in
  0 <= page (this σ) * perPage (this σ) ∧
  listContainer (this (render iso_host σ)) = Articles [article iso_host post_b].
Proof.
  intros σ.
  assert (Hw : 0 <= page (this σ) * perPage (this σ)) by (vm_compute; discriminate).
  split; [exact Hw|].
  destruct (render_shows_window iso_host σ Hw) as (_ & _ & _ & H & _).
  rewrite H; vm_compute; [reflexivity|discriminate].
Defined.

Lemma sort_change_only_reorders_witness :
  let σ := loaded [post_a; post_b; post_c] in
  let σ' := onSortChange iso_host "date" σ in
  wf σ ∧ Permutation (view σ') (view σ) ∧ all_items σ' = all_items σ.
Proof.
  intros σ σ'. assert (Hwf : wf σ) by apply wf_loaded.
  destruct (sort_change_only_reorders iso_host "date" σ Hwf) as (H1 & _ & H2 & _).
  split; [exact Hwf|]. split; [exact H1|exact H2].
Defined.

Lemma fetch_retries_with_backoff_witness :
  let σ := fresh_list full_container [server_error; wrong_shape; delivers [post_a; post_b]] in
  let url := apiUrl (this σ) in
  cached σ = None ∧
  (fetchData σ).1 = Returned ∧
  all_items (fetchData σ).2 = [post_a; post_b] ∧
  log (fetchData σ).2 =
    [Fetch url; Timeout 1000; Fetch url; Timeout 2000; Fetch url].
Proof.
  intros σ url.
  destruct (proj2 fetch_retries_with_backoff σ 200 [post_a; post_b]
              eq_refl eq_refl eq_refl eq_refl) as (H1 & H2 & _ & H3 & _).
  split; [reflexivity|]. split; [exact H1|]. split; [exact H2|exact H3].
Defined.


Lemma cache_window_witness :
  let σ := tick 299999 (loaded [post_a; post_b]) in
  let c := mkCacheEntry (items (this σ)) 120 in
  let τ :=
    tick 300000
      (init iso_host
         (fresh_list full_container [delivers [post_a]; delivers [post_a; post_b]])) in
  let d := mkCacheEntry (items (this τ)) 120 in
  (wf σ ∧ cache (this σ) !! apiUrl (this σ) = Some c ∧
   clock σ - timestamp c < cacheExpiry (this σ) ∧
   (fetchData σ).1 = Returned ∧ log (fetchData σ).2 = log σ ∧
   all_items (fetchData σ).2 = [post_a; post_b]) ∧
  (wf τ ∧ cache (this τ) !! apiUrl (this τ) = Some d ∧
   cacheExpiry (this τ) <= clock τ - timestamp d ∧
   (fetchData τ).1 = Returned ∧
   cache (this (fetchData τ).2) !! apiUrl (this τ) =
     Some (mkCacheEntry (items (this (fetchData τ).2)) 300240) ∧
   all_items (fetchData τ).2 = [post_a; post_b]).
Proof.
  intros σ c τ d. split.
  - assert (Hwf : wf σ) by apply wf_tick, wf_loaded.
    assert (Hc : cache (this σ) !! apiUrl (this σ) = Some c)
      by (vm_compute; reflexivity).
    assert (Hlt : clock σ - timestamp c < cacheExpiry (this σ))
      by (vm_compute; reflexivity).
    destruct (cache_window σ c Hwf Hc) as [Hfresh _].
    destruct (Hfresh Hlt) as (H1 & H2 & _ & _ & H3 & _).
    split; [exact Hwf|]. split; [exact Hc|]. split; [exact Hlt|].
    split; [exact H1|]. split; [exact H2|]. rewrite H3. vm_compute. reflexivity.
  - assert (Hwf : wf τ)
      by (apply wf_tick, (reachable_wf iso_host), reach_init, reach_new).
    assert (Hc : cache (this τ) !! apiUrl (this τ) = Some d)
      by (vm_compute; reflexivity).
    assert (Hge : cacheExpiry (this τ) <= clock τ - timestamp d)
      by (vm_compute; discriminate).
    assert (Hr : (fetchData τ).1 = Returned) by (vm_compute; reflexivity).
    destruct (cache_window τ d Hwf Hc) as [_ Hstale].
    destruct (Hstale Hge) as (_ & Hret & _).
    destruct (Hret Hr) as (k & status & _ & _ & Hnew & _ & _).
    split; [exact Hwf|]. split; [exact Hc|]. split; [exact Hge|].
    split; [exact Hr|]. split; [|vm_compute; reflexivity].
    rewrite Hnew; f_equal; f_equal; vm_compute; reflexivity.
Defined.

(** C6 fails on the code: a call after the entry has expired repopulates
    the cache only when one of its attempts succeeds.  Here the three
    requests of the call are rejected: it throws, and the cache still
    holds the entry stamped 120 and none stamped since the call began. *)
Lemma failed_refresh_keeps_the_old_entry :
  let σ := tick 300000 (loaded [post_a; post_b]) in
  let c := mkCacheEntry (items (this σ)) 120 in
  cache (this σ) !! apiUrl (this σ) = Some c ∧
  cacheExpiry (this σ) <= clock σ - timestamp c ∧
  (fetchData σ).1 = Thrown (mkError "Failed to fetch blogs: Failed to fetch") ∧
  requests (fetchData σ).2 = (requests σ + 3)%nat ∧
  cache (this (fetchData σ).2) !! apiUrl (this σ) = Some c ∧
  ¬ ∃ e, cache (this (fetchData σ).2) !! apiUrl (this σ) = Some e ∧
         clock σ <= timestamp e.
Proof.
  intros σ c.
  assert (Hold : cache (this (fetchData σ).2) !! apiUrl (this σ) = Some c)
    by (vm_compute; reflexivity).
  split; [vm_compute; reflexivity|]. split; [vm_compute; discriminate|].
  split; [vm_compute; reflexivity|]. split; [vm_compute; reflexivity|].
  split; [exact Hold|].
  intros (e & He & Ht). rewrite Hold in He. injection He as <-.
  revert Ht. vm_compute. intros Ht. apply Ht. reflexivity.
Qed.

(** One millisecond later the entry is stale and the network is asked
    again. *)
Example stale_entry_is_refetched :
  let σ := tick 300000 (loaded [post_a; post_b]) in
  clock σ - 120 = cacheExpiry (this σ) ∧
  log (fetchData σ).2 =
    (log σ ++ [Fetch (apiUrl (this σ)); Timeout 1000;
               Fetch (apiUrl (this σ)); Timeout 2000;
               Fetch (apiUrl (this σ))])%list.
Proof. vm_compute. done. Qed.

Lemma init_reports_failure_witness :
  let σ := fresh_list full_container [server_error; wrong_shape; Rejected "offline"] in
  (∃ c', loadingIndicator (this (init iso_host σ)) = Some c' ∧ "hidden" ∈ c') ∧
  eb_textContent <$> errorContainer (this (init iso_host σ)) =
    Some "Error: Failed to fetch blogs: offline".
Proof.
  intros σ.
  destruct (init_reports_failure iso_host σ) as [Hl Hf].
  destruct (Hf eq_refl eq_refl eq_refl eq_refl) as [He _].
  split; [exact (Hl _ eq_refl)|].
  by rewrite (He _ eq_refl).
Defined.

(** C7 fails on the code: in a container without an error container all
    three attempts fail and [init] shows no message. *)
Lemma failure_without_error_container_is_silent :
  let σ := fresh_list bare_container [server_error; wrong_shape; Rejected "offline"] in
  (fetchData (showLoading σ)).1 =
    Thrown (mkError "Failed to fetch blogs: offline") ∧
  errorContainer (this (init iso_host σ)) = None ∧
  ¬ ∃ box, errorContainer (this (init iso_host σ)) = Some box.
Proof.
  intros σ.
  assert (H : errorContainer (this (init iso_host σ)) = None)
    by (vm_compute; reflexivity).
  split; [vm_compute; reflexivity|]. split; [exact H|].
  intros [box Hb]. rewrite H in Hb. discriminate.
Qed.

End BlogListSpec.

(** ** Navigation bar *)

Module NavigationSpec.
Import Navigation.

Lemma handleResize_wide σ :
  768 <= innerWidth σ ->
  ("nav-list--visible" ∉ navList_classList (handleResize σ)) ∧
  navToggle_attributes (handleResize σ) !! "aria-expanded" = Some "false".
Proof.
  intros Hw. unfold handleResize.
  destruct (Z.leb_spec 768 (innerWidth σ)); [|lia]. cbn.
  split; [set_solver|apply lookup_insert_eq].
Qed.

Lemma handleResize_narrow σ : innerWidth σ < 768 -> handleResize σ = σ.
Proof.
  intros Hw. unfold handleResize.
  destruct (Z.leb_spec 768 (innerWidth σ)); [lia|done].
Qed.

(** C9. A resize to a width above 768px removes the class
    [nav-list--visible] from the link list and sets [aria-expanded] of
    the toggle to [false]; a resize to a width below 768px changes
    neither, nor anything else the handler can reach. *)
Theorem resize_closes_mobile_menu (w : Z) (σ : State) :
  (768 < w ->
   ("nav-list--visible" ∉ navList_classList (resize w σ)) ∧
   navToggle_attributes (resize w σ) !! "aria-expanded" = Some "false") ∧
  (w < 768 ->
   navList_classList (resize w σ) = navList_classList σ ∧
   navToggle_attributes (resize w σ) = navToggle_attributes σ ∧
   handleResize (resize w σ) = resize w σ).
Proof.
  split; intros Hw; unfold resize.
  - apply handleResize_wide. cbn. lia.
  - rewrite !handleResize_narrow; done.
Qed.

Import Samples.

Lemma resize_closes_mobile_menu_witness :
  "nav-list--visible" ∈ navList_classList narrow_open ∧
  navToggle_attributes narrow_open !! "aria-expanded" = Some "true" ∧
  "nav-list--visible" ∈ navList_classList (resize 650 narrow_open) ∧
  ("nav-list--visible" ∉ navList_classList (resize 800 narrow_open)) ∧
  navToggle_attributes (resize 800 narrow_open) !! "aria-expanded" = Some "false".
Proof.
  destruct (resize_closes_mobile_menu 800 narrow_open) as [Hwide _].
  destruct (resize_closes_mobile_menu 650 narrow_open) as [_ Hnarrow].
  destruct (Hwide ltac:(lia)) as [H1 H2].
  destruct (Hnarrow ltac:(lia)) as (H3 & _ & _).
  assert (Hopen : "nav-list--visible" ∈ navList_classList narrow_open)
    by (apply (bool_decide_unpack _); vm_compute; exact I).
  split; [exact Hopen|]. split; [vm_compute; reflexivity|].
  split; [rewrite H3; exact Hopen|]. split; [exact H1|exact H2].
Defined.

End NavigationSpec.

(** ** Drag and drop *)

Module DragDropSpec.
Import DragDrop.
Local Open Scope nat_scope.

(** *** Trees *)

Lemma Element_induction (P : Element -> Prop) :
  (∀ i c s ch, Forall P ch -> P (Node i c s ch)) -> ∀ e, P e.
Proof.
  intros H. fix IH 1. intros [i c s ch]. apply H.
  induction ch as [|k r IHr]; constructor; [apply IH|exact IHr].
Qed.

Lemma eid_prune_set S e : eid (prune_set S e) = eid e.
Proof. by destruct e. Qed.

Lemma classList_prune_set S e : classList (prune_set S e) = classList e.
Proof. by destruct e. Qed.

Lemma prune_set_eq S i c s ch :
  prune_set S (Node i c s ch) =
  Node i c s (map (prune_set S) (List.filter (λ k, negb (S (eid k))) ch)).
Proof.
  cbn [prune_set]. f_equal.
  induction ch as [|k r IH]; cbn; [done|].
  destruct (S (eid k)); cbn; by rewrite IH.
Qed.

Lemma prune_eq x i c s ch :
  prune x (Node i c s ch) =
  Node i c s (map (prune x) (List.filter (λ k, negb (eid k =? x)) ch)).
Proof.
  cbn [prune]. f_equal.
  induction ch as [|k r IH]; cbn; [done|].
  destruct (eid k =? x); cbn; by rewrite IH.
Qed.

Lemma prune_prune_set x e : prune x e = prune_set (λ i, i =? x) e.
Proof.
  induction e as [i c s ch IH] using Element_induction.
  rewrite prune_eq, prune_set_eq. f_equal.
  induction ch as [|k r IHr]; cbn; [done|].
  inversion IH as [|? ? Hk Hr]; subst.
  destruct (eid k =? x); cbn; [by apply IHr|].
  rewrite Hk. f_equal. by apply IHr.
Qed.

Lemma prune_set_ext S S' e :
  (∀ i, S i = S' i) -> prune_set S e = prune_set S' e.
Proof.
  intros HS. induction e as [i c s ch IH] using Element_induction.
  rewrite !prune_set_eq. f_equal.
  induction ch as [|k r IHr]; cbn; [done|].
  inversion IH as [|? ? Hk Hr]; subst.
  rewrite <- HS. destruct (S (eid k)); cbn; [by apply IHr|].
  rewrite Hk. f_equal. by apply IHr.
Qed.

Lemma prune_set_none e : prune_set (λ _, false) e = e.
Proof.
  induction e as [i c s ch IH] using Element_induction.
  rewrite prune_set_eq. f_equal.
  induction ch as [|k r IHr]; cbn; [done|].
  inversion IH as [|? ? Hk Hr]; subst. rewrite Hk. f_equal. by apply IHr.
Qed.

Lemma prune_set_compose S1 S2 e :
  prune_set S2 (prune_set S1 e) = prune_set (λ i, S1 i || S2 i) e.
Proof.
  induction e as [i c s ch IH] using Element_induction.
  rewrite !prune_set_eq. f_equal.
  induction ch as [|k r IHr]; cbn; [done|].
  inversion IH as [|? ? Hk Hr]; subst.
  destruct (S1 (eid k)) eqn:E1; cbn; [by apply IHr|].
  rewrite eid_prune_set.
  destruct (S2 (eid k)) eqn:E2; cbn; [by apply IHr|].
  rewrite Hk. f_equal. by apply IHr.
Qed.

Lemma fold_prune ys S e :
  fold_left (λ b y, prune y b) ys (prune_set S e) =
  prune_set (λ i, S i || existsb (Nat.eqb i) ys) e.
Proof.
  revert S. induction ys as [|y ys IH]; intros S; cbn.
  - apply prune_set_ext. intros i. by rewrite orb_false_r.
  - rewrite prune_prune_set, prune_set_compose, IH.
    apply prune_set_ext. intros i. by rewrite orb_assoc.
Qed.


Lemma subtree_eq e : subtree e = e :: descendants e.
Proof. by destruct e. Qed.

Lemma In_subtree_self e : In e (subtree e).
Proof. rewrite subtree_eq. by left. Qed.

Lemma In_descendants_child i c s ch k n :
  In k ch -> In n (subtree k) -> In n (descendants (Node i c s ch)).
Proof. intros Hk Hn. apply in_flat_map. eauto. Qed.

(** What is below a pruned element comes from below the element, and is
    not named by [S]. *)
Lemma descendants_prune_set S e n :
  In n (descendants (prune_set S e)) ->
  ∃ m, In m (descendants e) ∧ n = prune_set S m ∧ S (eid m) = false.
Proof.
  revert n. induction e as [i c s ch IH] using Element_induction. intros n.
  rewrite prune_set_eq. unfold descendants at 1. cbn [children].
  intros (k' & Hk' & Hn)%in_flat_map.
  apply in_map_iff in Hk' as (k & <- & Hk).
  apply filter_In in Hk as [Hk Hkeep]. apply negb_true_iff in Hkeep.
  rewrite List.Forall_forall in IH.
  rewrite subtree_eq in Hn. destruct Hn as [<-|Hn].
  - exists k. split; [|done].
    eapply In_descendants_child; [exact Hk|apply In_subtree_self].
  - destruct (IH k Hk n Hn) as (m & Hm & -> & HS).
    exists m. split; [|done].
    eapply In_descendants_child; [exact Hk|]. rewrite subtree_eq. by right.
Qed.

Lemma prune_set_id S e :
  (∀ n, In n (descendants e) -> S (eid n) = false) -> prune_set S e = e.
Proof.
  induction e as [i c s ch IH] using Element_induction. intros HS.
  rewrite prune_set_eq. f_equal.
  assert (Hch : ∀ k n, In k ch -> In n (subtree k) -> S (eid n) = false).
  { intros k n Hk Hn. apply HS. by eapply In_descendants_child. }
  clear HS. induction ch as [|k r IHr]; cbn; [done|].
  inversion IH as [|? ? Hk Hr]; subst.
  rewrite (Hch k k); [|by left|apply In_subtree_self]. cbn.
  rewrite Hk.
  - f_equal. apply IHr; [done|]. intros k' n Hk' Hn. apply (Hch k'); [by right|done].
  - intros n Hn. apply (Hch k); [by left|]. rewrite subtree_eq. by right.
Qed.

(** *** Paths *)

Lemma path_head z e a t : path z e = a :: t -> a = e.
Proof.
  destruct e as [i c s ch]. cbn [path].
  destruct (i =? z); [by intros [= <- _]|].
  destruct (first_nonempty _); [done|by intros [= <- _]].
Qed.

Lemma first_nonempty_map_path z (f : Element -> Element) ch :
  Forall (λ k, path z (f k) = map f (path z k)) ch ->
  first_nonempty (map (path z) (map f ch)) =
  map f (first_nonempty (map (path z) ch)).
Proof.
  induction 1 as [|k r Hk _ IH]; cbn; [done|].
  rewrite Hk. destruct (path z k); cbn; done.
Qed.

(** Pruning keeps the path to [z] when [S] names no element on it. *)
Lemma path_prune_set S z e :
  (∀ a, In a (path z e) -> S (eid a) = false) ->
  path z (prune_set S e) = map (prune_set S) (path z e).
Proof.
  induction e as [i c s ch IH] using Element_induction. intros HS.
  rewrite prune_set_eq. cbn [path] in *.
  destruct (i =? z) eqn:E; [cbn [map]; by rewrite prune_set_eq|].
  assert (Hch :
    first_nonempty
      (map (path z) (map (prune_set S) (List.filter (λ k, negb (S (eid k))) ch))) =
    map (prune_set S) (first_nonempty (map (path z) ch))).
  { assert (HS' : ∀ a, In a (first_nonempty (map (path z) ch)) -> S (eid a) = false).
    { intros a Ha. apply HS. destruct (first_nonempty (map (path z) ch)); [done|].
      by right. }
    clear HS. induction ch as [|k r IHr]; cbn; [done|].
    inversion IH as [|? ? Hk Hr]; subst. cbn in HS'.
    destruct (path z k) as [|a t] eqn:Ep.
    - destruct (S (eid k)); cbn; [by apply IHr|].
      rewrite Hk; [|done]. cbn. by apply IHr.
    - pose proof (path_head _ _ _ _ Ep) as ->.
      rewrite (HS' k); [|by left]. cbn.
      rewrite Hk; [|done]. done. }
  rewrite Hch. destruct (first_nonempty (map (path z) ch)); cbn [map]; [done|].
  by rewrite prune_set_eq.
Qed.

Lemma eid_append z new e : eid (append z new e) = eid e.
Proof. by destruct e. Qed.

Lemma path_append z new e :
  path z (append z new e) = map (append z new) (path z e).
Proof.
  induction e as [i c s ch IH] using Element_induction.
  cbn [append path]. destruct (i =? z) eqn:E.
  - cbn [map append]. by rewrite E.
  - rewrite first_nonempty_map_path; [|done].
    destruct (first_nonempty (map (path z) ch)); cbn [map append]; [done|].
    by rewrite E.
Qed.

Lemma append_id z new e :
  (∀ n, In n (subtree e) -> eid n ≠ z) -> append z new e = e.
Proof.
  induction e as [i c s ch IH] using Element_induction. intros Hz.
  cbn [append].
  assert ((i =? z) = false) as ->.
  { apply Nat.eqb_neq. apply (Hz (Node i c s ch)). apply In_subtree_self. }
  f_equal.
  assert (Hch : ∀ k n, In k ch -> In n (subtree k) -> eid n ≠ z).
  { intros k n Hk Hn. apply Hz. rewrite subtree_eq. right.
    by eapply In_descendants_child. }
  clear Hz. induction ch as [|k r IHr]; cbn; [done|].
  inversion IH as [|? ? Hk Hr]; subst.
  rewrite Hk; [|intros n Hn; apply (Hch k); [by left|done]].
  f_equal. apply IHr; [done|]. intros k' n Hk' Hn. apply (Hch k'); [by right|done].
Qed.


(** *** Looking an element up *)

Lemma find_app {A} (P : A -> bool) l1 l2 :
  List.find P (l1 ++ l2) =
  match List.find P l1 with
  | Some x => Some x
  | None => List.find P l2
  end.
Proof. induction l1 as [|a l1 IH]; cbn; [done|]. by destruct (P a). Qed.

Lemma find_map_same {A} (P : A -> bool) (f : A -> A) l :
  (∀ a, P (f a) = P a) -> List.find P (map f l) = f <$> List.find P l.
Proof.
  intros HP. induction l as [|a l IH]; cbn; [done|].
  rewrite HP. by destruct (P a).
Qed.

Lemma last_nonempty_cons {A} (a : A) p : p ≠ [] -> last (a :: p) = last p.
Proof. destruct p; [done|]. intros _. apply last_cons_cons. Qed.

Lemma last_cons_is_Some {A} (a : A) t : is_Some (last (a :: t)).
Proof. rewrite last_cons. destruct (last t); eauto. Qed.

(** The first element named [z], in document order, ends the path to
    [z]. *)
Lemma find_path z e :
  List.find (λ n, eid n =? z) (subtree e) = last (path z e).
Proof.
  induction e as [i c s ch IH] using Element_induction.
  cbn [subtree path List.find eid]. destruct (i =? z) eqn:E; [done|].
  assert (Hch : List.find (λ n, eid n =? z) (flat_map subtree ch) =
                last (first_nonempty (map (path z) ch))).
  { induction ch as [|k r IHr]; cbn [flat_map map first_nonempty]; [done|].
    inversion IH as [|? ? Hk Hr]; subst.
    rewrite find_app, Hk. destruct (path z k) as [|a t] eqn:Ep.
    - cbn. by apply IHr.
    - by destruct (last_cons_is_Some a t) as [y ->]. }
  rewrite Hch. destruct (first_nonempty (map (path z) ch)) as [|a t]; [done|].
  by rewrite last_cons_cons.
Qed.

Lemma first_nonempty_In {A} (ls : list (list A)) a t :
  first_nonempty ls = a :: t -> In (a :: t) ls.
Proof.
  induction ls as [|[|b u] r IH]; cbn; [done| |].
  - intros H. right. by apply IH.
  - intros ->. by left.
Qed.

Lemma path_in_subtree z e a : In a (path z e) -> In a (subtree e).
Proof.
  revert a. induction e as [i c s ch IH] using Element_induction. intros a.
  cbn [path]. destruct (i =? z); [intros [<-|[]]; apply In_subtree_self|].
  destruct (first_nonempty (map (path z) ch)) as [|b t] eqn:Ep; [done|].
  intros [<-|Ha]; [apply In_subtree_self|].
  apply first_nonempty_In, in_map_iff in Ep as (k & Hp & Hk).
  rewrite subtree_eq. right. eapply In_descendants_child; [exact Hk|].
  rewrite List.Forall_forall in IH. apply (IH k Hk). by rewrite Hp.
Qed.

Lemma last_In {A} (l : list A) x : last l = Some x -> In x l.
Proof. intros (l' & ->)%last_Some. apply in_or_app. right. by left. Qed.

(** *** Identities *)

Lemma map_flat_map {A B C} (f : B -> C) (g : A -> list B) l :
  map f (flat_map g l) = flat_map (λ a, map f (g a)) l.
Proof. induction l as [|a l IH]; cbn; [done|]. by rewrite map_app, IH. Qed.

Lemma ids_eq i c s ch : ids (Node i c s ch) = i :: flat_map ids ch.
Proof. unfold ids. cbn. by rewrite map_flat_map. Qed.

Lemma ids_below e : ids e = eid e :: map eid (descendants e).
Proof. unfold ids. by rewrite subtree_eq. Qed.

Lemma ids_incl e n j : In n (subtree e) -> In j (ids n) -> In j (ids e).
Proof.
  revert n. induction e as [i c s ch IH] using Element_induction. intros n.
  rewrite subtree_eq. intros [<-|Hn]; [done|].
  apply in_flat_map in Hn as (k & Hk & Hn). intros Hj.
  rewrite ids_eq. right. apply in_flat_map. exists k. split; [done|].
  rewrite List.Forall_forall in IH. by eapply IH.
Qed.

Lemma NoDup_ids_child i c s ch k :
  NoDup (ids (Node i c s ch)) -> In k ch -> NoDup (ids k).
Proof.
  rewrite ids_eq. intros Hn%NoDup_cons_1_2 Hk.
  induction ch as [|k' r IH]; [done|]. cbn in Hn.
  apply NoDup_app in Hn as (H1 & _ & H2).
  destruct Hk as [<-|Hk]; [done|by apply IH].
Qed.

Lemma self_not_below e : NoDup (ids e) -> ¬ In (eid e) (map eid (descendants e)).
Proof.
  rewrite ids_below. intros Hn%NoDup_cons_1_1. by rewrite <- list_elem_of_In.
Qed.

(** With unique identities, no element on the path to [z] has the
    identity of an element below the one named [z]. *)
Lemma path_not_below z e zn :
  NoDup (ids e) -> last (path z e) = Some zn ->
  ∀ a, In a (path z e) -> ¬ In (eid a) (map eid (descendants zn)).
Proof.
  revert zn. induction e as [i c s ch IH] using Element_induction.
  intros zn Hnd. cbn [path]. destruct (i =? z).
  - intros [= <-] a [<-|[]]. by apply self_not_below.
  - destruct (first_nonempty (map (path z) ch)) as [|b t] eqn:Ep; [done|].
    rewrite last_nonempty_cons; [|done]. intros Hl a Ha.
    apply first_nonempty_In, in_map_iff in Ep as (k & Hp & Hk).
    rewrite <- Hp in *. rewrite List.Forall_forall in IH.
    destruct Ha as [<-|Ha].
    + intros Hin. cbn [eid].
      assert (Hzn : In zn (subtree k)) by (eapply path_in_subtree, last_In, Hl).
      assert (Hi : In i (flat_map ids ch)).
      { apply in_flat_map. exists k. split; [done|].
        apply (ids_incl k zn); [done|]. rewrite ids_below. by right. }
      rewrite ids_eq in Hnd. apply NoDup_cons_1_1 in Hnd.
      by rewrite list_elem_of_In in Hnd.
    + eapply IH; eauto using NoDup_ids_child.
Qed.


(** *** Class and style changes *)

Section Update.
Variables (x : nat) (g : Element -> Element).
Hypothesis g_eid : ∀ n, eid (g n) = eid n.
Hypothesis g_children : ∀ n, children (g n) = children n.

Lemma eid_update e : eid (update x g e) = eid e.
Proof. destruct e as [i c s ch]. cbn. destruct (i =? x); by rewrite ?g_eid. Qed.

Lemma children_update e :
  children (update x g e) = map (update x g) (children e).
Proof.
  destruct e as [i c s ch]. cbn. destruct (i =? x); by rewrite ?g_children.
Qed.

Lemma subtree_update e : subtree (update x g e) = map (update x g) (subtree e).
Proof.
  induction e as [i c s ch IH] using Element_induction.
  rewrite (subtree_eq (update x g _)). unfold descendants.
  rewrite children_update. cbn [subtree map children]. f_equal.
  induction ch as [|k r IHr]; cbn; [done|].
  inversion IH as [|? ? Hk Hr]; subst. rewrite map_app, Hk. f_equal. by apply IHr.
Qed.

Lemma descendants_update e :
  descendants (update x g e) = map (update x g) (descendants e).
Proof.
  pose proof (subtree_update e) as H. rewrite !subtree_eq in H.
  cbn [map] in H. by injection H.
Qed.

Lemma ids_update e : ids (update x g e) = ids e.
Proof.
  unfold ids. rewrite subtree_update, map_map.
  apply map_ext. intros n. apply eid_update.
Qed.

Lemma find_update z e :
  List.find (λ n, eid n =? z) (subtree (update x g e)) =
  update x g <$> List.find (λ n, eid n =? z) (subtree e).
Proof.
  rewrite subtree_update. apply find_map_same. intros n. by rewrite eid_update.
Qed.

Lemma has_class_update c e :
  (∀ n, has_class c (g n) = has_class c n) ->
  has_class c (update x g e) = has_class c e.
Proof.
  intros Hc. destruct e as [i cl s ch]. cbn [update].
  destruct (i =? x); [rewrite Hc|]; done.
Qed.

Lemma items_update c l :
  (∀ n, has_class c (g n) = has_class c n) ->
  map eid (List.filter (has_class c) (map (update x g) l)) =
  map eid (List.filter (has_class c) l).
Proof.
  intros Hc. induction l as [|n l IH]; cbn; [done|].
  rewrite (has_class_update c n Hc).
  destruct (has_class c n); cbn; by rewrite ?eid_update, IH.
Qed.

End Update.

(** *** Pages *)

Lemma lookup_body z p zn :
  List.find (λ n, eid n =? z) (subtree (body p)) = Some zn ->
  lookup z p = Some zn.
Proof. intros H. unfold lookup, nodes, roots. cbn. by rewrite find_app, H. Qed.

Lemma body_remove y p : body (remove y p) = prune y (body p).
Proof.
  unfold remove.
  destruct (List.find _ _) eqn:E; [done|].
  rewrite prune_prune_set, prune_set_id; [done|].
  intros n Hn. apply (find_none _ _ E). unfold roots. cbn.
  apply in_or_app. by left.
Qed.

Lemma body_fold_remove ys p :
  body (fold_left (λ p y, remove y p) ys p) =
  fold_left (λ b y, prune y b) ys (body p).
Proof.
  revert p. induction ys as [|y ys IH]; intros p; cbn; [done|].
  by rewrite IH, body_remove.
Qed.

Lemma page_fold_remove (E : list Element) σ :
  page (fold_left (λ σ item, set_page (remove (eid item) (page σ)) σ) E σ) =
  fold_left (λ p y, remove y p) (map eid E) (page σ).
Proof. revert σ. induction E as [|n E IH]; intros σ; cbn; [done|]. by rewrite IH. Qed.

(** *** Copies *)

Lemma classList_relabel off e : classList (relabel off e) = classList e.
Proof. by destruct e. Qed.

Lemma subtree_relabel off e :
  subtree (relabel off e) = map (relabel off) (subtree e).
Proof.
  induction e as [i c s ch IH] using Element_induction.
  cbn [relabel subtree map]. f_equal.
  induction ch as [|k r IHr]; cbn; [done|].
  inversion IH as [|? ? Hk Hr]; subst. rewrite map_app, Hk. f_equal. by apply IHr.
Qed.

Lemma relabel_above off e n : In n (subtree (relabel off e)) -> off <= eid n.
Proof.
  rewrite subtree_relabel. intros (m & <- & _)%in_map_iff.
  destruct m. cbn. lia.
Qed.

Lemma filter_relabel c off l :
  List.filter (has_class c) (map (relabel off) l) =
  map (relabel off) (List.filter (has_class c) l).
Proof.
  induction l as [|n l IH]; cbn; [done|].
  unfold has_class at 1. rewrite classList_relabel. fold (has_class c n).
  destruct (has_class c n); cbn; by rewrite IH.
Qed.

(** A copy made on the page [p] has no identity of [p]. *)
Lemma cloneNode_fresh e p n j :
  In n (subtree (cloneNode e p)) -> In j (map eid (nodes p)) -> eid n ≠ j.
Proof.
  intros Hn%relabel_above Hj%list_elem_of_In%max_list_elem_of_le. lia.
Qed.


(** *** The zone through a touch drop *)

Lemma last_map {A B} (f : A -> B) l : last (map f l) = f <$> last l.
Proof.
  induction l as [|a l IH]; [done|]. cbn [map]. rewrite !last_cons, IH.
  by destruct (last l).
Qed.

Lemma filter_none {A} (P : A -> bool) l :
  (∀ a, In a l -> P a = false) -> List.filter P l = [].
Proof.
  induction l as [|a l IH]; intros H; cbn; [done|].
  rewrite (H a); [|by left]. apply IH. intros b Hb. apply H. by right.
Qed.

Lemma path_eid z e zn : last (path z e) = Some zn -> eid zn = z.
Proof.
  rewrite <- find_path. intros [_ H]%find_some. by apply Nat.eqb_eq.
Qed.

Lemma existsb_eqb_In i ys : existsb (Nat.eqb i) ys = true -> In i ys.
Proof. intros (y & Hy & ->%Nat.eqb_eq)%existsb_exists. done. Qed.

Lemma In_existsb_eqb i ys : In i ys -> existsb (Nat.eqb i) ys = true.
Proof. intros H. apply existsb_exists. exists i. by rewrite Nat.eqb_refl. Qed.

Section Drop.
Variables (p : Page) (x z : nat) (zone clone : Element) (ys : list nat).
Hypothesis unique : NoDup (ids (body p)).
Hypothesis zone_at : last (path z (body p)) = Some zone.
Hypothesis x_off_path : ¬ In x (map eid (path z (body p))).
Hypothesis clone_fresh :
  ∀ n, In n (subtree clone) -> eid n ≠ x ∧ eid n ≠ z.
Hypothesis ys_below : ∀ y, In y ys -> In y (map eid (descendants zone)).

Let draggable := has_class "draggable-item".
Let S := λ i, false || existsb (Nat.eqb i) ys.
Let Sx := λ i, i =? x.

(** The body once the elements named [ys] are removed from the zone, the
    copy is appended and the dragged item is removed. *)
Let B1 := body (fold_left (λ p y, remove y p) ys p).
Let B3 := body (remove x (appendChild z clone (fold_left (λ p y, remove y p) ys p))).

Lemma cleared_body : B1 = prune_set S (body p).
Proof.
  unfold B1. rewrite body_fold_remove.
  rewrite <- (prune_set_none (body p)) at 1. apply fold_prune.
Qed.

Lemma S_off_path a : In a (path z (body p)) -> S (eid a) = false.
Proof.
  intros Ha. unfold S. cbn. apply not_true_is_false.
  intros Hy%existsb_eqb_In.
  by apply (path_not_below z (body p) zone unique zone_at a Ha), ys_below.
Qed.

Lemma cleared_zone_below n :
  In n (descendants (prune_set S zone)) -> eid n ≠ z.
Proof.
  intros (m & Hm & -> & HS)%descendants_prune_set.
  rewrite eid_prune_set. intros Hz.
  apply (path_not_below z (body p) zone unique zone_at zone).
  - by apply last_In.
  - rewrite (path_eid _ _ _ zone_at), <- Hz. by apply in_map.
Qed.

Lemma Sx_off_path a :
  In a (path z (append z clone B1)) -> Sx (eid a) = false.
Proof.
  rewrite path_append, cleared_body, path_prune_set by apply S_off_path.
  intros (b & <- & (c & <- & Hc)%in_map_iff)%in_map_iff.
  rewrite eid_append, eid_prune_set. apply Nat.eqb_neq. intros Hx.
  apply x_off_path. rewrite <- Hx. by apply in_map.
Qed.

Lemma dropped_body : B3 = prune_set Sx (append z clone B1).
Proof. unfold B3. by rewrite body_remove, prune_prune_set. Qed.

Lemma dropped_zone :
  last (path z B3) =
  Some (prune_set Sx (append z clone (prune_set S zone))).
Proof.
  rewrite dropped_body, path_prune_set by apply Sx_off_path.
  rewrite path_append, cleared_body, path_prune_set by apply S_off_path.
  by rewrite !last_map, zone_at.
Qed.

(** The zone then holds what was left in it, and after that the copy. *)
Lemma dropped_zone_descendants :
  List.filter draggable
    (descendants (prune_set Sx (append z clone (prune_set S zone)))) =
  (List.filter draggable (descendants (prune_set Sx (prune_set S zone))) ++
   List.filter draggable (subtree clone))%list.
Proof.
  pose proof cleared_zone_below as Hbelow.
  destruct (prune_set S zone) as [i c s ch] eqn:Ez.
  assert (Hi : i = z).
  { change i with (eid (Node i c s ch)).
    by rewrite <- Ez, eid_prune_set, (path_eid _ _ _ zone_at). }
  subst i. cbn [append]. rewrite Nat.eqb_refl.
  assert (Hch : map (append z clone) ch = ch).
  { rewrite <- (map_id ch) at 2. apply map_ext_in. intros k Hk.
    apply append_id. intros n Hn.
    apply (Hbelow n). by eapply In_descendants_child. }
  rewrite Hch, !prune_set_eq. unfold descendants. cbn [children].
  rewrite List.filter_app, map_app, flat_map_app, List.filter_app.
  assert (Hkeep : negb (Sx (eid clone)) = true).
  { apply negb_true_iff, Nat.eqb_neq. apply clone_fresh, In_subtree_self. }
  cbn [List.filter]. rewrite Hkeep. cbn [map flat_map]. rewrite app_nil_r.
  rewrite prune_set_id; [done|].
  intros n Hn. apply Nat.eqb_neq, clone_fresh. rewrite subtree_eq. by right.
Qed.

Lemma dropped_item_gone : ¬ In x (ids B3).
Proof.
  rewrite ids_below. intros [Hx|Hx].
  - apply x_off_path.
    destruct (path z (body p)) as [|a t] eqn:Ep; [done|].
    pose proof (path_head _ _ _ _ Ep) as ->.
    rewrite dropped_body, eid_prune_set, eid_append, cleared_body,
      eid_prune_set in Hx.
    rewrite <- Hx. by left.
  - apply in_map_iff in Hx as (n & Hn & Hin).
    rewrite dropped_body in Hin.
    apply descendants_prune_set in Hin as (m & _ & -> & HS).
    rewrite eid_prune_set in Hn. unfold Sx in HS. apply Nat.eqb_neq in HS. done.
Qed.

End Drop.

(** Once every draggable item below the zone is removed, nothing
    draggable is left below it. *)
Lemma cleared_zone_empty x zone :
  let ys := map eid (List.filter (has_class "draggable-item") (descendants zone)) in
  List.filter (has_class "draggable-item")
    (descendants
       (prune_set (λ i, i =? x)
          (prune_set (λ i, false || existsb (Nat.eqb i) ys) zone))) = [].
Proof.
  intros ys. apply filter_none. intros n Hn.
  apply descendants_prune_set in Hn as (m & Hm & -> & _).
  apply descendants_prune_set in Hm as (m' & Hm' & -> & HS).
  unfold has_class. rewrite !classList_prune_set.
  apply not_true_is_false. intros Hd. cbn in HS.
  rewrite In_existsb_eqb in HS; [done|].
  unfold ys. apply in_map, filter_In. by split.
Qed.

(** With nothing removed first and the dragged item not below the zone,
    the zone keeps what it held. *)
Lemma untouched_zone x zone :
  ¬ In x (map eid (descendants zone)) ->
  prune_set (λ i, i =? x)
    (prune_set (λ i, false || existsb (Nat.eqb i) []) zone) = zone.
Proof.
  intros Hx.
  rewrite (prune_set_ext (λ i, false || existsb (Nat.eqb i) []) (λ _, false))
    by done.
  rewrite prune_set_none.
  apply prune_set_id. intros n Hn. apply Nat.eqb_neq. intros <-.
  apply Hx. by apply in_map.
Qed.


(** *** The whole handler *)


Lemma settled_remove_class c y z L x p :
  c ≠ "draggable-item" ->
  settled z L x p -> settled z L x (remove_class c y p).
Proof.
  intros Hc (zn & Hz & HL & Hx).
  set (g := λ e : Element,
         Node (eid e) (classList e ∖ {[c]}) (style e) (children e)).
  assert (g_eid : ∀ n, eid (g n) = eid n) by done.
  assert (g_children : ∀ n, children (g n) = children n) by done.
  assert (g_class : ∀ n, has_class "draggable-item" (g n) =
                         has_class "draggable-item" n).
  { intros n. unfold has_class, g. cbn. apply bool_decide_ext. set_solver. }
  exists (update y g zn). unfold remove_class, update_page. cbn [body].
  fold g. split; [|split].
  - by rewrite find_update, Hz.
  - by rewrite descendants_update, items_update.
  - by rewrite ids_update.
Qed.

Lemma settled_clear_drag_over z L x p :
  settled z L x p -> settled z L x (clear_drag_over p).
Proof.
  unfold clear_drag_over.
  generalize (List.filter (has_class "drop-zone") (subtree (body p))).
  intros l. revert p. induction l as [|n l IH]; intros p Hp; cbn; [done|].
  apply IH. by apply settled_remove_class.
Qed.

Lemma settled_items_in z L x σ :
  settled z L x (page σ) ->
  map eid (items_in z σ) = L ∧ ¬ In x (ids (body (page σ))).
Proof.
  intros (zn & Hz & HL & Hx). unfold items_in.
  by rewrite (lookup_body _ _ _ Hz).
Qed.


Lemma items_clear_position e :
  map eid (List.filter (has_class "draggable-item") (subtree (clear_position e))) =
  map eid (List.filter (has_class "draggable-item") (subtree e)).
Proof.
  rewrite !subtree_eq. cbn [List.filter].
  change (has_class "draggable-item" (clear_position e))
    with (has_class "draggable-item" e).
  change (descendants (clear_position e)) with (descendants e).
  by destruct (has_class "draggable-item" e).
Qed.

Lemma page_clearTimeout t σ : page (clearTimeout t σ) = page σ.
Proof. by destruct t. Qed.

Lemma handleTouchEnd_on_zone σ x z item zone clientX clientY :
  draggedItem (this σ) = Some x ->
  lookup z (page σ) = Some zone ->
  has_class "drop-zone" zone = true ->
  lookup x (page σ) = Some item ->
  let σ' := handleTouchEnd clientX clientY (Some z) σ in
  page σ' =
    clear_drag_over
      (remove_class "dragging" x
         (remove x
            (appendChild z (clear_position (cloneNode item (page σ)))
               (fold_left (λ p y, remove y p)
                  (map eid
                     (List.filter (has_class "draggable-item")
                        (descendants zone)))
                  (page σ))))) ∧
  draggedItem (this σ') = None.
Proof.
  intros Hd Hz Hc Hx σ'. subst σ'. unfold handleTouchEnd. rewrite Hd.
  unfold under_drop_zone, targets_drop_zone.
  rewrite !page_clearTimeout, Hz, Hc, Hx. cbn [page set_page set_draggedItem this draggedItem].
  rewrite page_fold_remove, page_clearTimeout. unfold querySelectorAll.
  by rewrite Hz.
Qed.


Lemma lookup_In x p e : lookup x p = Some e -> In x (map eid (nodes p)).
Proof.
  intros [Hin Hx%Nat.eqb_eq]%find_some. rewrite <- Hx. by apply in_map.
Qed.

Lemma path_in_nodes z p a :
  In a (path z (body p)) -> In (eid a) (map eid (nodes p)).
Proof.
  intros Ha%path_in_subtree. apply in_map. unfold nodes, roots. cbn.
  apply in_or_app. by left.
Qed.

(** X20. The touch path in general.  On a page with unique identities, when a
    touch ends over the drop zone [z] while the item [x] is dragged, and
    [x] is neither the zone nor one of its ancestors, the draggable items
    of the zone are afterwards those of the copy of [x] and no others, the
    copy alone when [x] has no draggable item inside it; [x] has left the
    body and no item is being dragged. *)
Theorem touch_drop_leaves_the_copy_alone
    (σ : State) (x z : nat) (item zone : Element) (clientX clientY : Z) :
  draggedItem (this σ) = Some x ->
  lookup x (page σ) = Some item ->
  NoDup (ids (body (page σ))) ->
  last (path z (body (page σ))) = Some zone ->
  has_class "drop-zone" zone = true ->
  ¬ In x (map eid (path z (body (page σ)))) ->
  let σ' := handleTouchEnd clientX clientY (Some z) σ in
  let copy := cloneNode item (page σ) in
  map eid (items_in z σ') =
    map eid (List.filter (has_class "draggable-item") (subtree copy)) ∧
  (has_class "draggable-item" item = true ->
   List.filter (has_class "draggable-item") (descendants item) = [] ->
   map eid (items_in z σ') = [eid copy]) ∧
  ¬ In x (ids (body (page σ'))) ∧
  draggedItem (this σ') = None.
Proof.
  intros Hd Hx Hu Hz Hc Hxz σ' copy.
  assert (Hlz : lookup z (page σ) = Some zone).
  { apply lookup_body. by rewrite find_path. }
  destruct (handleTouchEnd_on_zone σ x z item zone clientX clientY Hd Hlz Hc Hx)
    as [Hp Hnone].
  fold σ' copy in Hp, Hnone.
  assert (Hfresh : ∀ n, In n (subtree (clear_position copy)) -> eid n ≠ x ∧ eid n ≠ z).
  { intros n Hn.
    assert (Hn' : ∃ m, In m (subtree copy) ∧ eid n = eid m).
    { rewrite subtree_eq in Hn. destruct Hn as [<-|Hn].
      - exists copy. split; [apply In_subtree_self|done].
      - exists n. split; [|done]. rewrite subtree_eq. by right. }
    destruct Hn' as (m & Hm & ->). split.
    - eapply cloneNode_fresh; [exact Hm|]. by eapply lookup_In.
    - eapply cloneNode_fresh; [exact Hm|].
      rewrite <- (path_eid _ _ _ Hz). by eapply path_in_nodes, last_In. }
  assert (Hs : settled z
                 (map eid (List.filter (has_class "draggable-item") (subtree copy)))
                 x (page σ')).
  { rewrite Hp. apply settled_clear_drag_over, settled_remove_class; [done|].
    eexists. split; [|split].
    - rewrite find_path. apply dropped_zone; [done..|].
      intros y (m & <- & [Hm _]%filter_In)%in_map_iff. by apply in_map.
    - rewrite (dropped_zone_descendants (page σ) x z zone (clear_position copy) _ Hu Hz Hfresh).
      rewrite cleared_zone_empty. apply items_clear_position.
    - eapply dropped_item_gone; [exact Hz|exact Hxz]. }
  destruct (settled_items_in _ _ _ _ Hs) as [Hitems Hgone].
  split; [exact Hitems|]. split; [|by split].
  intros Hdr Hin. rewrite Hitems. unfold copy, cloneNode.
  rewrite subtree_relabel, filter_relabel, subtree_eq. cbn [List.filter].
  rewrite Hdr, Hin. reflexivity.
Qed.


Lemma handleDrop_on_zone σ t x item zone :
  draggedItem (this σ) = Some x ->
  lookup x (page σ) = Some item ->
  closest "drop-zone" t (page σ) = Some zone ->
  page (handleDrop t σ) =
    remove_class "drag-over" (eid zone)
      (remove x (appendChild (eid zone) (cloneNode item (page σ)) (page σ))).
Proof. intros Hd Hx Hc. unfold handleDrop. by rewrite Hc, Hd, Hx. Qed.

(** X21. The mouse path in general.  On a page with unique identities,
    a drop on the zone [zone] of a dragged item [x] that is outside the
    zone and is not one of its ancestors leaves in the zone every
    draggable item it held and adds those of the copy after them: a zone
    that held an item holds at least two afterwards. *)
Theorem mouse_drop_adds_to_the_zone
    (σ : State) (t x : nat) (item zone : Element) :
  draggedItem (this σ) = Some x ->
  lookup x (page σ) = Some item ->
  closest "drop-zone" t (page σ) = Some zone ->
  NoDup (ids (body (page σ))) ->
  last (path (eid zone) (body (page σ))) = Some zone ->
  ¬ In x (map eid (path (eid zone) (body (page σ)))) ->
  ¬ In x (map eid (descendants zone)) ->
  let σ' := handleDrop t σ in
  let copy := cloneNode item (page σ) in
  map eid (items_in (eid zone) σ') =
    (map eid (items_in (eid zone) σ) ++
     map eid (List.filter (has_class "draggable-item") (subtree copy)))%list ∧
  (has_class "draggable-item" item = true ->
   items_in (eid zone) σ ≠ [] ->
   2 <= length (items_in (eid zone) σ')) ∧
  ¬ In x (ids (body (page σ'))).
Proof.
  intros Hd Hx Hc Hu Hz Hxz Hout σ' copy.
  set (z := eid zone) in *.
  assert (Hlz : lookup z (page σ) = Some zone).
  { apply lookup_body. by rewrite find_path. }
  assert (Hold : items_in z σ =
                 List.filter (has_class "draggable-item") (descendants zone)).
  { unfold items_in. by rewrite Hlz. }
  pose proof (handleDrop_on_zone σ t x item zone Hd Hx Hc) as Hp.
  fold σ' copy z in Hp.
  assert (Hfresh : ∀ n, In n (subtree copy) -> eid n ≠ x ∧ eid n ≠ z).
  { intros n Hn. split.
    - eapply cloneNode_fresh; [exact Hn|]. by eapply lookup_In.
    - eapply cloneNode_fresh; [exact Hn|].
      rewrite <- (path_eid _ _ _ Hz). by eapply path_in_nodes, last_In. }
  assert (Hs : settled z
                 (map eid (items_in z σ) ++
                  map eid (List.filter (has_class "draggable-item")
                             (subtree copy)))
                 x (page σ')).
  { rewrite Hp. apply settled_remove_class; [done|].
    eexists. split; [|split].
    - rewrite find_path.
      by apply (dropped_zone (page σ) x z zone copy [] Hu Hz Hxz).
    - rewrite (dropped_zone_descendants (page σ) x z zone copy [] Hu Hz Hfresh).
      by rewrite untouched_zone, map_app, Hold.
    - by apply (dropped_item_gone (page σ) x z zone copy [] Hz Hxz). }
  destruct (settled_items_in _ _ _ _ Hs) as [Hitems Hgone].
  split; [exact Hitems|]. split; [|exact Hgone].
  intros Hdr Hne.
  rewrite <- (length_map eid), Hitems, length_app, !length_map.
  assert (1 <= length (items_in z σ)) by (destruct (items_in z σ); [done|cbn; lia]).
  assert (1 <= length (List.filter (has_class "draggable-item") (subtree copy))).
  { unfold copy, cloneNode. rewrite subtree_relabel, filter_relabel, length_map.
    rewrite subtree_eq. cbn [List.filter]. rewrite Hdr. cbn. lia. }
  lia.
Qed.

(** *** The specification on a concrete page *)

Import Samples.

(** C8 on the code.  A mouse drop of [item_x] on the zone that already
    holds [item_y] takes [item_x] out of the source list and appends its
    copy to the zone, and leaves [item_y] there: the zone holds two
    draggable items. *)
Theorem mouse_drop_keeps_previous_item :
  let σ := handleDrop 4 (handleDragStart 2 (idle occupied_page)) in
  map eid (items_in 4 (handleDragStart 2 (idle occupied_page))) = [3] ∧
  map eid (items_in 4 σ) = [3; 7] ∧
  length (items_in 4 σ) = 2 ∧
  map eid (subtree (body (page σ))) = [0; 1; 4; 3; 7] ∧
  map eid (detached (page σ)) = [2].
Proof. vm_compute. done. Qed.

(** The touch handler on the same page clears the zone first: the zone
    holds the copy of [item_x] alone. *)
Example touch_drop_replaces_previous_item :
  let σ :=
    handleTouchEnd 40 60 (Some 4)
      (handleTouchMove 40 60 (Some 4)
         (touchTimer 1 (handleTouchStart 2 10 10 (idle occupied_page)))) in
  map eid (items_in 4 σ) = [7] ∧
  map eid (subtree (body (page σ))) = [0; 1; 4; 7] ∧
  draggedItem (this σ) = None.
Proof. vm_compute. done. Qed.

(** The two general statements apply to that page. *)
Lemma touch_drop_leaves_the_copy_alone_witness :
  let σ := handleTouchStart 2 10 10 (idle occupied_page) in
  let σ' := handleTouchEnd 40 60 (Some 4) σ in
  NoDup (ids (body (page σ))) ∧
  map eid (items_in 4 σ) = [3] ∧
  map eid (items_in 4 σ') = [7] ∧
  ¬ In 2 (ids (body (page σ'))).
Proof.
  intros σ σ'.
  assert (Hu : NoDup (ids (body (page σ))))
    by (apply (bool_decide_unpack _); vm_compute; exact I).
  assert (Hx : ¬ In 2 (map eid (path 4 (body (page σ)))))
    by (vm_compute; intros [H|[H|[]]]; discriminate H).
  destruct (touch_drop_leaves_the_copy_alone σ 2 4 item_x
              (Node 4 {["drop-zone"]} plain [item_y]) 40 60
              eq_refl eq_refl Hu eq_refl eq_refl Hx) as (_ & H1 & H2 & _).
  split; [exact Hu|]. split; [vm_compute; reflexivity|].
  split; [exact (H1 eq_refl eq_refl)|exact H2].
Defined.

Lemma mouse_drop_adds_to_the_zone_witness :
  let σ := handleDragStart 2 (idle occupied_page) in
  let σ' := handleDrop 4 σ in
  NoDup (ids (body (page σ))) ∧
  items_in 4 σ ≠ [] ∧
  2 <= length (items_in 4 σ') ∧
  ¬ In 2 (ids (body (page σ'))).
Proof.
  intros σ σ'.
  assert (Hu : NoDup (ids (body (page σ))))
    by (apply (bool_decide_unpack _); vm_compute; exact I).
  assert (Hx : ¬ In 2 (map eid (path 4 (body (page σ)))))
    by (vm_compute; intros [H|[H|[]]]; discriminate H).
  assert (Hout : ¬ In 2 (map eid (descendants (Node 4 {["drop-zone"]} plain [item_y]))))
    by (vm_compute; intros [H|[]]; discriminate H).
  assert (Hne : items_in 4 σ ≠ []) by (vm_compute; discriminate).
  destruct (mouse_drop_adds_to_the_zone σ 4 2
              (Node 2 ({["dragging"]} ∪ {["draggable-item"]}) plain [])
              (Node 4 {["drop-zone"]} plain [item_y])
              eq_refl eq_refl eq_refl Hu eq_refl Hx Hout) as (_ & H1 & H2).
  split; [exact Hu|]. split; [exact Hne|].
  split; [exact (H1 eq_refl Hne)|exact H2].
Defined.

End DragDropSpec.

(** ** More of the blog list *)

Module BlogListMore.
Import BlogList BlogListSpec BlogListTerms.

(** *** Lower case, and sorting what is sorted *)

Lemma lower_ascii_idem c : JS.lower_ascii (JS.lower_ascii c) = JS.lower_ascii c.
Proof.
  destruct c as [[] [] [] [] [] [] [] []]; vm_compute; reflexivity.
Qed.

Lemma toLowerCase_idem s : JS.toLowerCase (JS.toLowerCase s) = JS.toLowerCase s.
Proof. induction s as [|c r IH]; cbn; [done|]. by rewrite lower_ascii_idem, IH. Qed.

Lemma sort_of_Sorted {A} (cmp : A -> A -> JS.number) l :
  Sorted (λ a b, JS.after cmp a b = false) l -> JS.sort cmp l = l.
Proof.
  induction 1 as [|x r Hs IH Hhd]; cbn; [done|].
  rewrite IH. destruct Hhd as [|y r Hxy]; cbn; [done|]. by rewrite Hxy.
Qed.

Section WithHost.
Variable host : Host.

(** *** The life of the controller *)

(** X1. In every state the controller reaches from its constructor by
    [init], [fetchData], [render], the three handlers and the passing of
    time, [items] and [filteredItems] are different arrays of the store
    and no cached array is the one [filteredItems] refers to; [page] is
    1, [perPage] is 10 and [cacheExpiry] is five minutes, no method moves
    the pagination cursor past the first page; so [render] never shows
    more than ten entries. *)
Theorem reachable_invariants σ :
  reachable host σ ->
  wf σ ∧ page (this σ) = 1 ∧ perPage (this σ) = 10 ∧
  cacheExpiry (this σ) = 300000 ∧
  (length (displayed (listContainer (this (render host σ)))) <= 10)%nat.
Proof.
  intros Hr. split; [by apply (reachable_wf host)|].
  destruct (reachable_constants host σ Hr) as (Hp & Hpp & He).
  split; [done|]. split; [done|]. split; [done|].
  rewrite (reachable_render_window host σ Hr), length_map, length_take. lia.
Qed.

(** *** Searching and filtering *)

(** X6. The search handler lower-cases the text of the field before
    anything else: a query and its lower-cased form leave the controller
    in the same state, and so do two queries that differ only in the case
    of their letters. *)
Theorem search_ignores_case v σ :
  onSearchInput host (JS.toLowerCase v) σ = onSearchInput host v σ ∧
  ∀ w, JS.toLowerCase w = JS.toLowerCase v ->
       onSearchInput host w σ = onSearchInput host v σ.
Proof.
  split.
  - unfold onSearchInput. by rewrite toLowerCase_idem.
  - intros w Hw. unfold onSearchInput. by rewrite Hw.
Qed.

(** X7. In a well-formed state, when the query or the filter value is
    not empty, a filter change followed by a search input and the same
    two in the other order leave the same entries in the same order in
    [filteredItems], namely filter, search and sort applied to [items],
    the same criteria and the same list on the page. *)
Theorem filter_and_search_commute f v σ :
  wf σ ->
  JS.truthy (JS.toLowerCase v) || JS.truthy f = true ->
  let σ1 := onSearchInput host v (onFilterChange host f σ) in
  let σ2 := onFilterChange host f (onSearchInput host v σ) in
  view σ1 = view σ2 ∧
  view σ1 = pipeline host f (JS.toLowerCase v) (currentSort (this σ)) (all_items σ) ∧
  currentFilter (this σ1) = currentFilter (this σ2) ∧
  currentSearch (this σ1) = currentSearch (this σ2) ∧
  currentSort (this σ1) = currentSort (this σ2) ∧
  listContainer (this σ1) = listContainer (this σ2).
Proof.
  intros Hwf Hc σ1 σ2.
  pose proof (onFilterChange_sees host f σ Hwf) as Hf.
  pose proof (onSearchInput_sees host v σ Hwf) as Hq.
  pose proof (onSearchInput_sees host v _ (fr_wf _ _ (proj1 Hf))) as Hfq.
  pose proof (onFilterChange_sees host f _ (fr_wf _ _ (proj1 Hq))) as Hqf.
  fold σ1 in Hfq. fold σ2 in Hqf.
  rewrite (sees_filter _ _ _ _ _ _ Hf), (sees_sort _ _ _ _ _ _ Hf),
    (sees_all_items _ _ _ _ _ _ Hf) in Hfq.
  rewrite (sees_search _ _ _ _ _ _ Hq), (sees_sort _ _ _ _ _ _ Hq),
    (sees_all_items _ _ _ _ _ _ Hq) in Hqf.
  rewrite (searched_pipeline host _ _ _ _ Hc) in Hfq.
  destruct Hfq as (Hfr1 & Hv1 & Hf1 & Hq1 & Hs1).
  destruct Hqf as (Hfr2 & Hv2 & Hf2 & Hq2 & Hs2).
  assert (Hl : ∀ τ, listContainer (this (onSearchInput host v τ)) =
                    listContainer (this (render host (onSearchInput host v τ)))).
  { intros τ. unfold onSearchInput. by rewrite !render_eq. }
  split; [congruence|]. split; [done|]. split; [congruence|].
  split; [congruence|]. split; [congruence|].
  assert (R1 : σ1 = render host σ1).
  { subst σ1. unfold onSearchInput. by rewrite !render_eq. }
  assert (R2 : σ2 = render host σ2).
  { subst σ2. unfold onFilterChange. by rewrite !render_eq. }
  rewrite R1, R2, !render_eq. cbn.
  assert (page (this σ1) = 1) as -> by apply (page_handle host (SearchInput v)).
  assert (page (this σ2) = 1) as -> by apply (page_handle host (FilterChange f)).
  rewrite Hv1, Hv2.
  by rewrite (fr_perPage _ _ Hfr1), (fr_perPage _ _ Hfr2),
    (fr_perPage _ _ (proj1 Hf)), (fr_perPage _ _ (proj1 Hq)).
Qed.

(** *** Sorting by a number *)

Lemma compare_sort_key by_ a b :
  by_ = "date" ∨ by_ = "reading_time" ->
  compare host by_ a b = JS.num_sub (sort_key host by_ b) (sort_key host by_ a).
Proof. by intros [-> | ->]. Qed.

Lemma after_sort_key by_ a b :
  by_ = "date" ∨ by_ = "reading_time" ->
  JS.after (compare host by_) a b = true ->
  ∃ x y, sort_key host by_ a = Some x ∧ sort_key host by_ b = Some y ∧ x < y.
Proof.
  intros Hby. unfold JS.after. rewrite (compare_sort_key _ _ _ Hby).
  destruct (sort_key host by_ a) as [x|], (sort_key host by_ b) as [y|]; cbn;
    try done.
  intros H%Z.ltb_lt. exists x, y. repeat split; lia.
Qed.

Lemma insert_sorted_stable by_ k x l :
  by_ = "date" ∨ by_ = "reading_time" ->
  List.filter (same_key (sort_key host by_) k)
    (JS.insert_sorted (compare host by_) x l) =
  List.filter (same_key (sort_key host by_) k) (x :: l).
Proof.
  intros Hby. induction l as [|y r IH]; [done|].
  cbn [JS.insert_sorted].
  destruct (JS.after (compare host by_) x y) eqn:E; [|done].
  apply (after_sort_key _ _ _ Hby) in E as (vx & vy & Hx & Hy & Hlt).
  cbn [List.filter]. rewrite IH. cbn [List.filter].
  assert (Hxy : same_key (sort_key host by_) k x
                && same_key (sort_key host by_) k y = false).
  { unfold same_key. rewrite Hx, Hy. apply andb_false_iff.
    destruct (decide (Some vx = k)) as [<-|]; [right|left];
      apply bool_decide_eq_false; [|done].
    intros [=]. lia. }
  destruct (same_key _ k x), (same_key _ k y); done.
Qed.

Lemma sort_stable by_ k l :
  by_ = "date" ∨ by_ = "reading_time" ->
  List.filter (same_key (sort_key host by_) k) (JS.sort (compare host by_) l) =
  List.filter (same_key (sort_key host by_) k) l.
Proof.
  intros Hby. induction l as [|x r IH]; [done|]. cbn [JS.sort].
  rewrite (insert_sorted_stable _ _ _ _ Hby). cbn [List.filter]. by rewrite IH.
Qed.

Lemma Sorted_not_below by_ l :
  by_ = "date" ∨ by_ = "reading_time" ->
  Forall (λ e, is_Some (sort_key host by_ e)) l ->
  Sorted (λ a b, JS.after (compare host by_) a b = false) l ->
  StronglySorted (not_below (sort_key host by_)) l.
Proof.
  intros Hby Hv Hs. apply Sorted_StronglySorted.
  - intros a b c (x & y & Ha & Hb & Hxy) (y' & z & Hb' & Hc & Hyz).
    exists x, z. repeat split; try done. assert (y = y') by congruence. lia.
  - induction Hs as [|a r Hs IH Hhd]; [constructor|].
    apply Forall_cons in Hv as [Ha Hr]. constructor; [by apply IH|].
    destruct Hhd as [|b r Hab]; constructor.
    apply Forall_cons in Hr as [Hb _].
    destruct Ha as [x Hx], Hb as [y Hy]. exists x, y.
    repeat split; try done.
    unfold JS.after in Hab. rewrite (compare_sort_key _ _ _ Hby), Hx, Hy in Hab.
    cbn in Hab. apply Z.ltb_ge in Hab. lia.
Qed.

(** X8. When every entry of [filteredItems] has a key that is a number
    of magnitude at most 2^53, a sort change to [date] or
    [reading_time] leaves [filteredItems] in descending order of the key,
    keeps entries of equal key in the order they had, and changes nothing
    when it is repeated. *)
Theorem numeric_sort_descends_and_is_stable by_ σ :
  by_ = "date" ∨ by_ = "reading_time" ->
  Forall (λ e, safe (sort_key host by_ e)) (view σ) ->
  let σ' := onSortChange host by_ σ in
  StronglySorted (not_below (sort_key host by_)) (view σ') ∧
  (∀ k, List.filter (same_key (sort_key host by_) k) (view σ') =
        List.filter (same_key (sort_key host by_) k) (view σ)) ∧
  view (onSortChange host by_ σ') = view σ'.
Proof.
  intros Hby Hsafe σ'. subst σ'.
  assert (Hv : Forall (λ e, is_Some (sort_key host by_ e)) (view σ)).
  { eapply List.Forall_impl; [|exact Hsafe]. intros e (z & -> & _). by eexists. }
  assert (Ht : JS.truthy by_ = true) by (by destruct Hby as [-> | ->]).
  rewrite !onSortChange_view. unfold apply_sort. rewrite Ht.
  pose proof (sort_Sorted (compare host by_) (view σ)
                (compare_numeric_asym host by_ Hby)) as Hs.
  split; [|split].
  - apply (Sorted_not_below _ _ Hby); [|done].
    eapply Permutation_Forall; [|exact Hv]. symmetry. apply sort_perm.
  - intros k. by apply sort_stable.
  - by apply sort_of_Sorted.
Qed.

(** X9. In a well-formed state with no filter set, a search input whose
    text is empty puts a copy of [items], in the order of [items], into
    [filteredItems]: [currentSort] keeps its value and is not applied. *)
Theorem cleared_search_shows_items_unsorted v σ :
  wf σ ->
  JS.toLowerCase v = "" ->
  currentFilter (this σ) = "" ->
  let σ' := onSearchInput host v σ in
  view σ' = all_items σ ∧ all_items σ' = all_items σ ∧
  currentSort (this σ') = currentSort (this σ) ∧
  currentSearch (this σ') = "".
Proof.
  intros Hwf Hv Hf σ'.
  destruct (onSearchInput_sees host v σ Hwf) as (Hfr & Hview & _ & Hq & Hs).
  fold σ' in Hfr, Hview, Hq, Hs.
  rewrite Hv, Hf in Hview. rewrite Hv in Hq.
  split; [done|]. split; [apply Hfr|done].
Qed.

(** *** Fetching *)

Lemma init_returned σ entries :
  fetchData (showLoading σ) = (Returned, stored entries (showLoading σ)) ->
  init host σ =
  hideLoading (render host (setupEventListeners (stored entries (showLoading σ)))).
Proof. intros H. unfold init. by rewrite H. Qed.

Lemma fetchData_first_attempt σ status entries :
  cached σ = None ->
  outcome (network σ (requests σ)) = Response true status (JSONArray entries) ->
  fetchData σ = (Returned, stored entries σ).
Proof.
  intros Hc Hn. unfold fetchData. rewrite Hc. cbn [retry_loop].
  by rewrite (attempt_succeeded _ _ _ Hn).
Qed.

Lemma fetchData_second_attempt σ status entries :
  cached σ = None ->
  failed (outcome (network σ (requests σ))) = true ->
  outcome (network σ (S (requests σ))) = Response true status (JSONArray entries) ->
  fetchData σ = (Returned, stored entries (second_try σ)).
Proof.
  intros Hc H1 H2. unfold fetchData. rewrite Hc.
  change (retry_loop 3 None σ) with
    (match attempt σ with
     | (inr tt, σ) => (inr tt, σ)
     | (inl error, σ) => retry_loop 2 (Some error) (sleep 1000 σ)
     end).
  rewrite (attempt_failed σ H1). fold (second_try σ).
  change (retry_loop 2 ?e ?s) with
    (match attempt s with
     | (inr tt, σ) => (inr tt, σ)
     | (inl error, σ) => retry_loop 1 (Some error) (sleep 2000 σ)
     end).
  rewrite (attempt_succeeded (second_try σ) status entries); [done|].
  by rewrite requests_second_try.
Qed.

(** X2. When the URL has no usable cache entry and the first request
    delivers an array, [init] puts that array into [items] and
    [filteredItems], shows its first [page * perPage] entries, or the
    no-results notice when there are none to show, registers the
    listeners, leaves the loading indicator hidden and the error container
    as it was, and has issued exactly one request. *)
Theorem init_shows_the_first_page σ status entries :
  cached σ = None ->
  outcome (network σ (requests σ)) = Response true status (JSONArray entries) ->
  let σ' := init host σ in
  let shown := JS.slice0 entries (page (this σ) * perPage (this σ)) in
  all_items σ' = entries ∧ view σ' = entries ∧
  listContainer (this σ') =
    (if bool_decide (shown = []) then NoResults
     else Articles (map (article host) shown)) ∧
  wired (this σ') = true ∧
  loadingIndicator (this σ') =
    (λ c : gset string, {["hidden"]} ∪ c ∖ {["hidden"]}) <$> loadingIndicator (this σ) ∧
  errorContainer (this σ') = errorContainer (this σ) ∧
  log σ' = (log σ ++ [Fetch (apiUrl (this σ))])%list.
Proof.
  intros Hc Hn σ' shown.
  assert (Hf : fetchData (showLoading σ) = (Returned, stored entries (showLoading σ)))
    by (by apply (fetchData_first_attempt _ status)).
  assert (E : σ' = hideLoading (render host (setupEventListeners
                                   (stored entries (showLoading σ)))))
    by (by apply init_returned).
  assert (Hv : view (stored entries (showLoading σ)) = entries)
    by apply view_stored.
  assert (Ha : all_items (stored entries (showLoading σ)) = entries)
    by apply all_items_stored.
  rewrite E, render_eq.
  split; [exact Ha|]. split; [exact Hv|].
  split.
  { cbn [hideLoading set_loadingIndicator set_this this listContainer
         set_listContainer].
    change (view (setupEventListeners (stored entries (showLoading σ))))
      with (view (stored entries (showLoading σ))).
    rewrite Hv.
    change (page (this (setupEventListeners (stored entries (showLoading σ)))))
      with (page (this σ)).
    change (perPage (this (setupEventListeners (stored entries (showLoading σ)))))
      with (perPage (this σ)).
    fold shown. destruct shown; [done|].
    by rewrite bool_decide_eq_false_2. }
  split; [done|]. split; [|done].
  cbn. destruct (loadingIndicator (this σ)); done.
Qed.

(** X3. When the URL has no usable cache entry and all three attempts
    fail, [fetchData] throws an error whose message is the last attempt's
    behind [Failed to fetch blogs: ], and leaves the controller object and
    the arrays as they were: only the clock and the log have moved, by
    three requests and the two waits of 1000ms and 2000ms. *)
Theorem failed_fetch_changes_nothing σ :
  cached σ = None ->
  failed (outcome (network σ (requests σ))) = true ->
  failed (outcome (network σ (S (requests σ)))) = true ->
  failed (outcome (network σ (S (S (requests σ))))) = true ->
  let url := apiUrl (this σ) in
  let σ' := (fetchData σ).2 in
  (fetchData σ).1 =
    Thrown (mkError ("Failed to fetch blogs: " +:+
                     error_text (outcome (network σ (S (S (requests σ))))))) ∧
  this σ' = this σ ∧ heap σ' = heap σ ∧
  log σ' = (log σ ++ [Fetch url; Timeout 1000; Fetch url; Timeout 2000;
                      Fetch url])%list ∧
  clock σ' =
    clock σ + latency (network σ (requests σ)) + 1000
    + latency (network σ (S (requests σ))) + 2000
    + latency (network σ (S (S (requests σ)))).
Proof.
  intros Hc H1 H2 H3 url σ'. subst url σ'.
  rewrite (fetchData_exhausted σ Hc H1 H2 H3). cbn [fst snd].
  split; [done|]. split; [done|]. split; [done|]. split.
  - unfold answered. cbn [fetch snd log set_clock set_log].
    rewrite log_third_try. by rewrite <- app_assoc.
  - unfold answered at 1. cbn [fetch snd clock set_clock set_log].
    rewrite requests_third_try.
    change (network (third_try σ)) with (network σ).
    change (clock (third_try σ)) with
      (clock (answered (second_try σ)) + 2000).
    unfold answered at 1. cbn [fetch snd clock set_clock set_log].
    rewrite requests_second_try.
    change (network (second_try σ)) with (network σ).
    change (clock (second_try σ)) with
      (clock σ + latency (network σ (requests σ)) + 1000).
    lia.
Qed.

(** X4. [fetchData] waits only after a failed attempt.  Without a usable
    cache entry, a first request that delivers an array is the only
    effect, and the cache entry is stamped with the time the response
    arrived; when the first attempt fails and the second delivers, there
    is one wait of 1000ms between the two requests. *)
Theorem fetch_waits_only_after_a_failure σ status entries :
  cached σ = None ->
  let url := apiUrl (this σ) in
  let σ' := (fetchData σ).2 in
  (outcome (network σ (requests σ)) = Response true status (JSONArray entries) ->
   (fetchData σ).1 = Returned ∧ all_items σ' = entries ∧ view σ' = entries ∧
   log σ' = (log σ ++ [Fetch url])%list ∧
   cache (this σ') !! url =
     Some (mkCacheEntry (items (this σ'))
             (clock σ + latency (network σ (requests σ))))) ∧
  (failed (outcome (network σ (requests σ))) = true ->
   outcome (network σ (S (requests σ))) = Response true status (JSONArray entries) ->
   (fetchData σ).1 = Returned ∧ all_items σ' = entries ∧ view σ' = entries ∧
   log σ' = (log σ ++ [Fetch url; Timeout 1000; Fetch url])%list ∧
   cache (this σ') !! url =
     Some (mkCacheEntry (items (this σ'))
             (clock σ + latency (network σ (requests σ)) + 1000
              + latency (network σ (S (requests σ)))))).
Proof.
  intros Hc url σ'. subst url σ'. split.
  - intros Hn. rewrite (fetchData_first_attempt σ status entries Hc Hn).
    cbn [fst snd]. rewrite all_items_stored, view_stored.
    split; [done|]. split; [done|]. split; [done|]. split; [done|].
    exact (cache_stored entries σ).
  - intros H1 H2. rewrite (fetchData_second_attempt σ status entries Hc H1 H2).
    cbn [fst snd]. rewrite all_items_stored, view_stored.
    split; [done|]. split; [done|]. split; [done|]. split.
    + rewrite log_stored. cbn. by rewrite <- !app_assoc.
    + pose proof (cache_stored entries (second_try σ)) as H.
      change (apiUrl (this (second_try σ))) with (apiUrl (this σ)) in H.
      rewrite H. f_equal. f_equal.
      unfold stored. cbn [clock assign_filteredItems alloc set_filteredItems
        set_this set_heap set_items set_cache].
      unfold answered. cbn [fetch snd clock set_clock set_log].
      rewrite requests_second_try. 
      change (network (second_try σ)) with (network σ).
      change (clock (second_try σ)) with
        (clock σ + latency (network σ (requests σ)) + 1000).
      done.
Qed.

End WithHost.

(** *** On concrete controllers *)

Import Samples.

Lemma reachable_invariants_witness :
  let σ := handle iso_host (SortChange "date") (loaded [post_a; post_b]) in
  reachable iso_host σ ∧ wf σ ∧ page (this σ) = 1 ∧
  (length (displayed (listContainer (this (render iso_host σ)))) <= 10)%nat.
Proof.
  intros σ.
  assert (Hr : reachable iso_host σ) by apply reach_handle, reach_init, reach_new.
  destruct (reachable_invariants iso_host σ Hr) as (H1 & H2 & _ & _ & H3).
  split; [exact Hr|]. split; [exact H1|]. split; [exact H2|exact H3].
Defined.

Lemma init_shows_the_first_page_witness :
  let σ := fresh_list full_container [delivers [post_a; post_b]] in
  cached σ = None ∧
  view (init iso_host σ) = [post_a; post_b] ∧
  listContainer (this (init iso_host σ)) =
    Articles [article iso_host post_a; article iso_host post_b] ∧
  log (init iso_host σ) = [Fetch (apiUrl (this σ))].
Proof.
  intros σ.
  destruct (init_shows_the_first_page iso_host σ 200 [post_a; post_b]
              eq_refl eq_refl) as (_ & H1 & H2 & _ & _ & _ & H3).
  split; [reflexivity|]. split; [exact H1|]. split; [exact H2|exact H3].
Defined.

Lemma failed_fetch_changes_nothing_witness :
  let σ := fresh_list full_container [server_error; wrong_shape; Rejected "offline"] in
  cached σ = None ∧
  (fetchData σ).1 = Thrown (mkError "Failed to fetch blogs: offline") ∧
  this (fetchData σ).2 = this σ ∧ heap (fetchData σ).2 = heap σ ∧
  clock (fetchData σ).2 = 3360.
Proof.
  intros σ.
  destruct (failed_fetch_changes_nothing σ eq_refl eq_refl eq_refl eq_refl)
    as (H1 & H2 & H3 & _ & H4).
  split; [reflexivity|]. split; [exact H1|]. split; [exact H2|].
  split; [exact H3|exact H4].
Defined.

Lemma fetch_waits_only_after_a_failure_witness :
  let σ := fresh_list full_container [server_error; delivers [post_a]] in
  cached σ = None ∧
  (fetchData σ).1 = Returned ∧ all_items (fetchData σ).2 = [post_a] ∧
  log (fetchData σ).2 =
    [Fetch (apiUrl (this σ)); Timeout 1000; Fetch (apiUrl (this σ))].
Proof.
  intros σ.
  destruct (fetch_waits_only_after_a_failure σ 200 [post_a] eq_refl) as [_ H].
  destruct (H eq_refl eq_refl) as (H1 & H2 & _ & H3 & _).
  split; [reflexivity|]. split; [exact H1|]. split; [exact H2|exact H3].
Defined.

Lemma second_fetch_uses_cache_witness :
  let σ := fresh_list full_container [server_error; delivers [post_a; post_b]] in
  let acts := [SortChange "reading_time"; FilterChange "y"] in
  let σ2 := tick 1000 (run iso_host acts (fetchData σ).2) in
  wf σ ∧ cached σ = None ∧ (fetchData σ).1 = Returned ∧
  requests (fetchData σ).2 = 2%nat ∧
  view σ2 = [post_b] ∧
  (fetchData σ2).1 = Returned ∧
  requests (fetchData σ2).2 = 2%nat ∧
  all_items (fetchData σ2).2 = [post_a; post_b].
Proof.
  intros σ acts σ2.
  assert (Hwf : wf σ) by apply wf_new.
  assert (Hr : (fetchData σ).1 = Returned) by (vm_compute; reflexivity).
  destruct (second_fetch_uses_cache iso_host σ acts 1000 Hwf eq_refl Hr eq_refl)
    as (_ & H1 & _ & H2 & H3).
  split; [exact Hwf|]. split; [reflexivity|]. split; [exact Hr|].
  split; [vm_compute; reflexivity|]. split; [vm_compute; reflexivity|].
  split; [exact H1|].
  split; (etransitivity; [first [exact H2|exact H3]|vm_compute; reflexivity]).
Defined.

Lemma filter_and_search_commute_witness :
  let σ := loaded [post_a; post_b; post_c] in
  wf σ ∧
  view (onSearchInput iso_host "C" (onFilterChange iso_host "x" σ)) =
    view (onFilterChange iso_host "x" (onSearchInput iso_host "C" σ)) ∧
  view (onSearchInput iso_host "C" (onFilterChange iso_host "x" σ)) = [post_c].
Proof.
  intros σ. assert (Hwf : wf σ) by apply wf_loaded.
  destruct (filter_and_search_commute iso_host "x" "C" σ Hwf eq_refl)
    as (H1 & H2 & _).
  split; [exact Hwf|]. split; [exact H1|].
  rewrite H2. vm_compute. reflexivity.
Defined.

Lemma numeric_sort_descends_and_is_stable_witness :
  let σ := loaded [post_a; post_b; post_c] in
  let σ' := onSortChange iso_host "reading_time" σ in
  Forall (λ e, safe (sort_key iso_host "reading_time" e)) (view σ) ∧
  view σ' = [post_b; post_c; post_a] ∧
  StronglySorted (not_below (sort_key iso_host "reading_time")) (view σ') ∧
  view (onSortChange iso_host "reading_time" σ') = view σ'.
Proof.
  intros σ σ'.
  assert (Hv : view σ = [post_a; post_b; post_c]) by (vm_compute; reflexivity).
  assert (Hs : Forall (λ e, safe (sort_key iso_host "reading_time" e)) (view σ)).
  { rewrite Hv.
    repeat (apply List.Forall_cons;
            [eexists; split; [reflexivity|split; vm_compute; discriminate]|]).
    apply List.Forall_nil. }
  destruct (numeric_sort_descends_and_is_stable iso_host "reading_time" σ
              (or_intror eq_refl) Hs) as (H1 & _ & H2).
  split; [exact Hs|]. split; [vm_compute; reflexivity|].
  split; [exact H1|exact H2].
Defined.

Lemma cleared_search_shows_items_unsorted_witness :
  let σ :=
    run iso_host [SortChange "reading_time"; SearchInput "b"]
      (loaded [post_a; post_b; post_c]) in
  wf σ ∧ currentFilter (this σ) = "" ∧ view σ = [post_b] ∧
  view (onSearchInput iso_host "" σ) = [post_a; post_b; post_c] ∧
  currentSort (this (onSearchInput iso_host "" σ)) = "reading_time".
Proof.
  intros σ.
  assert (Hwf : wf σ).
  { apply (reachable_wf iso_host),
      (reach_handle iso_host (SearchInput "b")),
      (reach_handle iso_host (SortChange "reading_time")),
      reach_init, reach_new. }
  assert (Hf : currentFilter (this σ) = "") by (vm_compute; reflexivity).
  destruct (cleared_search_shows_items_unsorted iso_host "" σ Hwf eq_refl Hf)
    as (H1 & _ & H2 & _).
  split; [exact Hwf|]. split; [exact Hf|]. split; [vm_compute; reflexivity|].
  split; [rewrite H1|rewrite H2]; vm_compute; reflexivity.
Defined.

End BlogListMore.

(** ** The search field *)

Module SearchFieldSpec.
Import BlogList SearchField.

Section WithHost.
Variable host : Host.

Lemma tick_tick a b σ : tick a (tick b σ) = tick (b + a) σ.
Proof. unfold tick, set_clock. cbn. f_equal. lia. Qed.

Lemma elapse_early d w due :
  t w = Some due -> clock (controller w) + d < due ->
  elapse host d w = mkField (tick d (controller w)) (value w) (Some due).
Proof.
  intros Ht Hd. unfold elapse, Date_now. rewrite Ht.
  by destruct (Z.leb_spec due (clock (controller w) + d)); [lia|].
Qed.

Lemma elapse_due d w due :
  t w = Some due -> due <= clock (controller w) + d ->
  elapse host d w =
  mkField
    (tick (clock (controller w) + d - due)
       (onSearchInput host (value w)
          (tick (due - clock (controller w)) (controller w))))
    (value w) None.
Proof.
  intros Ht Hd. unfold elapse, Date_now. rewrite Ht.
  by destruct (Z.leb_spec due (clock (controller w) + d)); [|lia].
Qed.

Lemma duration_snoc keys g u : duration (keys ++ [(g, u)]) = duration keys + g.
Proof.
  unfold duration. rewrite List.map_app, List.fold_right_app. cbn.
  generalize (map fst keys). intros l. induction l as [|x l IHl]; cbn; lia.
Qed.

Lemma typing_pending keys v w :
  Forall (λ k, 0 <= k.1 < 250) keys ->
  typing host keys (input v w) =
  mkField (tick (duration keys) (controller w)) (typed v keys)
    (Some (clock (controller w) + duration keys + 250)).
Proof.
  intros Hk. induction keys as [|[g u] keys IH] using rev_ind.
  - cbn. unfold input, Date_now. f_equal.
    + unfold tick, set_clock. destruct (controller w). cbn. f_equal. lia.
    + f_equal. lia.
  - apply Forall_app in Hk as [Hk Hg]. apply Forall_cons in Hg as [Hg _].
    cbn in Hg. unfold typing in *. rewrite fold_left_app. cbn [fold_left].
    rewrite (IH Hk). cbn [fst snd].
    erewrite elapse_early; [|done|cbn; lia].
    unfold input, Date_now. cbn [controller value t].
    rewrite !tick_tick, duration_snoc.
    change (clock (tick ?d ?s)) with (clock s + d). f_equal.
    unfold typed. rewrite List.map_app. cbn [map snd]. by rewrite last_snoc.
Qed.

(** X10. The listener on the search field debounces.  After an input
    event followed by any number of further ones, each less than 250ms
    after the one before it, and then 250ms or more without an event,
    [onSearchInput] has run exactly once, 250ms after the last event, on
    the text the field held then; no timer is left pending. *)
Theorem typing_runs_one_search keys v d w :
  Forall (λ k, 0 <= k.1 < 250) keys ->
  250 <= d ->
  elapse host d (typing host keys (input v w)) =
  mkField
    (tick (d - 250)
       (onSearchInput host (typed v keys)
          (tick (duration keys + 250) (controller w))))
    (typed v keys) None.
Proof.
  intros Hk Hd. rewrite (typing_pending _ _ _ Hk).
  erewrite elapse_due; [|done|cbn; lia].
  cbn [controller value]. change (clock (tick ?d ?s)) with (clock s + d).
  rewrite tick_tick. f_equal.
  replace (clock (controller w) + duration keys + d -
           (clock (controller w) + duration keys + 250)) with (d - 250) by lia.
  do 3 f_equal. lia.
Qed.

End WithHost.

Import Samples.

Lemma typing_runs_one_search_witness :
  let keys := [(100, "bx"); (200, "B")] in
  let w := elapse iso_host 250 (typing iso_host keys (input "b" search_field)) in
  Forall (λ k, 0 <= k.1 < 250) keys ∧
  t w = None ∧
  currentSearch (this (controller w)) = "b" ∧
  view (controller w) = [post_b] ∧
  clock (controller w) = clock (controller search_field) + 550.
Proof.
  intros keys w.
  assert (Hk : Forall (λ k : Z * string, 0 <= k.1 < 250) keys).
  { repeat (apply List.Forall_cons; [cbn; lia|]). apply List.Forall_nil. }
  assert (Hd : 250 <= 250) by lia.
  pose proof (typing_runs_one_search iso_host keys "b" 250 search_field Hk Hd) as E.
  fold w in E.
  split; [exact Hk|]. rewrite E. clear E w.
  split; [reflexivity|]. split; [vm_compute; reflexivity|].
  split; vm_compute; reflexivity.
Defined.

End SearchFieldSpec.

(** ** The navigation bar in its page *)

Module NavigationPageSpec.
Import NavigationPage.



Lemma show_bool_true b : Navigation.show_bool b = "true" ↔ b = true.
Proof. by destruct b. Qed.





Lemma bar_highlightNavLink id p : bar (highlightNavLink id p) = bar p.
Proof. done. Qed.










(** *** Highlighting *)

Lemma lookup_highlightNavLink id p j :
  navLinks (highlightNavLink id p) !! j =
  (λ link,
     if String.eqb (slice1 (href link)) id then
       mkLink (href link) ({["active"]} ∪ classList link)
         (<["aria-current" := "true"]> (attributes link))
     else
       mkLink (href link) (classList link ∖ {["active"]})
         (delete "aria-current" (attributes link))) <$> navLinks p !! j.
Proof. unfold highlightNavLink. cbn. apply list_lookup_fmap. Qed.

(** X13. [highlightNavLink] marks the links of the section and no
    other: afterwards a link has the class [active] and [aria-current]
    set to [true] exactly when its [href] without the first character is
    the section id, and has neither otherwise; its [href], its other
    classes and its other attributes are as before.  When no two links
    lead to the same section, at most one link is active. *)
Theorem highlightNavLink_marks_the_matching_links id p :
  let q := highlightNavLink id p in
  length (navLinks q) = length (navLinks p) ∧
  (∀ j l, navLinks p !! j = Some l ->
     ∃ l', navLinks q !! j = Some l' ∧ href l' = href l ∧
       (active l' ↔ slice1 (href l) = id) ∧
       attributes l' !! "aria-current" =
         (if String.eqb (slice1 (href l)) id then Some "true" else None) ∧
       (∀ c, c ≠ "active" -> c ∈ classList l' ↔ c ∈ classList l) ∧
       (∀ a, a ≠ "aria-current" -> attributes l' !! a = attributes l !! a)) ∧
  (NoDup (map (λ l, slice1 (href l)) (navLinks p)) ->
   ∀ j k l1 l2, navLinks q !! j = Some l1 -> navLinks q !! k = Some l2 ->
                active l1 -> active l2 -> j = k).
Proof.
  intros q.
  assert (Hmark : ∀ j l, navLinks p !! j = Some l ->
     ∃ l', navLinks q !! j = Some l' ∧ href l' = href l ∧
       (active l' ↔ slice1 (href l) = id) ∧
       attributes l' !! "aria-current" =
         (if String.eqb (slice1 (href l)) id then Some "true" else None) ∧
       (∀ c, c ≠ "active" -> c ∈ classList l' ↔ c ∈ classList l) ∧
       (∀ a, a ≠ "aria-current" -> attributes l' !! a = attributes l !! a)).
  { intros j l Hl. subst q. rewrite lookup_highlightNavLink, Hl. cbn.
    eexists. split; [done|]. unfold active.
    destruct (String.eqb_spec (slice1 (href l)) id) as [E|E]; cbn.
    - split; [done|]. split; [set_solver|]. split; [apply lookup_insert_eq|].
      split; [set_solver|]. intros a Ha. by apply lookup_insert_ne.
    - split; [done|]. split; [set_solver|]. split; [apply lookup_delete_eq|].
      split; [set_solver|]. intros a Ha. by apply lookup_delete_ne. }
  split; [|split; [exact Hmark|]].
  - subst q. unfold highlightNavLink. cbn. apply length_map.
  - intros Hnd j k l1 l2 H1 H2 A1 A2.
    subst q. rewrite lookup_highlightNavLink in H1, H2.
    destruct (navLinks p !! j) as [m1|] eqn:E1; [|done].
    destruct (navLinks p !! k) as [m2|] eqn:E2; [|done].
    destruct (Hmark j m1 E1) as (l1' & Hl1 & _ & Ha1 & _).
    destruct (Hmark k m2 E2) as (l2' & Hl2 & _ & Ha2 & _).
    rewrite lookup_highlightNavLink, E1 in Hl1.
    rewrite lookup_highlightNavLink, E2 in Hl2.
    assert (l1' = l1) as -> by congruence.
    assert (l2' = l2) as -> by congruence.
    apply Ha1 in A1. apply Ha2 in A2.
    apply (NoDup_lookup _ j k (slice1 (href m1))) in Hnd; [done|..].
    + by rewrite list_lookup_fmap, E1.
    + rewrite list_lookup_fmap, E2. cbn. congruence.
Qed.

Lemma highlightNavLink_absorbs a b p :
  highlightNavLink b (highlightNavLink a p) = highlightNavLink b p.
Proof.
  unfold highlightNavLink. cbn. unfold set_navLinks. cbn. f_equal.
  rewrite map_map. apply map_ext. intros [h c at_]. cbn.
  destruct (String.eqb (slice1 h) a); cbn;
    destruct (String.eqb (slice1 h) b); cbn; f_equal.
  - set_solver.
  - apply insert_insert_eq.
  - set_solver.
  - apply delete_insert_eq.
  - apply set_eq. intros x. destruct (decide (x = "active")); set_solver.
  - apply insert_delete_eq.
  - set_solver.
  - apply delete_delete_eq.
Qed.

Lemma sections_highlightNavLink id p :
  sections (highlightNavLink id p) = sections p.
Proof. done. Qed.

Lemma observerCallback_snoc entries e p :
  observerCallback (entries ++ [e]) p =
  let p' := observerCallback entries p in
  if qualifies e
  then highlightNavLink (default "" (sections p' !! entry_target e)) p'
  else p'.
Proof. unfold observerCallback. by rewrite fold_left_app. Qed.

Lemma sections_observerCallback entries p :
  sections (observerCallback entries p) = sections p.
Proof.
  induction entries as [|e r IH] using rev_ind; [done|].
  rewrite observerCallback_snoc. cbv zeta. by destruct (qualifies e).
Qed.

(** X14. A report of the intersection observer highlights the section
    of the last entry in it that intersects with a ratio of one half or
    more, and changes nothing when there is no such entry. *)
Theorem last_qualifying_entry_is_highlighted entries p :
  observerCallback entries p =
  match last (List.filter qualifies entries) with
  | Some e => highlightNavLink (default "" (sections p !! entry_target e)) p
  | None => p
  end.
Proof.
  induction entries as [|e r IH] using rev_ind; [done|].
  rewrite observerCallback_snoc, List.filter_app. cbv zeta. cbn [List.filter].
  rewrite sections_observerCallback.
  destruct (qualifies e).
  - rewrite last_snoc, IH.
    destruct (last (List.filter qualifies r)); [|done].
    apply highlightNavLink_absorbs.
  - by rewrite app_nil_r.
Qed.


(** *** The keyboard *)


Lemma handleKeydown_down key p :
  menu_open (bar p) -> down key ->
  handleKeydown key p =
  focus (js_rem (indexOf_activeElement p + 1) (Z.of_nat (length (navLinks p)))) p.
Proof.
  intros Ho Hk. unfold handleKeydown.
  assert (String.eqb key "Escape" = false) as -> by (by destruct Hk as [-> | ->]).
  rewrite (bool_decide_eq_true_2 _ Ho). cbv zeta.
  assert (String.eqb key "ArrowDown" || String.eqb key "ArrowRight" = true) as ->
    by (by destruct Hk as [-> | ->]).
  assert (String.eqb key "ArrowUp" || String.eqb key "ArrowLeft" = false) as ->
    by (by destruct Hk as [-> | ->]).
  by destruct (focus _ p).
Qed.

Lemma handleKeydown_up key p :
  menu_open (bar p) -> up key ->
  handleKeydown key p =
  focus (js_rem (indexOf_activeElement p - 1 + Z.of_nat (length (navLinks p)))
           (Z.of_nat (length (navLinks p)))) p.
Proof.
  intros Ho Hk. unfold handleKeydown.
  assert (String.eqb key "Escape" = false) as -> by (by destruct Hk as [-> | ->]).
  rewrite (bool_decide_eq_true_2 _ Ho). cbv zeta.
  assert (String.eqb key "ArrowDown" || String.eqb key "ArrowRight" = false) as ->
    by (by destruct Hk as [-> | ->]).
  assert (String.eqb key "ArrowUp" || String.eqb key "ArrowLeft" = true) as ->
    by (by destruct Hk as [-> | ->]).
  done.
Qed.

Lemma focus_in_range i p :
  (i < length (navLinks p))%nat ->
  focus (Some (Z.of_nat i)) p = Some (set_activeElement (Some i) p).
Proof.
  intros Hi. unfold focus.
  destruct (Z.leb_spec 0 (Z.of_nat i)); [|lia].
  destruct (Z.ltb_spec (Z.of_nat i) (Z.of_nat (length (navLinks p)))); [|lia].
  cbn. by rewrite Nat2Z.id.
Qed.

Lemma js_rem_nat a n :
  (0 < n)%nat -> js_rem (Z.of_nat a) (Z.of_nat n) = Some (Z.of_nat (a mod n)).
Proof.
  intros Hn. unfold js_rem. destruct (Z.eqb_spec (Z.of_nat n) 0); [lia|].
  rewrite Z.rem_mod_nonneg by lia. by rewrite Nat2Z.inj_mod.
Qed.

Lemma set_activeElement_same i p :
  activeElement p = Some i -> set_activeElement (Some i) p = p.
Proof. destruct p. cbn. by intros ->. Qed.

(** X15. With the menu open and the focus on a link, ArrowDown and
    ArrowRight move the focus to the next link and from the last link to
    the first; ArrowUp and ArrowLeft move it to the link before and from
    the first link to the last; one of each, in either order, brings the
    page back to where it was. *)
Theorem arrow_keys_cycle_the_focus (i : nat) p :
  menu_open (bar p) ->
  activeElement p = Some i ->
  (i < length (navLinks p))%nat ->
  let n := length (navLinks p) in
  (∀ key, down key ->
     handleKeydown key p = Some (set_activeElement (Some ((i + 1) mod n)%nat) p)) ∧
  (∀ key, up key ->
     handleKeydown key p =
     Some (set_activeElement (Some ((i + n - 1) mod n)%nat) p)) ∧
  (∀ key key', down key -> up key' ->
     handleKeydown key p ≫= handleKeydown key' = Some p ∧
     handleKeydown key' p ≫= handleKeydown key = Some p).
Proof.
  intros Ho Ha Hi n.
  assert (Hn : (0 < n)%nat) by (subst n; lia).
  assert (Hdown : ∀ j q key, menu_open (bar q) -> activeElement q = Some j ->
            length (navLinks q) = n -> down key ->
            handleKeydown key q =
            Some (set_activeElement (Some ((j + 1) mod n)%nat) q)).
  { intros j q key Hoq Haq Hnq Hk. rewrite (handleKeydown_down _ _ Hoq Hk).
    unfold indexOf_activeElement. rewrite Haq, Hnq.
    replace (Z.of_nat j + 1) with (Z.of_nat (j + 1)) by lia.
    rewrite (js_rem_nat _ _ Hn). apply focus_in_range.
    rewrite Hnq. apply Nat.mod_upper_bound. lia. }
  assert (Hup : ∀ j q key, menu_open (bar q) -> activeElement q = Some j ->
            length (navLinks q) = n -> up key ->
            handleKeydown key q =
            Some (set_activeElement (Some ((j + n - 1) mod n)%nat) q)).
  { intros j q key Hoq Haq Hnq Hk. rewrite (handleKeydown_up _ _ Hoq Hk).
    unfold indexOf_activeElement. rewrite Haq, Hnq.
    replace (Z.of_nat j - 1 + Z.of_nat n) with (Z.of_nat (j + n - 1)) by lia.
    rewrite (js_rem_nat _ _ Hn). apply focus_in_range.
    rewrite Hnq. apply Nat.mod_upper_bound. lia. }
  split; [intros key; by apply Hdown|]. split; [intros key; by apply Hup|].
  assert (Hdu : ((((i + 1) mod n) + n - 1) mod n = i)%nat).
  { destruct (decide (i + 1 = n)%nat) as [E|E].
    - rewrite E, Nat.Div0.mod_same. rewrite Nat.mod_small; lia.
    - rewrite (Nat.mod_small (i + 1)) by lia.
      replace (i + 1 + n - 1)%nat with (i + 1 * n)%nat by lia.
      rewrite Nat.Div0.mod_add. apply Nat.mod_small. lia. }
  assert (Hud : ((((i + n - 1) mod n) + 1) mod n = i)%nat).
  { destruct (decide (i = 0)%nat) as [E|E].
    - subst i. rewrite (Nat.mod_small (0 + n - 1)) by lia.
      replace (0 + n - 1 + 1)%nat with n by lia. apply Nat.Div0.mod_same.
    - replace (i + n - 1)%nat with (i - 1 + 1 * n)%nat by lia.
      rewrite Nat.Div0.mod_add, (Nat.mod_small (i - 1)) by lia.
      replace (i - 1 + 1)%nat with i by lia. apply Nat.mod_small. lia. }
  intros key key' Hk Hk'. split.
  - rewrite (Hdown i p key Ho Ha eq_refl Hk). cbn [mbind option_bind].
    rewrite (Hup ((i + 1) mod n)%nat _ key'); [|done..].
    rewrite Hdu. f_equal. rewrite <- (set_activeElement_same i p Ha) at 2.
    by destruct p.
  - rewrite (Hup i p key' Ho Ha eq_refl Hk'). cbn [mbind option_bind].
    rewrite (Hdown ((i + n - 1) mod n)%nat _ key); [|done..].
    rewrite Hud. f_equal. rewrite <- (set_activeElement_same i p Ha) at 2.
    by destruct p.
Qed.

(** X16. With the menu open and the focus on no link: when there are
    links, ArrowDown and ArrowRight focus the first one, and ArrowUp and
    ArrowLeft the last but one (the only one when there is one); when
    there is no link, each of the four keys makes the handler throw. *)
Theorem arrow_keys_with_the_focus_elsewhere p :
  menu_open (bar p) ->
  activeElement p = None ->
  let n := length (navLinks p) in
  (n = 0%nat -> ∀ key, down key ∨ up key -> handleKeydown key p = None) ∧
  ((0 < n)%nat ->
   (∀ key, down key ->
      handleKeydown key p = Some (set_activeElement (Some 0%nat) p)) ∧
   (∀ key, up key ->
      handleKeydown key p = Some (set_activeElement (Some (n - 2)%nat) p))).
Proof.
  intros Ho Ha n. split.
  - intros Hn key [Hk|Hk].
    + rewrite (handleKeydown_down _ _ Ho Hk). fold n. by rewrite Hn.
    + rewrite (handleKeydown_up _ _ Ho Hk). fold n. by rewrite Hn.
  - intros Hn. split; intros key Hk.
    + rewrite (handleKeydown_down _ _ Ho Hk).
      unfold indexOf_activeElement. rewrite Ha. fold n.
      change (-1 + 1) with (Z.of_nat 0). rewrite (js_rem_nat _ _ Hn).
      rewrite Nat.mod_small by lia. apply focus_in_range. fold n. lia.
    + rewrite (handleKeydown_up _ _ Ho Hk).
      unfold indexOf_activeElement. rewrite Ha. fold n.
      destruct (decide (n = 1%nat)) as [E|E].
      * rewrite E. cbn. unfold focus. fold n. rewrite E. done.
      * replace (-1 - 1 + Z.of_nat n) with (Z.of_nat (n - 2)) by lia.
        rewrite (js_rem_nat _ _ Hn), Nat.mod_small by lia.
        apply focus_in_range. fold n. lia.
Qed.

(** X17. Escape closes the menu, whatever its state: the link list
    loses [nav-list--visible] and [aria-expanded] is [false], and the
    focus stays where it is.  While the menu is closed no other key
    changes anything. *)
Theorem escape_closes_the_menu p :
  handleKeydown "Escape" p = Some (closeNav p) ∧
  ¬ menu_open (bar (closeNav p)) ∧
  Navigation.navToggle_attributes (bar (closeNav p)) !! "aria-expanded" =
    Some "false" ∧
  (∀ key, ¬ menu_open (bar p) -> key ≠ "Escape" -> handleKeydown key p = Some p).
Proof.
  assert (Hc : ¬ menu_open (bar (closeNav p))).
  { unfold menu_open. cbn. set_solver. }
  split; [|split; [done|split]].
  - unfold handleKeydown. cbn [String.eqb Ascii.eqb Bool.eqb].
    by rewrite (bool_decide_eq_false_2 _ Hc).
  - cbn. apply lookup_insert_eq.
  - intros key Ho Hk. unfold handleKeydown.
    destruct (String.eqb_spec key "Escape"); [done|].
    by rewrite (bool_decide_eq_false_2 _ Ho).
Qed.


(** *** Link clicks *)

(** X18. A click on a link whose [href] names no element of the
    document changes nothing.  When it names one, the click scrolls to
    it, pushes [#id] on the history, makes the links of that section the
    active ones, the clicked link among them, and closes the menu when
    the viewport is narrower than 768px; it leaves the menu alone on a
    wider one, and the focus and the timers in both cases. *)
Theorem link_click_navigates i link p :
  navLinks p !! i = Some link ->
  let id := slice1 (href link) in
  let q := onLinkClick i p in
  (getElementById id p = false -> q = p) ∧
  (getElementById id p = true ->
   effects q = (effects p ++ [ScrollIntoView id; PushState ("#" +:+ id)])%list ∧
   navLinks q = navLinks (highlightNavLink id p) ∧
   (∃ l', navLinks q !! i = Some l' ∧ active l' ∧
          attributes l' !! "aria-current" = Some "true") ∧
   bar q =
     (if Navigation.innerWidth (bar p) <? 768 then Navigation.closeNav (bar p)
      else bar p) ∧
   activeElement q = activeElement p ∧ timers q = timers p).
Proof.
  intros Hl id q. subst q. unfold onLinkClick. rewrite Hl. fold id. split.
  - by intros ->.
  - intros ->. cbv zeta.
    assert (Hlinks : ∀ r, navLinks (if Navigation.innerWidth (bar p) <? 768
                                   then closeNav p else p) = navLinks p)
      by (by destruct (_ <? _)).
    split; [|split; [|split; [|split]]].
    + cbn. destruct (_ <? _); cbn; by rewrite <- app_assoc.
    + cbn. by destruct (_ <? _).
    + rewrite lookup_highlightNavLink. cbn.
      assert (navLinks (if Navigation.innerWidth (bar p) <? 768
                        then closeNav p else p) !! i = Some link) as ->
        by (by destruct (_ <? _)).
      cbn. fold id. rewrite String.eqb_refl. eexists. split; [done|].
      split; [unfold active; cbn; set_solver|apply lookup_insert_eq].
    + cbn. by destruct (_ <? _).
    + cbn. by destruct (_ <? _).
Qed.

(** *** Set-up and tear-down *)


Lemma fold_link_listeners ix p :
  fold_left
    (λ p i, set_listeners (listeners p ++ [link_listener i]) p) ix p =
  set_listeners (listeners p ++ map link_listener ix) p.
Proof.
  revert p. induction ix as [|i r IH]; intros p; cbn [fold_left map].
  - rewrite app_nil_r. by destruct p.
  - rewrite IH. cbn. by rewrite <- app_assoc.
Qed.

Lemma fold_observe ix p :
  NoDup ix -> observed p = [] ->
  fold_left (λ p i, observe i p) ix p = set_observed ix p.
Proof.
  intros Hnd Ho.
  assert (H : ∀ p, NoDup (observed p ++ ix) ->
            fold_left (λ p i, observe i p) ix p =
            set_observed (observed p ++ ix) p).
  { clear. induction ix as [|i r IH]; intros p Hnd; cbn [fold_left].
    - rewrite app_nil_r. by destruct p.
    - unfold observe at 2. rewrite bool_decide_eq_false_2.
      + rewrite IH; cbn; rewrite <- app_assoc; done.
      + apply NoDup_app in Hnd as (_ & Hd & _). intros Hi.
        apply (Hd i Hi). by left. }
  rewrite H; rewrite Ho; done.
Qed.


Ltac bind_page q :=
  lazymatch goal with
  | |- (let x := ?e in @?b x) = ?r => set (q := e); change (b q = r); cbv beta
  end.

Lemma addEventListener_new l p q :
  q = addEventListener l p -> l ∉ listeners p ->
  q = set_listeners (listeners p ++ [l]) p.
Proof.
  intros -> Hl. unfold addEventListener. by rewrite bool_decide_eq_false_2.
Qed.

Lemma new_eq bar0 links secs ids h act :
  new bar0 links secs ids h act =
  mkPage (Navigation.handleResize bar0) links secs ids h act []
    (if JS.truthy h && JS.truthy (slice1 h) && bool_decide (slice1 h ∈ ids)
     then [ScrollTo (slice1 h)] else [])
    (bound_listeners ++ map link_listener (seq 0 (length links)))
    (seq 0 (length secs)).
Proof.
  unfold new. cbv beta delta [init].
  bind_page p1.
  assert (E1 : p1 = mkPage bar0 links secs ids h act [] [] [] (seq 0 (length secs))).
  { subst p1. cbn [sections]. rewrite fold_observe; [done|apply NoDup_seq|done]. }
  rewrite E1. clear p1 E1.
  do 4 (bind_page p1;
        pose proof (addEventListener_new _ _ p1 eq_refl ltac:(cbn; set_solver))
          as E;
        cbn [set_listeners bar navLinks sections element_ids hash activeElement
               effects timers listeners observed app] in E;
        rewrite E; clear p1 E).
  bind_page p1.
  assert (E1 : p1 = mkPage bar0 links secs ids h act [] []
                      (bound_listeners ++ map link_listener (seq 0 (length links)))
                      (seq 0 (length secs))).
  { subst p1. cbn [navLinks]. fold link_listener.
    by rewrite (fold_link_listeners (seq 0 (length links))). }
  rewrite E1. clear p1 E1.
  bind_page p1. subst p1.
  cbn. unfold getElementById. cbn.
  destruct (JS.truthy h); cbn; [|done].
  destruct (JS.truthy (slice1 h)); cbn; [|done].
  by destruct (bool_decide _).
Qed.

Lemma filter_link_listeners (P : Listener -> bool) ix :
  (∀ i, P (link_listener i) = true) ->
  List.filter P (map link_listener ix) = map link_listener ix.
Proof.
  intros H. induction ix as [|i r IH]; cbn; [done|]. by rewrite H, IH.
Qed.

Lemma filter_link_listeners_none (P : Listener -> bool) ix :
  (∀ i, P (link_listener i) = false) ->
  List.filter P (map link_listener ix) = [].
Proof.
  intros H. induction ix as [|i r IH]; cbn; [done|]. by rewrite H, IH.
Qed.

Lemma filter_click_link i n :
  (i < n)%nat ->
  List.filter (listens (Click (NavLink i))) (map link_listener (seq 0 n)) =
  [link_listener i].
Proof.
  intros Hi. induction n as [|n IH]; [lia|].
  rewrite seq_S, map_app, List.filter_app. cbn.
  destruct (decide (i = n)) as [->|Hne].
  - unfold listens at 2. cbn. rewrite bool_decide_eq_true_2 by done. cbn.
    assert (∀ m k, (m + k <= n)%nat ->
              List.filter (listens (Click (NavLink n)))
                (map link_listener (seq m k)) = []) as ->; [|done|lia].
    clear. intros m k. revert m. induction k as [|k IH]; intros m Hm; [done|].
    cbn. unfold listens at 1. cbn.
    rewrite bool_decide_eq_false_2 by (intros [=]; lia). cbn. apply IH. lia.
  - unfold listens at 2. cbn.
    rewrite bool_decide_eq_false_2 by (intros [=]; lia). cbn.
    rewrite app_nil_r. apply IH. lia.
Qed.

Lemma destroy_eq b l s ids h a eff tm ix obs :
  destroy (mkPage b l s ids h a eff tm (bound_listeners ++ map link_listener ix) obs) =
  mkPage b l s ids h a eff tm (map link_listener ix) [].
Proof.
  unfold destroy, removeEventListener, set_listeners, set_observed.
  cbn [bar navLinks sections element_ids hash activeElement effects timers
       listeners observed].
  f_equal. rewrite !List.filter_app, !filter_link_listeners by done.
  done.
Qed.

(** X19. [new Navigation()] registers the four bound methods and one
    click listener for each link, and observes every section.  [destroy]
    stops the observer and removes the four bound methods, so that
    reports, clicks on the toggle and key presses do nothing any more;
    the click listeners of the links stay, and a click on a link is
    handled as before. *)
Theorem destroy_leaves_the_link_listeners bar0 links secs ids h act :
  let p := new bar0 links secs ids h act in
  let q := destroy p in
  listeners p = (bound_listeners ++ map link_listener (seq 0 (length links)))%list ∧
  observed p = seq 0 (length secs) ∧
  listeners q = map link_listener (seq 0 (length links)) ∧
  observed q = [] ∧
  (∀ entries, report entries q = q) ∧
  dispatch (Click NavToggle) q = q ∧
  (∀ key, dispatch (Keydown key) q = q) ∧
  (∀ i, (i < length links)%nat ->
        dispatch (Click (NavLink i)) q = onLinkClick i q).
Proof.
  intros p q. subst q p. rewrite new_eq, destroy_eq.
  split; [done|]. split; [done|]. split; [done|]. split; [done|].
  split; [|split; [|split]].
  - intros entries. unfold report. cbn [observed].
    assert (List.filter (λ e, bool_decide (entry_target e ∈ @nil nat)) entries = [])
      as ->; [|done].
    induction entries as [|e r IH]; [done|]. cbn.
    rewrite bool_decide_eq_false_2 by set_solver. exact IH.
  - unfold dispatch. cbn [listeners]. by rewrite filter_link_listeners_none.
  - intros key. unfold dispatch. cbn [listeners].
    by rewrite filter_link_listeners_none.
  - intros i Hi. unfold dispatch. cbn [listeners].
    by rewrite (filter_click_link _ _ Hi).
Qed.


(** *** On a concrete page *)

Import Samples.



Lemma arrow_keys_cycle_the_focus_witness :
  menu_open (bar nav_on_last) ∧ activeElement nav_on_last = Some 2%nat ∧
  activeElement <$> handleKeydown "ArrowDown" nav_on_last = Some (Some 0%nat) ∧
  activeElement <$> handleKeydown "ArrowLeft" nav_on_last = Some (Some 1%nat) ∧
  handleKeydown "ArrowDown" nav_on_last ≫= handleKeydown "ArrowUp" =
    Some nav_on_last.
Proof.
  assert (Ho : menu_open (bar nav_on_last))
    by (apply (bool_decide_unpack _); vm_compute; exact I).
  assert (Hl : (2 < length (navLinks nav_on_last))%nat) by (vm_compute; lia).
  destruct (arrow_keys_cycle_the_focus 2 nav_on_last Ho eq_refl Hl)
    as (Hd & Hu & Hb).
  split; [exact Ho|]. split; [reflexivity|].
  split; [rewrite (Hd "ArrowDown" (or_introl eq_refl)); reflexivity|].
  split; [rewrite (Hu "ArrowLeft" (or_intror eq_refl)); reflexivity|].
  exact (proj1 (Hb "ArrowDown" "ArrowUp" (or_introl eq_refl) (or_introl eq_refl))).
Defined.

Lemma arrow_keys_with_the_focus_elsewhere_witness :
  menu_open (bar nav_opened) ∧ activeElement nav_opened = None ∧
  activeElement <$> handleKeydown "ArrowRight" nav_opened = Some (Some 0%nat) ∧
  activeElement <$> handleKeydown "ArrowUp" nav_opened = Some (Some 1%nat).
Proof.
  assert (Ho : menu_open (bar nav_opened))
    by (apply (bool_decide_unpack _); vm_compute; exact I).
  assert (Hl : (0 < length (navLinks nav_opened))%nat) by (vm_compute; lia).
  destruct (arrow_keys_with_the_focus_elsewhere nav_opened Ho eq_refl)
    as (_ & H).
  destruct (H Hl) as (Hd & Hu).
  split; [exact Ho|]. split; [reflexivity|].
  split; [rewrite (Hd "ArrowRight" (or_intror eq_refl)); reflexivity|].
  rewrite (Hu "ArrowUp" (or_introl eq_refl)). reflexivity.
Defined.

Lemma link_click_navigates_witness :
  let q := onLinkClick 1 nav_on_last in
  menu_open (bar nav_on_last) ∧
  effects q = [ScrollIntoView "about"; PushState "#about"] ∧
  (∃ l', navLinks q !! 1%nat = Some l' ∧ active l') ∧
  bar q = Navigation.closeNav (bar nav_on_last).
Proof.
  intros q.
  destruct (link_click_navigates 1 (mkLink "#about" {["nav-link"]} ∅)
              nav_on_last eq_refl) as (_ & H).
  destruct (H eq_refl) as (H1 & _ & (l' & Hl & Ha & _) & H2 & _).
  split; [apply (bool_decide_unpack _); vm_compute; exact I|].
  split; [exact H1|]. split; [exists l'; split; [exact Hl|exact Ha]|exact H2].
Defined.

End NavigationPageSpec.

(** ** More of drag and drop *)

Module DragDropMore.
Import DragDrop DragDropSpec DragDropTerms.
Local Open Scope nat_scope.

Section PageUpdate.
Variables (y : nat) (g : Element -> Element).
Hypothesis g_eid : ∀ n, eid (g n) = eid n.
Hypothesis g_children : ∀ n, children (g n) = children n.

Lemma nodes_update_page p :
  nodes (update_page y g p) = map (update y g) (nodes p).
Proof.
  unfold nodes, roots, update_page. cbn [body detached flat_map].
  rewrite map_app, subtree_update by done. f_equal.
  induction (detached p) as [|e r IH]; cbn; [done|].
  rewrite map_app, subtree_update by done. by rewrite IH.
Qed.

Lemma lookup_update_page z p :
  lookup z (update_page y g p) = update y g <$> lookup z p.
Proof.
  unfold lookup. rewrite nodes_update_page. apply find_map_same.
  intros n. by rewrite eid_update.
Qed.

Lemma same_layout_update_page p :
  (∀ n, has_class "draggable-item" (g n) = has_class "draggable-item" n) ->
  same_layout p (update_page y g p).
Proof.
  intros Hc. split.
  - by apply ids_update.
  - intros z. unfold holds. rewrite lookup_update_page.
    destruct (lookup z p) as [zn|]; [|done]. cbn. unfold querySelectorAll.
    rewrite descendants_update by done.
    by apply items_update.
Qed.

End PageUpdate.

Lemma same_layout_refl p : same_layout p p.
Proof. by split. Qed.

Lemma same_layout_trans p1 p2 p3 :
  same_layout p1 p2 -> same_layout p2 p3 -> same_layout p1 p3.
Proof.
  intros [H1 H2] [H3 H4]. split; [congruence|].
  intros z. by rewrite H4, H2.
Qed.

Lemma same_layout_remove_class c y p :
  c ≠ "draggable-item" -> same_layout p (remove_class c y p).
Proof.
  intros Hc. apply same_layout_update_page; try done.
  intros n. unfold has_class. cbn. apply bool_decide_ext. set_solver.
Qed.

Lemma same_layout_add_class c y p :
  c ≠ "draggable-item" -> same_layout p (add_class c y p).
Proof.
  intros Hc. apply same_layout_update_page; try done.
  intros n. unfold has_class. cbn. apply bool_decide_ext. set_solver.
Qed.

Lemma same_layout_set_style s y p : same_layout p (set_style s y p).
Proof. by apply same_layout_update_page. Qed.

Lemma fold_remove_class_layout c ys p :
  c ≠ "draggable-item" ->
  same_layout p (fold_left (λ p y, remove_class c y p) ys p).
Proof.
  intros Hc. revert p. induction ys as [|y ys IH]; intros p; cbn.
  - apply same_layout_refl.
  - eapply same_layout_trans; [|apply IH]. by apply same_layout_remove_class.
Qed.


(** Class lists through the removal of a class. *)
Lemma classList_update_remove c y n :
  classList
    (update y (λ e, Node (eid e) (classList e ∖ {[c]}) (style e) (children e)) n) =
  if eid n =? y then classList n ∖ {[c]} else classList n.
Proof. destruct n as [i cl s ch]. cbn. by destruct (i =? y). Qed.

Lemma style_update_remove c y n :
  style
    (update y (λ e, Node (eid e) (classList e ∖ {[c]}) (style e) (children e)) n) =
  style n.
Proof. destruct n as [i cl s ch]. cbn. by destruct (i =? y). Qed.

Lemma strip_spec c ys n :
  eid (strip c ys n) = eid n ∧ style (strip c ys n) = style n ∧
  classList (strip c ys n) =
    (if existsb (Nat.eqb (eid n)) ys then classList n ∖ {[c]} else classList n).
Proof.
  unfold strip. revert n. induction ys as [|y ys IH]; intros n; cbn [fold_left].
  - done.
  - destruct (IH (update y (λ e, Node (eid e) (classList e ∖ {[c]}) (style e)
                                   (children e)) n)) as (He & Hs & Hc).
    rewrite eid_update in He, Hc by done.
    rewrite style_update_remove in Hs. rewrite classList_update_remove in Hc.
    split; [done|]. split; [done|]. rewrite Hc. cbn [existsb].
    destruct (eid n =? y), (existsb _ ys); cbn; try done. set_solver.
Qed.

Lemma fold_remove_class_eq c ys p :
  fold_left (λ p y, remove_class c y p) ys p =
  mkPage (strip c ys (body p)) (map (strip c ys) (detached p)).
Proof.
  unfold strip. revert p. induction ys as [|y ys IH]; intros p; cbn [fold_left].
  - destruct p. cbn. by rewrite map_id.
  - rewrite IH. unfold remove_class, update_page. cbn [body detached].
    by rewrite map_map.
Qed.

Lemma subtree_strip c ys e : subtree (strip c ys e) = map (strip c ys) (subtree e).
Proof.
  unfold strip. revert e. induction ys as [|y ys IH]; intros e; cbn [fold_left].
  - by rewrite map_id.
  - rewrite IH, subtree_update by done. by rewrite map_map.
Qed.

Lemma lookup_strip c ys z p :
  lookup z (fold_left (λ p y, remove_class c y p) ys p) =
  strip c ys <$> lookup z p.
Proof.
  unfold strip. revert p. induction ys as [|y ys IH]; intros p; cbn [fold_left].
  - by destruct (lookup z p).
  - rewrite IH. unfold remove_class. rewrite lookup_update_page by done.
    by destruct (lookup z p).
Qed.

Lemma clear_drag_over_eq p :
  clear_drag_over p =
  fold_left (λ p y, remove_class "drag-over" y p)
    (map eid (List.filter (has_class "drop-zone") (subtree (body p)))) p.
Proof.
  unfold clear_drag_over.
  generalize (List.filter (has_class "drop-zone") (subtree (body p))) at 1 2.
  intros l. revert p. induction l as [|m l IH]; intros q; cbn; [done|]. apply IH.
Qed.

Lemma same_layout_clear_drag_over p : same_layout p (clear_drag_over p).
Proof. rewrite clear_drag_over_eq. by apply fold_remove_class_layout. Qed.

(** [clear_drag_over] leaves no drop zone of the document with the class
    [drag-over], and changes no other class and no style. *)
Lemma clear_drag_over_zones p n :
  In n (subtree (body (clear_drag_over p))) ->
  has_class "drop-zone" n = true -> has_class "drag-over" n = false.
Proof.
  rewrite clear_drag_over_eq, fold_remove_class_eq. cbn [body].
  rewrite subtree_strip. intros (n0 & <- & Hn0)%in_map_iff.
  set (ys := map eid (List.filter (has_class "drop-zone") (subtree (body p)))).
  assert (Hin : has_class "drop-zone" n0 = true ->
                existsb (Nat.eqb (eid n0)) ys = true).
  { intros Hz. apply In_existsb_eqb, in_map, filter_In. by split. }
  clearbody ys.
  destruct (strip_spec "drag-over" ys n0) as (He & Hs & Hc).
  unfold has_class in *. rewrite Hc. intros Hz.
  apply bool_decide_eq_false.
  destruct (existsb _ _) eqn:E; [set_solver|].
  by specialize (Hin Hz).
Qed.

Lemma lookup_clear_drag_over z p e :
  lookup z (clear_drag_over p) = Some e ->
  ∃ e0, lookup z p = Some e0 ∧ style e = style e0 ∧ classList e ⊆ classList e0.
Proof.
  rewrite clear_drag_over_eq, lookup_strip.
  destruct (lookup z p) as [e0|]; [|done]. cbn. intros [= <-].
  exists e0. split; [done|].
  destruct (strip_spec "drag-over"
              (map eid (List.filter (has_class "drop-zone") (subtree (body p)))) e0)
    as (He & Hs & Hc).
  split; [done|]. rewrite Hc. destruct (existsb _ _); set_solver.
Qed.

Lemma lookup_eid z p e : lookup z p = Some e -> eid e = z.
Proof. by intros [_ H%Nat.eqb_eq]%find_some. Qed.

Lemma lookup_remove_class c z p e :
  lookup z (remove_class c z p) = Some e ->
  ∃ e0, lookup z p = Some e0 ∧ style e = style e0 ∧ c ∉ classList e.
Proof.
  unfold remove_class. rewrite lookup_update_page by done.
  destruct (lookup z p) as [e0|] eqn:E; [|done]. cbn. intros [= <-].
  exists e0. split; [done|]. rewrite style_update_remove, classList_update_remove.
  rewrite (lookup_eid _ _ _ E), Nat.eqb_refl. split; [done|set_solver].
Qed.

Lemma lookup_set_style s z p e :
  lookup z (set_style s z p) = Some e -> style e = s.
Proof.
  unfold set_style. rewrite lookup_update_page by done.
  destruct (lookup z p) as [e0|] eqn:E; [|done]. cbn. intros [= <-].
  apply lookup_eid in E. destruct e0 as [i cl st ch]. cbn in *. subst i.
  by rewrite Nat.eqb_refl.
Qed.

(** X23. [handleDragEnd] ends the drag and moves nothing: no item is
    being dragged afterwards, every element is where it was and every
    zone holds the items it held, the element the drag ended on has lost
    the class [dragging], and no drop zone of the document has the class
    [drag-over]. *)
Theorem drag_end_clears_the_marks (x : nat) (σ : State) :
  let σ' := handleDragEnd x σ in
  draggedItem (this σ') = None ∧
  same_layout (page σ) (page σ') ∧
  (∀ e, lookup x (page σ') = Some e -> has_class "dragging" e = false) ∧
  (∀ n, In n (subtree (body (page σ'))) ->
        has_class "drop-zone" n = true -> has_class "drag-over" n = false).
Proof.
  intros σ'. subst σ'. unfold handleDragEnd. cbn [page this set_page set_draggedItem
    draggedItem].
  split; [done|]. split; [|split].
  - eapply same_layout_trans; [|apply same_layout_clear_drag_over].
    by apply same_layout_remove_class.
  - intros e (e1 & He1 & _ & Hsub)%lookup_clear_drag_over.
    apply lookup_remove_class in He1 as (e0 & _ & _ & Hd).
    unfold has_class. apply bool_decide_eq_false. set_solver.
  - apply clear_drag_over_zones.
Qed.

Lemma under_drop_zone_page under σ σ' :
  page σ' = page σ -> under_drop_zone under σ' = under_drop_zone under σ.
Proof.
  intros H. unfold under_drop_zone, targets_drop_zone. by rewrite H.
Qed.

(** X22. A touch that ends while an item is dragged and the element under
    the finger is no drop zone moves nothing: no item is being dragged
    afterwards, every element is where it was and every zone holds the
    items it held, the dragged item has its inline position cleared and
    has lost the class [dragging], and no drop zone of the document has
    the class [drag-over]. *)
Theorem touch_end_off_a_zone_moves_nothing
    (σ : State) (x : nat) (clientX clientY : Z) (under : option nat) :
  draggedItem (this σ) = Some x ->
  under_drop_zone under σ = None ->
  let σ' := handleTouchEnd clientX clientY under σ in
  draggedItem (this σ') = None ∧
  same_layout (page σ) (page σ') ∧
  (∀ e, lookup x (page σ') = Some e ->
        style e = mkStyle "" "" "" ∧ has_class "dragging" e = false) ∧
  (∀ n, In n (subtree (body (page σ'))) ->
        has_class "drop-zone" n = true -> has_class "drag-over" n = false).
Proof.
  intros Hd Hu σ'.
  assert (Hp : page σ' =
               clear_drag_over
                 (remove_class "dragging" x
                    (set_style (mkStyle "" "" "") x (page σ))) ∧
               draggedItem (this σ') = None).
  { subst σ'. unfold handleTouchEnd. rewrite Hd.
    unfold under_drop_zone, targets_drop_zone in *.
    rewrite !page_clearTimeout.
    destruct under as [u|]; [|done].
    destruct (lookup u (page σ)) as [e|]; [|done].
    by destruct (has_class "drop-zone" e). }
  destruct Hp as [Hp Hnone]. rewrite Hp. clear Hp.
  split; [done|]. split; [|split].
  - eapply same_layout_trans; [|apply same_layout_clear_drag_over].
    eapply same_layout_trans; [apply same_layout_set_style|].
    by apply same_layout_remove_class.
  - intros e (e1 & He1 & Hs1 & Hsub)%lookup_clear_drag_over.
    apply lookup_remove_class in He1 as (e0 & He0 & Hs0 & Hdr).
    apply lookup_set_style in He0. split; [congruence|].
    unfold has_class. apply bool_decide_eq_false. set_solver.
  - apply clear_drag_over_zones.
Qed.

Lemma timers_fold_remove (E : list Element) σ :
  timers (fold_left (λ σ item, set_page (remove (eid item) (page σ)) σ) E σ) =
  timers σ.
Proof. revert σ. induction E as [|n E IH]; intros σ; cbn; [done|]. by rewrite IH. Qed.

Lemma timers_handleTouchEnd clientX clientY under σ x :
  draggedItem (this σ) = Some x ->
  timers (handleTouchEnd clientX clientY under σ) =
  timers (clearTimeout (touchTimeout (this σ)) σ).
Proof.
  intros Hd. unfold handleTouchEnd. rewrite Hd.
  cbn [timers set_page set_draggedItem].
  destruct (under_drop_zone under _) as [z|]; [|done].
  destruct (lookup x _) as [item|]; [|done].
  cbn [timers set_page]. by rewrite timers_fold_remove.
Qed.

(** X24. [handleTouchStart] arms a timer no earlier touch has armed.
    When the touch ends before that timer fires, its callback leaves the
    page as the end of the touch left it, whether the touch was on a
    draggable item or not, and the timer is not pending any more: a
    short tap never marks an item as dragged. *)
Theorem short_tap_never_starts_a_drag
    (σ : State) (target : nat) (x y x' y' : Z) (under : option nat) :
  let σ1 := handleTouchStart target x y σ in
  let σ2 := handleTouchEnd x' y' under σ1 in
  ∀ timer, touchTimeout (this σ1) = Some timer ->
    In timer (timers σ1) ∧ ¬ In timer (timers σ) ∧
    page (touchTimer timer σ2) = page σ2 ∧
    ¬ In timer (timers (touchTimer timer σ2)).
Proof.
  intros σ1 σ2 timer Ht.
  assert (Et : timer = Datatypes.S (max_list (timers σ ++ option_list (touchTimeout (this σ)))))
    by (cbn in Ht; congruence).
  assert (Hnew : ¬ In timer (timers σ)).
  { intros Hin%list_elem_of_In. 
    assert (timer ∈ (timers σ ++ option_list (touchTimeout (this σ)))%list)
      as Hin' by set_solver.
    apply max_list_elem_of_le in Hin'. lia. }
  split; [subst σ1; cbn; by left|]. split; [done|].
  assert (Hfilter : ∀ l : list nat,
            ¬ In timer (List.filter (λ t', negb (t' =? timer)) l)).
  { intros l [_ H]%filter_In. by rewrite Nat.eqb_refl in H. }
  destruct (draggedItem (this σ1)) as [d|] eqn:Hd.
  - assert (Hgone : ¬ In timer (timers σ2)).
    { subst σ2. rewrite (timers_handleTouchEnd _ _ _ _ _ Hd), Ht. cbn [clearTimeout timers].
      apply Hfilter. }
    unfold touchTimer. rewrite bool_decide_eq_false_2; [done|].
    by rewrite list_elem_of_In.
  - assert (E2 : σ2 = σ1) by (subst σ2; unfold handleTouchEnd; by rewrite Hd).
    rewrite E2. unfold touchTimer.
    destruct (bool_decide _) eqn:E; [|split; [done|]].
    + cbn [draggedItem this]. rewrite Hd. cbn [page timers]. split; [done|].
      apply Hfilter.
    + apply bool_decide_eq_false in E. by rewrite list_elem_of_In in E.
Qed.

Lemma lookup_add_class c y z p e :
  lookup z (add_class c y p) = Some e ->
  ∃ e0, lookup z p = Some e0 ∧ style e = style e0 ∧
        (y = z -> c ∈ classList e) ∧
        (∀ d, d ∈ classList e0 -> d ∈ classList e).
Proof.
  unfold add_class. rewrite lookup_update_page by done.
  destruct (lookup z p) as [e0|] eqn:E; [|done]. cbn. intros [= <-].
  exists e0. split; [done|]. apply lookup_eid in E.
  destruct e0 as [i cl st ch]. cbn in *. subst i.
  destruct (z =? y) eqn:Ezy; cbn.
  - split; [done|]. split; [set_solver|set_solver].
  - split; [done|]. split; [|done]. intros ->. by rewrite Nat.eqb_refl in Ezy.
Qed.

Lemma lookup_set_style_class s y z p :
  has_class "drop-zone" <$> lookup z (set_style s y p) =
  has_class "drop-zone" <$> lookup z p.
Proof.
  unfold set_style. rewrite lookup_update_page by done.
  destruct (lookup z p) as [e0|]; [|done]. cbn. f_equal.
  by apply has_class_update.
Qed.

(** X25. While an item is dragged, [handleTouchMove] puts it at a fixed
    position 50px left of and 25px above the finger and keeps it the
    dragged item; every element stays where it was in the document and
    every zone holds the items it held; when the element under the finger
    is a drop zone, that zone has the class [drag-over] afterwards. *)
Theorem touch_move_follows_the_finger
    (σ : State) (x : nat) (clientX clientY : Z) (under : option nat) :
  draggedItem (this σ) = Some x ->
  let σ' := handleTouchMove clientX clientY under σ in
  draggedItem (this σ') = Some x ∧
  same_layout (page σ) (page σ') ∧
  (∀ e, lookup x (page σ') = Some e ->
        style e = mkStyle "fixed" (px (clientX - 50)) (px (clientY - 25))) ∧
  (∀ z e, under_drop_zone under σ = Some z -> lookup z (page σ') = Some e ->
          has_class "drag-over" e = true).
Proof.
  intros Hd σ'.
  set (s := mkStyle "fixed" (px (clientX - 50)) (px (clientY - 25))).
  set (σ1 := set_page (set_style s x (page σ)) σ).
  assert (Hu : under_drop_zone under σ1 = under_drop_zone under σ).
  { unfold under_drop_zone, targets_drop_zone. destruct under as [u|]; [|done].
    pose proof (lookup_set_style_class s x u (page σ)) as H.
    subst σ1. cbn [page set_page].
    destruct (lookup u (set_style s x (page σ))), (lookup u (page σ));
      cbn in H; try done. injection H as ->. done. }
  assert (E : σ' = match under_drop_zone under σ with
                   | Some dropZone =>
                       set_page (add_class "drag-over" dropZone (page σ1)) σ1
                   | None => σ1
                   end).
  { subst σ'. unfold handleTouchMove. rewrite Hd. fold s σ1. by rewrite Hu. }
  rewrite E. clear E Hu.
  assert (H1 : same_layout (page σ) (page σ1)) by apply same_layout_set_style.
  destruct (under_drop_zone under σ) as [z|]; cbn [page set_page this draggedItem].
  - split; [done|]. split; [|split].
    + eapply same_layout_trans; [exact H1|]. by apply same_layout_add_class.
    + intros e (e0 & He0 & Hs & _)%lookup_add_class.
      apply lookup_set_style in He0. congruence.
    + intros z' e [= <-] (e0 & _ & _ & Hc & _)%lookup_add_class.
      unfold has_class. apply bool_decide_eq_true. by apply Hc.
  - split; [done|]. split; [done|]. split; [|done].
    intros e. apply lookup_set_style.
Qed.


(** *** On a concrete page *)

Import Samples.

Lemma touch_end_off_a_zone_moves_nothing_witness :
  let σ := handleTouchMove 40 60 (Some 1) picked_up in
  let σ' := handleTouchEnd 40 60 (Some 1) σ in
  draggedItem (this σ) = Some 2 ∧ under_drop_zone (Some 1) σ = None ∧
  draggedItem (this σ') = None ∧
  ids (body (page σ')) = [0; 1; 2; 4; 3] ∧ holds 4 (page σ') = [3] ∧
  style <$> lookup 2 (page σ') = Some (mkStyle "" "" "").
Proof.
  intros σ σ'.
  destruct (touch_end_off_a_zone_moves_nothing σ 2 40 60 (Some 1)
              eq_refl eq_refl) as (H1 & [H2 H3] & H4 & _).
  fold σ' in H1, H2, H3, H4.
  split; [reflexivity|]. split; [reflexivity|]. split; [exact H1|].
  split; [rewrite H2; vm_compute; reflexivity|].
  split; [rewrite H3; vm_compute; reflexivity|].
  destruct (lookup 2 (page σ')) as [e|] eqn:E; [|vm_compute in E; discriminate E].
  cbn. f_equal. exact (proj1 (H4 e eq_refl)).
Defined.

Lemma short_tap_never_starts_a_drag_witness :
  let σ1 := handleTouchStart 2 10 10 (idle occupied_page) in
  let σ2 := handleTouchEnd 10 10 (Some 2) σ1 in
  touchTimeout (this σ1) = Some 1 ∧
  page (touchTimer 1 σ2) = page σ2 ∧
  ¬ In 1 (timers (touchTimer 1 σ2)).
Proof.
  intros σ1 σ2.
  destruct (short_tap_never_starts_a_drag (idle occupied_page) 2 10 10 10 10
              (Some 2) 1 eq_refl) as (_ & _ & H1 & H2).
  split; [reflexivity|]. split; [exact H1|exact H2].
Defined.

Lemma touch_move_follows_the_finger_witness :
  let σ' := handleTouchMove 40 60 (Some 4) picked_up in
  draggedItem (this picked_up) = Some 2 ∧
  under_drop_zone (Some 4) picked_up = Some 4 ∧
  style <$> lookup 2 (page σ') = Some (mkStyle "fixed" "-10px" "35px") ∧
  has_class "drag-over" <$> lookup 4 (page σ') = Some true.
Proof.
  intros σ'.
  destruct (touch_move_follows_the_finger picked_up 2 40 60 (Some 4) eq_refl)
    as (_ & _ & H1 & H2).
  fold σ' in H1, H2.
  split; [reflexivity|]. split; [reflexivity|]. split.
  - destruct (lookup 2 (page σ')) as [e|] eqn:E; [|vm_compute in E; discriminate E].
    cbn. f_equal. exact (H1 e eq_refl).
  - destruct (lookup 4 (page σ')) as [e|] eqn:E; [|vm_compute in E; discriminate E].
    cbn. f_equal. exact (H2 4 e eq_refl E).
Defined.

End DragDropMore.
